(** * GTK4 Smith chart: a shallow embedding of GTKsmithChart.c

    The geometry engine of the chart works on [gdouble]s.  Two readings of
    the same C expressions are given:

    - the exact one, where a [gdouble] is a real number ([R]) and the
      arithmetic of the source is the arithmetic of the field.  The
      algebraic identities of the transform and of the geometry are stated
      in this reading; the program's values differ from the exact ones by
      the rounding of its operations;
    - the IEEE binary64 one ([Module Binary64]), bit for bit, for the
      functions that only use [+ - * /].  Where rounding decides a
      statement - a sum that rounds to zero or overflows, a division by
      zero, the strictness of an inequality - the property is stated in
      this reading.

    Integers of the source ([gint], [int]) are [Z]; where a sum of the
    source could leave the range of an [int], the property says for which
    arguments it does not. *)

From Stdlib Require Import Floats.
From Stdlib Require Import Reals Lra Lia ZArith List String Bool DecimalString.
Import ListNotations.

Local Open Scope string_scope.
Local Open Scope list_scope.
Local Open Scope R_scope.

(** ** GTKsmithChart.h: the data model *)

(** [typedef struct { gdouble U,V; } tUV;] *)
Record tUV : Type := mkUV { U : R; V : R }.

(** [typedef struct { gdouble R, X; } tRX;]  (the field [R] of the source
    is [Rr] here, [R] being the type of the reals) *)
Record tRX : Type := mkRX { Rr : R; X : R }.

(** [typedef struct { tUV A, B; } tLine;] *)
Record tLine : Type := mkLine { A : tUV; B : tUV }.

(** [typedef struct { gdouble region; gdouble minorDiv; gint minorPerMajorDiv; } tRegion;] *)
Record tRegion : Type := mkRegion
  { region : R; minorDiv : R; minorPerMajorDiv : Z }.

(** [typedef struct { gdouble value; gchar *text; } tLabel;]; a NULL [text]
    is [None]. *)
Record tLabel : Type := mkLabel { value : R; text : option string }.

(** The largest [gint] *)
Definition G_MAXINT : Z := 2147483647%Z.

Definition END : Z := (-1)%Z.
Definition SPECIAL_CASE : Z := 0%Z.

Definition SMITH_RADIUS : R := 1.0.
Definition LABELFONTSIZE : R := SMITH_RADIUS / 55.0.
Definition STROKE_WIDTH_THIN : R := SMITH_RADIUS / 2000.
Definition STROKE_WIDTH_MINOR : R := SMITH_RADIUS / 1500.
Definition STROKE_WIDTH_MAJOR : R := SMITH_RADIUS / 500.
Definition SQU (x : R) : R := x * x.
Definition DEGtoRAD (x : R) : R := x / 180.0 * PI.
Definition WAVE_RING_RADIUS : R := 1.115 * SMITH_RADIUS.
Definition ANGLE_RING_RADIUS : R := 1.038 * SMITH_RADIUS.
Definition SRpct (x : R) : R := SMITH_RADIUS / 100.0 * x.
Definition OUTER_BOUNDARY_WITH_RING : R :=
  WAVE_RING_RADIUS + ((WAVE_RING_RADIUS - ANGLE_RING_RADIUS) / 2.0).

(** ** The coordinate transform *)

(** The local [Zplus1_magSqu] of [RXtoUV]: [(Z+1)] times its conjugate. *)
Definition Zplus1_magSqu (rx : tRX) : R :=
  SQU (Rr rx) + SQU (X rx) + (Rr rx * 2.0) + 1.0.

(** [tUV RXtoUV( tRX rx )] *)
Definition RXtoUV (rx : tRX) : tUV :=
  let D := Zplus1_magSqu rx in
  {| U := (SQU (Rr rx) + SQU (X rx) - 1.0) / D;
     V := X rx * 2.0 / D |}.

(** ** <math.h> on the reals *)

(** [atan2(y, x)] of the C library on finite arguments, both zeros taken
    as [+0]: the angle in (-PI, PI] of the point (x, y). *)
Definition atan2 (y x : R) : R :=
  if Rlt_dec 0 x then atan (y / x)
  else if Rlt_dec x 0 then
         (if Rle_dec 0 y then atan (y / x) + PI else atan (y / x) - PI)
  else if Rlt_dec 0 y then PI / 2
  else if Rlt_dec y 0 then - (PI / 2)
  else 0.

(** [fabs] *)
Definition fabs (x : R) : R := Rabs x.

(** ** Angles of the arcs *)

(** [static gdouble angleR( tRX rx )] *)
Definition angleR (rx : tRX) : R :=
  let uv := RXtoUV rx in
  atan2 (V uv) (U uv - (Rr rx / (Rr rx + 1.0))).

(** [static gdouble angleX( tRX rx )] *)
Definition angleX (rx : tRX) : R :=
  let uv := RXtoUV rx in
  atan2 (V uv - 1.0 / X rx) (U uv - 1.0).

(** ** The drawing sink: a cairo context

    The program never inspects what it has drawn; of the graphics state it
    reads back the current transformation matrix only ([cairo_get_matrix]).
    A context is therefore the matrix, the stack of matrices pushed by
    [cairo_save], and the sequence of calls received so far. *)

(** [cairo_matrix_t]: (x, y) goes to (xx*x + xy*y + x0, yx*x + yy*y + y0). *)
Record cairo_matrix_t : Type := mkMatrix
  { xx : R; yx : R; xy : R; yy : R; x0 : R; y0 : R }.

Inductive cairo_operator_t : Type :=
| CAIRO_OPERATOR_CLEAR
| CAIRO_OPERATOR_OVER.

(** One constructor for each cairo entry point the program calls. *)
Inductive cairo_op : Type :=
| op_save
| op_restore
| op_set_matrix (m : cairo_matrix_t)
| op_translate (tx ty : R)
| op_scale (sx sy : R)
| op_rotate (angle : R)
| op_set_line_width (w : R)
| op_set_source_rgba (r g b a : R)
| op_set_operator (o : cairo_operator_t)
| op_select_font_face (family : string)
| op_set_font_matrix (m : cairo_matrix_t)
| op_set_font_options_unhinted
| op_new_path
| op_move_to (x y : R)
| op_line_to (x y : R)
| op_curve_to (x1 y1 x2 y2 x3 y3 : R)
| op_arc (xc yc radius angle1 angle2 : R)
| op_arc_negative (xc yc radius angle1 angle2 : R)
| op_rel_move_to (dx dy : R)
| op_rel_line_to (dx dy : R)
| op_close_path
| op_rectangle (x y w h : R)
| op_stroke
| op_stroke_preserve
| op_fill
| op_show_text (s : string).

Record cairo_t : Type := mkCairo
  { ctm : cairo_matrix_t;
    saved : list cairo_matrix_t;
    sink : list cairo_op }.

(** A drawing routine: what it does to the context it is handed. *)
Definition cairo : Type := cairo_t -> cairo_t.

Definition skip : cairo := fun cr => cr.

Definition andthen (f g : cairo) : cairo := fun cr => g (f cr).

Declare Scope cairo_scope.
Delimit Scope cairo_scope with cairo.
Bind Scope cairo_scope with cairo.
Notation "f ;; g" := (andthen f g)
  (at level 61, right associativity) : cairo_scope.
Local Open Scope cairo_scope.

Definition emit (op : cairo_op) : cairo := fun cr =>
  {| ctm := ctm cr; saved := saved cr; sink := sink cr ++ [op] |}.

Definition set_ctm (m : cairo_matrix_t) : cairo := fun cr =>
  {| ctm := m; saved := saved cr; sink := sink cr |}.

Definition matrix_translate (m : cairo_matrix_t) (tx ty : R) : cairo_matrix_t :=
  {| xx := xx m; yx := yx m; xy := xy m; yy := yy m;
     x0 := xx m * tx + xy m * ty + x0 m;
     y0 := yx m * tx + yy m * ty + y0 m |}.

Definition matrix_scale (m : cairo_matrix_t) (sx sy : R) : cairo_matrix_t :=
  {| xx := xx m * sx; yx := yx m * sx; xy := xy m * sy; yy := yy m * sy;
     x0 := x0 m; y0 := y0 m |}.

Definition matrix_rotate (m : cairo_matrix_t) (a : R) : cairo_matrix_t :=
  {| xx := cos a * xx m + sin a * xy m;
     yx := cos a * yx m + sin a * yy m;
     xy := - sin a * xx m + cos a * xy m;
     yy := - sin a * yx m + cos a * yy m;
     x0 := x0 m; y0 := y0 m |}.

Definition cairo_save : cairo := fun cr =>
  {| ctm := ctm cr; saved := ctm cr :: saved cr; sink := sink cr ++ [op_save] |}.

(** A restore without a matching save puts a real context in an error
    state; here it leaves the matrix as it is. *)
Definition cairo_restore : cairo := fun cr =>
  match saved cr with
  | m :: rest => {| ctm := m; saved := rest; sink := sink cr ++ [op_restore] |}
  | [] => {| ctm := ctm cr; saved := []; sink := sink cr ++ [op_restore] |}
  end.

(** The idiom [cairo_save( cr ); { body } cairo_restore( cr );] *)
Definition cairo_block (body : cairo) : cairo :=
  cairo_save ;; body ;; cairo_restore.

Definition cairo_set_matrix (m : cairo_matrix_t) : cairo :=
  set_ctm m ;; emit (op_set_matrix m).
Definition cairo_translate (tx ty : R) : cairo := fun cr =>
  emit (op_translate tx ty) (set_ctm (matrix_translate (ctm cr) tx ty) cr).
Definition cairo_scale (sx sy : R) : cairo := fun cr =>
  emit (op_scale sx sy) (set_ctm (matrix_scale (ctm cr) sx sy) cr).
Definition cairo_rotate (a : R) : cairo := fun cr =>
  emit (op_rotate a) (set_ctm (matrix_rotate (ctm cr) a) cr).

Definition cairo_set_line_width (w : R) : cairo := emit (op_set_line_width w).
Definition cairo_set_source_rgba (r g b a : R) : cairo :=
  emit (op_set_source_rgba r g b a).
Definition cairo_set_operator (o : cairo_operator_t) : cairo :=
  emit (op_set_operator o).
Definition cairo_select_font_face (family : string) : cairo :=
  emit (op_select_font_face family).
Definition cairo_set_font_matrix (m : cairo_matrix_t) : cairo :=
  emit (op_set_font_matrix m).
Definition cairo_new_path : cairo := emit op_new_path.
Definition cairo_move_to (x y : R) : cairo := emit (op_move_to x y).
Definition cairo_line_to (x y : R) : cairo := emit (op_line_to x y).
Definition cairo_curve_to (x1 y1 x2 y2 x3 y3 : R) : cairo :=
  emit (op_curve_to x1 y1 x2 y2 x3 y3).
Definition cairo_arc (xc yc radius angle1 angle2 : R) : cairo :=
  emit (op_arc xc yc radius angle1 angle2).
Definition cairo_arc_negative (xc yc radius angle1 angle2 : R) : cairo :=
  emit (op_arc_negative xc yc radius angle1 angle2).
Definition cairo_rel_move_to (dx dy : R) : cairo := emit (op_rel_move_to dx dy).
Definition cairo_rel_line_to (dx dy : R) : cairo := emit (op_rel_line_to dx dy).
Definition cairo_close_path : cairo := emit op_close_path.
Definition cairo_rectangle (x y w h : R) : cairo := emit (op_rectangle x y w h).
Definition cairo_stroke : cairo := emit op_stroke.
Definition cairo_stroke_preserve : cairo := emit op_stroke_preserve.
Definition cairo_fill : cairo := emit op_fill.
Definition cairo_show_text (s : string) : cairo := emit (op_show_text s).

(** The point of the circle (xc, yc, radius) at [angle]: where an arc
    starting or ending at that angle begins or ends. *)
Definition arc_point (xc yc radius angle : R) : tUV :=
  {| U := xc + radius * cos angle; V := yc + radius * sin angle |}.

(** ** The arc generator *)

(** [static void drawArc( cairo_t *cr, tUV uv, gdouble radius, gdouble angleStart, gdouble angleEnd)] *)
Definition drawArc (uv : tUV) (radius angleStart angleEnd : R) : cairo :=
  cairo_arc (U uv * SMITH_RADIUS) (V uv * SMITH_RADIUS)
            (radius * SMITH_RADIUS) angleStart angleEnd ;;
  cairo_stroke.

(** [static void drawRarc( cairo_t *cr, gdouble rArc, gdouble xFrom, gdouble xTo )] *)
Definition drawRarc (rArc xFrom xTo : R) : cairo :=
  let uv := {| U := rArc / (rArc + 1.0); V := 0.0 |} in
  let radius := 1.0 / (rArc + 1.0) in
  let rx := {| Rr := rArc; X := xFrom |} in
  let theta1 := angleR rx in
  let rx := {| Rr := Rr rx; X := xTo |} in
  let theta2 := angleR rx in
  drawArc uv radius theta1 theta2.

(** [static void drawXarc( cairo_t *cr, gdouble xArc, gdouble rFrom, gdouble rTo )] *)
Definition drawXarc (xArc rFrom rTo : R) : cairo :=
  let uv := {| U := 1.0; V := 1.0 / xArc |} in
  let radius := fabs (V uv) in
  let rx := {| Rr := rFrom; X := xArc |} in
  let theta1 := angleX rx in
  let rx := {| Rr := rTo; X := X rx |} in
  let theta2 := angleX rx in
  drawArc uv radius theta1 theta2.

(** ** The grid region model *)

(** [static tRegion stdGrid[]] *)
Definition stdGrid : list tRegion :=
  [ mkRegion 0.0 0.01 5; mkRegion 0.2 0.02 5; mkRegion 0.5 0.05 2;
    mkRegion 1.0 0.10 2; mkRegion 2.0 0.20 5; mkRegion 5.0 1.00 5;
    mkRegion 10.0 2.00 5; mkRegion 20.0 10.00 5; mkRegion 50.0 0.00 END ].

(** [static tRegion sparseGrid[]] *)
Definition sparseGrid : list tRegion :=
  [ mkRegion 0 0.1 5; mkRegion 1 0.2 5; mkRegion 2 0.5 2;
    mkRegion 4 1.0 6; mkRegion 10 5.0 2; mkRegion 20 30.0 SPECIAL_CASE;
    mkRegion 50 0.0 END ].

(** [static tLabel labels[]] *)
Definition labels : list tLabel :=
  [ mkLabel 0.0 (Some "0"); mkLabel 0.1 (Some "0.1"); mkLabel 0.2 (Some "0.2");
    mkLabel 0.3 (Some "0.3"); mkLabel 0.4 (Some "0.4"); mkLabel 0.5 (Some "0.5");
    mkLabel 0.6 (Some "0.6"); mkLabel 0.7 (Some "0.7"); mkLabel 0.8 (Some "0.8");
    mkLabel 0.9 (Some "0.9"); mkLabel 1.0 (Some "1.0"); mkLabel 1.2 (Some "1.2");
    mkLabel 1.4 (Some "1.4"); mkLabel 1.6 (Some "1.6"); mkLabel 1.8 (Some "1.8");
    mkLabel 2.0 (Some "2.0"); mkLabel 3.0 (Some "3.0"); mkLabel 4.0 (Some "4.0");
    mkLabel 5.0 (Some "5.0"); mkLabel 10.0 (Some "10"); mkLabel 20.0 (Some "20");
    mkLabel 50.0 (Some "50"); mkLabel 0.0 None ].

(** ** The grid renderer *)

(** Sequencing of routines that may not return: the loops of the grid
    exit on a comparison of [gdouble]s, and are run on [fuel]. *)
Definition andthen_opt (f g : option cairo) : option cairo :=
  match f, g with
  | Some f, Some g => Some (f ;; g)
  | _, _ => None
  end.

Notation "f ;;? g" := (andthen_opt f g)
  (at level 61, right associativity) : cairo_scope.

(** The shape of both loops of [drawBlock]:
    [for( gdouble v = start; v <= limit; v += inc, ticks++ ) body]
    The exit depends on the data, so the loop is run for at most [fuel]
    iterations; [None] when that was not enough to reach the exit. *)
Fixpoint sweep (fuel : nat) (v limit inc : R) (ticks : Z)
         (body : R -> Z -> cairo) : option cairo :=
  match fuel with
  | O => None
  | S fuel' =>
      if Rle_dec v limit then
        Some (body v ticks) ;;? sweep fuel' (v + inc) limit inc (ticks + 1)%Z body
      else Some skip
  end.

(** The line width chosen at the head of each iteration of [drawBlock]. *)
Definition tickWidth (ticks minorPerMajor : Z) : R :=
  if (Z.rem ticks minorPerMajor =? 0)%Z
  then STROKE_WIDTH_MAJOR else STROKE_WIDTH_MINOR.

(** [static void drawBlock( cairo_t *cr, tRX RXstart, tRX RXend, gdouble minorInc, gint minorPerMajor )] *)
Definition drawBlock (fuel : nat) (RXstart RXend : tRX) (minorInc : R)
           (minorPerMajor : Z) : option cairo :=
  let rticks := 1%Z in
  let xticks := 1%Z in
  sweep fuel (Rr RXstart + minorInc) (Rr RXend + minorInc / 2.0) minorInc rticks
    (fun r rticks =>
       cairo_set_line_width (tickWidth rticks minorPerMajor) ;;
       drawRarc r (X RXend) (X RXstart) ;;
       drawRarc r (- X RXstart) (- X RXend)) ;;?
  sweep fuel (X RXstart + minorInc) (X RXend + minorInc / 2.0) minorInc xticks
    (fun x xticks =>
       cairo_set_line_width (tickWidth xticks minorPerMajor) ;;
       drawXarc x (Rr RXstart) (Rr RXend) ;;
       drawXarc (- x) (Rr RXend) (Rr RXstart)).

(** The body of the loop of [drawImmittanceGrid] for [zones[index]] = [z];
    [znext] is [zones[index + 1]], which only the general case reads
    ([None]: there is no such cell). *)
Definition drawBand (fuel : nat) (index : Z) (z : tRegion)
           (znext : option tRegion) : option cairo :=
  let minorinc := minorDiv z in
  let minorPerMajor := minorPerMajorDiv z in
  if (minorPerMajor =? SPECIAL_CASE)%Z then
    Some (cairo_set_line_width STROKE_WIDTH_MAJOR ;;
          drawRarc 20 50 20 ;;
          drawRarc 20 (-20) (-50) ;;
          drawXarc 20 20 50 ;;
          drawXarc (-20) 50 20)
  else
    match znext with
    | None => None
    | Some znext =>
        let rxFrom := {| Rr := 0.0; X := region z |} in
        let rxTo := {| Rr := region znext; X := region znext |} in
        drawBlock fuel rxFrom rxTo minorinc minorPerMajor ;;?
        let rxFrom := {| Rr := region z; X := 0.0 |} in
        let rxTo := {| Rr := region znext; X := region z |} in
        let minorPerMajor := if (index =? 7)%Z then 3%Z else minorPerMajor in
        drawBlock fuel rxFrom rxTo minorinc minorPerMajor
    end.

(** [for( gint index=0; zones[ index ].minorPerMajorDiv != END; index++ )]:
    [zs] is the table from [zones[index]] on.  Running off the end of a
    table that has no [END] entry reads outside the array: [None]. *)
Fixpoint drawBands (fuel : nat) (index : Z) (zs : list tRegion) : option cairo :=
  match zs with
  | [] => None
  | z :: rest =>
      if (minorPerMajorDiv z =? END)%Z then Some skip
      else drawBand fuel index z (hd_error rest) ;;?
           drawBands fuel (index + 1)%Z rest
  end.

(** What [drawImmittanceGrid] draws after the bands. [zones_is_sparseGrid]
    is the pointer comparison [zones == sparseGrid]. *)
Definition drawGridClosing (zones_is_sparseGrid : bool) : cairo :=
  cairo_set_line_width STROKE_WIDTH_MAJOR ;;
  cairo_move_to (- SMITH_RADIUS) 0 ;;
  cairo_line_to SMITH_RADIUS 0 ;;
  cairo_stroke ;;
  cairo_arc 0 0 SMITH_RADIUS 0 (2.0 * PI) ;;
  cairo_stroke ;;
  drawRarc 50 10000 0 ;;
  drawRarc 50 0 (-10000) ;;
  drawXarc 50 0 10000 ;;
  drawXarc (-50) 10000 0 ;;
  (if zones_is_sparseGrid then
     drawRarc 10 10 0 ;;
     drawRarc 10 0 (-10) ;;
     drawXarc 4 4 10 ;;
     drawXarc (-4) 10 4
   else skip) ;;
  cairo_new_path ;;
  cairo_set_operator CAIRO_OPERATOR_CLEAR ;;
  cairo_arc 0 0 (SMITH_RADIUS / 150) 0 (2.0 * PI) ;;
  cairo_fill ;;
  cairo_set_operator CAIRO_OPERATOR_OVER ;;
  cairo_set_line_width STROKE_WIDTH_THIN ;;
  cairo_arc 0 0 (SMITH_RADIUS / 150) 0 (2.0 * PI) ;;
  cairo_stroke ;;
  cairo_arc 0 0 (SMITH_RADIUS / 800) 0 (2.0 * PI) ;;
  cairo_stroke.

(** [static void drawImmittanceGrid( cairo_t *cr, tRegion zones[], tSmithOptions *pOptions )]
    (the body does not use [pOptions]) *)
Definition drawImmittanceGrid (fuel : nat) (zones : list tRegion)
           (zones_is_sparseGrid : bool) : option cairo :=
  drawBands fuel 0 zones ;;? Some (drawGridClosing zones_is_sparseGrid).

(** The widths handed to [cairo_set_line_width] in a sequence of calls, in
    order: one for each minor step of each sweep of the grid. *)
Fixpoint lineWidths (ops : list cairo_op) : list R :=
  match ops with
  | [] => []
  | op_set_line_width w :: rest => w :: lineWidths rest
  | _ :: rest => lineWidths rest
  end.

(** ** The angle ring: the non-linear scale *)

(** [gdouble findTCradial( gdouble angleDegrees, gdouble unitRadius, gdouble coeffRadiuus )] *)
Definition findTCradial (angleDegrees unitRadius coeffRadiuus : R) : R :=
  let angleRadians := DEGtoRAD angleDegrees in
  let inter := sin angleRadians * unitRadius / coeffRadiuus in
  let inter := atan2 (inter / sqrt (1.0 - (inter * inter))) 1.0 in
  sin (PI - angleRadians - inter) * coeffRadiuus / sin angleRadians.

(** ** The curve fitter *)

Definition CURVE_F : R := 0.25.

(** The macro [angle(x)] of [bezierControlPoints]. *)
Definition angle (x : tLine) : R :=
  atan2 (V (B x) - V (A x)) (U (B x) - U (A x)).

(** [void bezierControlPoints(const tLine *g, const tLine *l, tUV *p1, tUV *p2)]:
    the pair of what is written to [*p1] and [*p2]. *)
Definition bezierControlPoints (g l : tLine) : tUV * tUV :=
  let f := CURVE_F in
  let lgt := sqrt ((U (B g) - U (A l)) ^ 2 + (V (B g) - V (A l)) ^ 2) in
  let h := {| A := {| U := U (B g) - lgt * cos (angle g);
                      V := V (B g) - lgt * sin (angle g) |};
              B := A l |} in
  let a := angle h in
  let p1 := {| U := U (B g) + lgt * cos a * f;
               V := V (B g) + lgt * sin a * f |} in
  let h := {| A := B g;
              B := {| U := U (A l) + lgt * cos (angle l);
                      V := V (A l) + lgt * sin (angle l) |} |} in
  let a := angle h in
  let p2 := {| U := U (A l) - lgt * cos a * f;
               V := V (A l) - lgt * sin a * f |} in
  (p1, p2).

(** [for (int i = from; ...; i++) body], [n] iterations. *)
Fixpoint for_loop (n : nat) (i : Z) (body : Z -> cairo) : cairo :=
  match n with
  | O => skip
  | S n' => body i ;; for_loop n' (i + 1)%Z body
  end.

(** [for (int i = from; i < to; i++) body] *)
Definition for_int (from to : Z) (body : Z -> cairo) : cairo :=
  for_loop (Z.to_nat (to - from)) from body.

(** [n] iterations of a loop whose counter starts at [i] and moves by
    [step]. *)
Fixpoint for_step (n : nat) (i step : Z) (body : Z -> cairo) : cairo :=
  match n with
  | O => skip
  | S n' => body i ;; for_step n' (i + step)%Z step body
  end.

(** [for (i = from; i <= to; i += step) body], [step] positive *)
Definition for_upto (from to step : Z) (body : Z -> cairo) : cairo :=
  for_step (Z.to_nat ((to - from) / step + 1)) from step body.

(** [for (i = from; i >= to; i += step) body], [step] negative *)
Definition for_downto (from to step : Z) (body : Z -> cairo) : cairo :=
  for_step (Z.to_nat ((from - to) / (- step) + 1)) from step body.

(** An array argument [tUV uvPoints[]] is a pointer: the callee may read
    any index, and finds there whatever the memory holds.  The caller's
    sequence of [length] points is the cells [0 .. length-1]. *)
Definition tUV_array : Type := Z -> tUV.

(** The body of the loop of [drawBezierCurveOnSmithChart]. *)
Definition bezierSegment (uvPoints : tUV_array) (length i : Z) : cairo :=
  let g := {| A := uvPoints (Z.rem (i + length - 2) length);
              B := uvPoints (Z.rem (i + length - 1) length) |} in
  let l := {| A := uvPoints (Z.rem (i + length + 0) length);
              B := uvPoints (Z.rem (i + length + 1) length) |} in
  let c := bezierControlPoints g l in
  let c1 := if (i =? 1)%Z then B g else fst c in
  let c2 := if (i =? length - 1)%Z then A l else snd c in
  cairo_curve_to (U c1) (V c1) (U c2) (V c2) (U (uvPoints i)) (V (uvPoints i)).

(** The path built by [drawBezierCurveOnSmithChart]. *)
Definition bezierPath (uvPoints : tUV_array) (length : Z) : cairo :=
  cairo_move_to (U (uvPoints 0%Z)) (V (uvPoints 0%Z)) ;;
  for_int 1 length (bezierSegment uvPoints length).

(** The reference fitter of the specification: no index wraps around; a
    neighbour that would fall outside [0 .. length-1] is clamped to the
    nearest end. *)
Definition clampIndex (length k : Z) : Z := Z.max 0 (Z.min (length - 1) k).

Definition bezierSegment_clamped (uvPoints : tUV_array) (length i : Z) : cairo :=
  let g := {| A := uvPoints (clampIndex length (i - 2));
              B := uvPoints (i - 1)%Z |} in
  let l := {| A := uvPoints i;
              B := uvPoints (clampIndex length (i + 1)) |} in
  let c := bezierControlPoints g l in
  let c1 := if (i =? 1)%Z then B g else fst c in
  let c2 := if (i =? length - 1)%Z then A l else snd c in
  cairo_curve_to (U c1) (V c1) (U c2) (V c2) (U (uvPoints i)) (V (uvPoints i)).

Definition bezierPath_clamped (uvPoints : tUV_array) (length : Z) : cairo :=
  cairo_move_to (U (uvPoints 0%Z)) (V (uvPoints 0%Z)) ;;
  for_int 1 length (bezierSegment_clamped uvPoints length).

(** ** The options and where they live *)

(** [GdkRGBA] *)
Record GdkRGBA : Type := mkRGBA { red : R; green : R; blue : R; alpha : R }.

(** The bit-field struct [flags] of [tSmithOptions]. *)
Record tSmithFlags : Type := mkFlags
  { bShowRX : bool; bShowGB : bool; bShowLabels : bool;
    bShowStrings : bool; bDrawRing : bool; bSparceGB : bool }.

(** [tSmithOptions]; a NULL [annotationFont] is [None]. *)
Record tSmithOptions : Type := mkOptions
  { flags : tSmithFlags;
    lineWidth : R;
    pointWidth : R;
    colorRXgrid : GdkRGBA; colorGBgrid : GdkRGBA;
    colorRXtext : GdkRGBA; colorGBtext : GdkRGBA;
    colorRing : GdkRGBA;
    colorLine : GdkRGBA; colorAnnotation : GdkRGBA;
    annotationFont : option string;
    annotationFontSize : Z;
    matrix : cairo_matrix_t }.

(** [static tSmithOptions defaultOptions = { ... }]: the initial content
    of the static.  The members without an initialiser are zero; the
    initialiser [0.4] of the [gint] member [annotationFontSize] converts
    to [0]. *)
Definition defaultOptions : tSmithOptions :=
  {| flags := {| bShowRX := true; bShowGB := false; bShowLabels := true;
                 bShowStrings := true; bDrawRing := true; bSparceGB := true |};
     lineWidth := 0.25;
     pointWidth := 0.6;
     colorRXgrid := mkRGBA 0.7 0.0 0.0 1.0;
     colorGBgrid := mkRGBA 0.0 0.5 0.5 1.0;
     colorRXtext := mkRGBA 0.5 0.0 0.0 1.0;
     colorGBtext := mkRGBA 0.0 0.5 0.5 1.0;
     colorRing := mkRGBA 0.0 0.0 0.0 1.0;
     colorLine := mkRGBA 0.0 0.0 0.5 1.0;
     colorAnnotation := mkRGBA 0.0 0.5 0.0 1.0;
     annotationFont := None;
     annotationFontSize := 0;
     matrix := mkMatrix 0 0 0 0 0 0 |}.

(** The objects a [tSmithOptions *] can point to: the static
    [defaultOptions], or an object of the caller. *)
Inductive loc : Type :=
| addr_defaultOptions
| addr_caller (a : nat).

(** [tSmithOptions *pOptions]; [NULL] is [None]. *)
Definition options_ptr : Type := option loc.

Definition NULL : options_ptr := None.

(** The content of every [tSmithOptions] object. *)
Definition memory : Type := loc -> tSmithOptions.

Definition loc_eqb (a b : loc) : bool :=
  match a, b with
  | addr_defaultOptions, addr_defaultOptions => true
  | addr_caller x, addr_caller y => Nat.eqb x y
  | _, _ => false
  end.

(** [if( pOptions == NULL ) pOptions = &defaultOptions;] *)
Definition orDefault (pOptions : options_ptr) : loc :=
  match pOptions with
  | None => addr_defaultOptions
  | Some p => p
  end.

Definition with_matrix (o : tSmithOptions) (m : cairo_matrix_t) : tSmithOptions :=
  {| flags := flags o; lineWidth := lineWidth o; pointWidth := pointWidth o;
     colorRXgrid := colorRXgrid o; colorGBgrid := colorGBgrid o;
     colorRXtext := colorRXtext o; colorGBtext := colorGBtext o;
     colorRing := colorRing o;
     colorLine := colorLine o; colorAnnotation := colorAnnotation o;
     annotationFont := annotationFont o;
     annotationFontSize := annotationFontSize o;
     matrix := m |}.

(** [cairo_get_matrix( cr, &pOptions->matrix )]: the one write through an
    options pointer in the program. *)
Definition cairo_get_matrix (cr : cairo_t) (pOptions : loc) (mem : memory) : memory :=
  fun p => if loc_eqb p pOptions then with_matrix (mem p) (ctm cr) else mem p.

Definition set_source (c : GdkRGBA) : cairo :=
  cairo_set_source_rgba (red c) (green c) (blue c) (alpha c).

Definition LABEL_FONT : string := "Nimbus Sans".

(** [static void setCairoFontSize( cairo_t *cr, gdouble fSize )] *)
Definition setCairoFontSize (fSize : R) : cairo :=
  cairo_set_font_matrix (mkMatrix fSize 0 0 (- fSize) 0 0).

(** [static void removeFontHinting( cairo_t *cr )] *)
Definition removeFontHinting : cairo := emit op_set_font_options_unhinted.

(** [cairo_text_extents_t] *)
Record cairo_text_extents_t : Type := mkExtents
  { x_bearing : R; y_bearing : R; width : R; height : R;
    x_advance : R; y_advance : R }.

(** ** Plotting on the chart: lines, curves, points *)

(** [void drawLineOnSmithChart( cairo_t *cr, tUV uvFrom, tUV uvTo, tSmithOptions *pOptions )] *)
Definition drawLineOnSmithChart (uvFrom uvTo : tUV) (pOptions : options_ptr)
           (cr : cairo_t) (mem : memory) : cairo_t * memory :=
  let pOptions := orDefault pOptions in
  (cairo_block
     (cairo_set_matrix (matrix (mem pOptions)) ;;
      cairo_set_line_width (SRpct (lineWidth (mem pOptions))) ;;
      set_source (colorLine (mem pOptions)) ;;
      cairo_new_path ;;
      cairo_move_to (U uvFrom) (V uvFrom) ;;
      cairo_line_to (U uvTo) (V uvTo) ;;
      cairo_stroke) cr, mem).

(** [void drawBezierCurveOnSmithChart(cairo_t *cr, const tUV uvPoints[], gint length, tSmithOptions *pOptions)] *)
Definition drawBezierCurveOnSmithChart (uvPoints : tUV_array) (length : Z)
           (pOptions : options_ptr) (cr : cairo_t) (mem : memory)
  : cairo_t * memory :=
  let pOptions := orDefault pOptions in
  (cairo_block
     (cairo_set_matrix (matrix (mem pOptions)) ;;
      cairo_set_line_width (SRpct (lineWidth (mem pOptions))) ;;
      set_source (colorLine (mem pOptions)) ;;
      cairo_new_path ;;
      bezierPath uvPoints length ;;
      cairo_stroke) cr, mem).

(** [void drawLineArrayOnSmithChart( cairo_t *cr, tUV uvPoints[], gint length, tSmithOptions *pOptions )] *)
Definition drawLineArrayOnSmithChart (uvPoints : tUV_array) (length : Z)
           (pOptions : options_ptr) (cr : cairo_t) (mem : memory)
  : cairo_t * memory :=
  let pOptions := orDefault pOptions in
  (cairo_block
     (cairo_set_matrix (matrix (mem pOptions)) ;;
      cairo_set_line_width (SRpct (lineWidth (mem pOptions))) ;;
      set_source (colorLine (mem pOptions)) ;;
      cairo_new_path ;;
      for_int 0 length
        (fun i => if (i =? 0)%Z
                  then cairo_move_to (U (uvPoints 0%Z)) (V (uvPoints 0%Z))
                  else cairo_line_to (U (uvPoints i)) (V (uvPoints i))) ;;
      cairo_stroke) cr, mem).

(** [void drawPointOnSmithChart( cairo_t *cr, tUV uvPoint, tSmithOptions *pOptions )] *)
Definition drawPointOnSmithChart (uvPoint : tUV) (pOptions : options_ptr)
           (cr : cairo_t) (mem : memory) : cairo_t * memory :=
  let pOptions := orDefault pOptions in
  (cairo_block
     (cairo_set_matrix (matrix (mem pOptions)) ;;
      cairo_set_line_width 0.0 ;;
      set_source (colorLine (mem pOptions)) ;;
      cairo_new_path ;;
      cairo_arc (U uvPoint) (V uvPoint) (SRpct (pointWidth (mem pOptions)))
                0 (2.0 * PI) ;;
      cairo_fill ;;
      cairo_stroke) cr, mem).

(** ** Text, rings and the chart

    Text is laid out from the metrics of the font backend and printed
    from numbers by the C library.  These are the collaborators of this
    section: [cairo_text_extents] is the cairo call, which answers for the
    font the context has selected; [g_strdup_printf_2f] is
    [g_strdup_printf( "%.2f", x )]. *)

Section Chart.

Variable cairo_text_extents : cairo_t -> string -> cairo_text_extents_t.
Variable g_strdup_printf_2f : R -> string.

(** [g_snprintf( sstr, SSTRLEN, "%d", n )] *)
Definition g_snprintf_d (n : Z) : string :=
  NilZero.string_of_int (Z.to_int n).

(** [cairo_text_extents (cr, sLabel, &extents);] followed by what uses
    [extents] *)
Definition with_text_extents (sLabel : string)
           (k : cairo_text_extents_t -> cairo) : cairo :=
  fun cr => k (cairo_text_extents cr sLabel) cr.

(** [static gdouble stringWidthCairoText(cairo_t *cr, gchar *sLabel)],
    handing its result to what uses it *)
Definition stringWidthCairoText (sLabel : string) (k : R -> cairo) : cairo :=
  with_text_extents sLabel (fun extents => k (x_advance extents)).

(** [static void leftJustifiedClearText(cairo_t *cr, gchar *sLabel, gdouble x, gdouble y)] *)
Definition leftJustifiedClearText (sLabel : string) (x y : R) : cairo :=
  with_text_extents sLabel (fun extents =>
    cairo_block
      (cairo_set_operator CAIRO_OPERATOR_CLEAR ;;
       cairo_new_path ;;
       cairo_rectangle x y (width extents + x_bearing extents)
                       (height extents + y_bearing extents) ;;
       cairo_stroke_preserve ;;
       cairo_fill) ;;
    cairo_move_to x y ;;
    cairo_show_text sLabel).

(** [static void rightJustifiedClearText(cairo_t *cr, gchar *sLabel, gdouble x, gdouble y)] *)
Definition rightJustifiedClearText (sLabel : string) (x y : R) : cairo :=
  with_text_extents sLabel (fun extents =>
    cairo_block
      (cairo_set_operator CAIRO_OPERATOR_CLEAR ;;
       cairo_new_path ;;
       cairo_rectangle (x - (width extents + x_bearing extents)) y
                       (width extents + x_bearing extents)
                       (height extents + y_bearing extents) ;;
       cairo_stroke_preserve ;;
       cairo_fill) ;;
    stringWidthCairoText sLabel (fun w => cairo_move_to (x - w) y) ;;
    cairo_show_text sLabel).

(** [static void centreJustifiedCairoText(cairo_t *cr, gchar *sLabel, gdouble x, gdouble y)] *)
Definition centreJustifiedCairoText (sLabel : string) (x y : R) : cairo :=
  stringWidthCairoText sLabel (fun w => cairo_move_to (x - w / 2.0) y) ;;
  cairo_show_text sLabel.

(** The loop over the characters of [circleCairoText]. *)
Fixpoint circleChars (radius : R) (s : string) : cairo :=
  match s with
  | EmptyString => skip
  | String thisChar rest =>
      (let sChar := String thisChar EmptyString in
       with_text_extents sChar (fun extents =>
         cairo_rotate (- (x_advance extents / 2.0) / radius) ;;
         cairo_move_to (- (x_advance extents / 2.0)) radius ;;
         cairo_show_text sChar ;;
         cairo_rotate (- (x_advance extents / 2.0) / radius))) ;;
      circleChars radius rest
  end.

(** [static void circleCairoText(cairo_t *cr, gchar *sLabel, gdouble radius, gdouble angle, gdouble centerX, gdouble centerY )] *)
Definition circleCairoText (sLabel : string) (radius angle centerX centerY : R)
  : cairo :=
  with_text_extents sLabel (fun extents =>
    let sweepAngle := x_advance extents / radius in
    cairo_block
      (cairo_new_path ;;
       cairo_set_line_width 0 ;;
       cairo_set_operator CAIRO_OPERATOR_CLEAR ;;
       cairo_translate centerX centerY ;;
       cairo_rotate (angle - sweepAngle / 2.0) ;;
       cairo_arc_negative centerX centerY (radius + y_bearing extents)
                          sweepAngle 0.0 ;;
       cairo_rel_line_to (height extents) 0.0 ;;
       cairo_arc centerX centerY (radius + height extents) 0.0 sweepAngle ;;
       cairo_close_path ;;
       cairo_stroke_preserve ;;
       cairo_fill ;;
       cairo_set_operator CAIRO_OPERATOR_OVER ;;
       cairo_rotate (sweepAngle - PI / 2) ;;
       circleChars radius sLabel)).

(** [for( gint index=...; labels[ index ].text != NULL; index++ )]: [ls] is
    the table from [labels[index]] on. *)
Fixpoint labelLoop (ls : list tLabel) (body : R -> string -> cairo) : cairo :=
  match ls with
  | [] => skip
  | l :: rest =>
      match text l with
      | None => skip
      | Some s => body (value l) s ;; labelLoop rest body
      end
  end.

(** [labels[ index ]], for an index inside the table *)
Definition labelAt (index : Z) : tLabel :=
  nth (Z.to_nat index) labels (mkLabel 0.0 None).

Definition labelText (l : tLabel) : string :=
  match text l with
  | Some s => s
  | None => EmptyString
  end.

(** [static void drawLabels( cairo_t *cr, tSmithOptions *pOptions )]
    (the body does not use [pOptions]) *)
Definition drawLabels : cairo :=
  let labelMargin := LABELFONTSIZE / 4.0 in
  cairo_select_font_face LABEL_FONT ;;
  setCairoFontSize LABELFONTSIZE ;;
  labelLoop (tl labels)
    (fun v s =>
       (let rx := {| Rr := 0.0; X := v |} in
        let uv := RXtoUV rx in
        let angle := atan2 (V uv) (U uv) in
        cairo_block
          (cairo_rotate angle ;;
           rightJustifiedClearText s (SMITH_RADIUS - labelMargin)
                                   (0.0 + labelMargin))) ;;
       (let rx := {| Rr := 0.0; X := - v |} in
        let uv := RXtoUV rx in
        let angle := atan2 (V uv) (U uv) + PI in
        cairo_block
          (cairo_rotate angle ;;
           leftJustifiedClearText s (- SMITH_RADIUS + labelMargin)
                                  (0.0 + labelMargin))) ;;
       (let rx := {| Rr := v; X := 0.0 |} in
        let uv := RXtoUV rx in
        cairo_block
          (cairo_rotate (PI / 2.0) ;;
           leftJustifiedClearText s labelMargin (- U uv + labelMargin)))) ;;
  for_upto 2 10 2
    (fun index =>
       let v := value (labelAt index) in
       let s := labelText (labelAt index) in
       (let rx := {| Rr := v; X := 1.0 |} in
        let uv := RXtoUV rx in
        cairo_block
          (cairo_translate (U uv * SMITH_RADIUS) (V uv * SMITH_RADIUS) ;;
           cairo_rotate (angleX rx + PI) ;;
           leftJustifiedClearText s labelMargin labelMargin)) ;;
       (let rx := {| Rr := v; X := - 1.0 |} in
        let uv := RXtoUV rx in
        cairo_block
          (cairo_translate (U uv * SMITH_RADIUS) (V uv * SMITH_RADIUS) ;;
           cairo_rotate (angleX rx) ;;
           rightJustifiedClearText s (- labelMargin) labelMargin)) ;;
       (let rx := {| Rr := 1.0; X := v |} in
        let uv := RXtoUV rx in
        cairo_block
          (cairo_translate (U uv * SMITH_RADIUS) (V uv * SMITH_RADIUS) ;;
           cairo_rotate (angleR rx) ;;
           rightJustifiedClearText s (- labelMargin) labelMargin)) ;;
       (let rx := {| Rr := 1.0; X := - v |} in
        let uv := RXtoUV rx in
        cairo_block
          (cairo_translate (U uv * SMITH_RADIUS) (V uv * SMITH_RADIUS) ;;
           cairo_rotate (angleR rx + PI) ;;
           leftJustifiedClearText s labelMargin labelMargin))).

(** [void drawCurvedArrow( cairo_t *cr, gdouble radius, gdouble startAngle, gdouble stopAngle )] *)
Definition drawCurvedArrow (radius startAngle stopAngle : R) : cairo :=
  let bCW := if Rlt_dec stopAngle startAngle then true else false in
  cairo_block
    (cairo_new_path ;;
     cairo_set_line_width (SRpct 0.2) ;;
     (if bCW
      then cairo_arc_negative 0 0 radius startAngle stopAngle
      else cairo_arc 0 0 radius startAngle stopAngle) ;;
     cairo_stroke ;;
     cairo_rotate stopAngle ;;
     cairo_set_line_width 0 ;;
     cairo_new_path ;;
     cairo_move_to radius 0 ;;
     cairo_rel_line_to (SRpct 0.7) (SRpct (if bCW then 2 else -2)) ;;
     cairo_rel_line_to (SRpct (-0.7)) (SRpct (if bCW then -0.8 else 0.8)) ;;
     cairo_rel_line_to (SRpct (-0.7)) (SRpct (if bCW then 0.8 else -0.8)) ;;
     cairo_close_path ;;
     cairo_fill).

(** [void drawWavelengthRing( cairo_t *cr, tSmithOptions *pOptions )]
    (the body does not use [pOptions]) *)
Definition drawWavelengthRing : cairo :=
  cairo_block
    (cairo_set_line_width STROKE_WIDTH_MINOR ;;
     cairo_select_font_face LABEL_FONT ;;
     setCairoFontSize LABELFONTSIZE ;;
     cairo_new_path ;;
     cairo_arc 0 0 WAVE_RING_RADIUS 0 (2.0 * PI) ;;
     cairo_stroke ;;
     (let lstep := PI / 125 in
      for_upto 1 250 1
        (fun ix =>
           cairo_block
             (cairo_rotate (IZR ix * lstep) ;;
              cairo_move_to (- (WAVE_RING_RADIUS + SRpct 0.8)) 0 ;;
              cairo_rel_line_to (SRpct 1.6) 0 ;;
              cairo_stroke) ;;
           (if ((Z.rem ix 5 =? 0) && (16 <? ix))%Z%bool then
              let sWaveNumber :=
                g_strdup_printf_2f
                  (if (ix =? 250)%Z then 0.0 else IZR ix / 500.0) in
              cairo_block
                (cairo_rotate (IZR ix * lstep) ;;
                 cairo_translate
                   (- (WAVE_RING_RADIUS - SRpct 1.25 - LABELFONTSIZE)) 0 ;;
                 cairo_rotate (PI / 2.0) ;;
                 centreJustifiedCairoText sWaveNumber 0.0 0.0) ;;
              cairo_block
                (cairo_rotate (IZR (- ix) * lstep) ;;
                 cairo_translate (- (WAVE_RING_RADIUS + SRpct 1.5)) 0 ;;
                 cairo_rotate (PI / 2.0) ;;
                 centreJustifiedCairoText sWaveNumber 0.0 0.0)
            else skip))) ;;
     circleCairoText "WAVELENGTHS TOWARD GENERATOR"
                     (WAVE_RING_RADIUS + SRpct 1.25) (DEGtoRAD 165.6) 0 0 ;;
     circleCairoText "WAVELENGTHS TOWARD LOAD"
                     (WAVE_RING_RADIUS - SRpct 3) (DEGtoRAD (-165.5)) 0 0 ;;
     drawCurvedArrow (WAVE_RING_RADIUS + SRpct 2.0)
                     (DEGtoRAD 178.2) (DEGtoRAD 174.9) ;;
     drawCurvedArrow (WAVE_RING_RADIUS + SRpct 2.0)
                     (DEGtoRAD 156.3) (DEGtoRAD 153.0) ;;
     drawCurvedArrow (WAVE_RING_RADIUS - SRpct 2.1)
                     (DEGtoRAD (-176.8)) (DEGtoRAD (-173.6)) ;;
     drawCurvedArrow (WAVE_RING_RADIUS - SRpct 2.1)
                     (DEGtoRAD (-157.5)) (DEGtoRAD (-154.2)) ;;
     cairo_new_path ;;
     cairo_set_line_width STROKE_WIDTH_MINOR ;;
     cairo_arc 0 0 OUTER_BOUNDARY_WITH_RING 0 (2.0 * PI) ;;
     cairo_stroke).

(** [void printNormalToRadial ( cairo_t *cr, gdouble radialAngle, gdouble radialDistance, gchar *sLabel )] *)
Definition printNormalToRadial (radialAngle radialDistance : R) (sLabel : string)
  : cairo :=
  cairo_block
    (cairo_rotate radialAngle ;;
     cairo_translate radialDistance 0.0 ;;
     cairo_rotate (- PI / 2.0) ;;
     centreJustifiedCairoText sLabel 0.0 0.0).

(** [void drawAngleRing( cairo_t *cr, tSmithOptions *pOptions )]
    (the body does not use [pOptions]) *)
Definition drawAngleRing : cairo :=
  cairo_block
    (cairo_set_line_width STROKE_WIDTH_MINOR ;;
     cairo_new_path ;;
     cairo_arc 0 0 ANGLE_RING_RADIUS 0 (2.0 * PI) ;;
     cairo_arc 0 0 (ANGLE_RING_RADIUS + SRpct 3.5) 0 (2.0 * PI) ;;
     cairo_stroke ;;
     cairo_block
       (for_upto 0 178 2
          (fun deg =>
             cairo_move_to (- ANGLE_RING_RADIUS) 0 ;;
             cairo_rel_line_to (SRpct (-1.5)) 0 ;;
             cairo_stroke ;;
             cairo_move_to ANGLE_RING_RADIUS 0 ;;
             cairo_rel_line_to (SRpct 1.5) 0 ;;
             cairo_stroke ;;
             cairo_rotate (DEGtoRAD 2))) ;;
     for_upto 20 170 10
       (fun deg =>
          printNormalToRadial (DEGtoRAD (IZR deg)) (ANGLE_RING_RADIUS + SRpct 1)
                              (g_snprintf_d deg) ;;
          printNormalToRadial (DEGtoRAD (IZR (- deg)))
                              (ANGLE_RING_RADIUS + SRpct 1)
                              (g_snprintf_d (- deg))) ;;
     printNormalToRadial (DEGtoRAD 180) (ANGLE_RING_RADIUS + SRpct 1) "±180" ;;
     cairo_block
       (cairo_translate (- SMITH_RADIUS) 0 ;;
        for_downto 90 1 (-1)
          (fun deg =>
             let TCradial :=
               findTCradial (IZR deg) SMITH_RADIUS ANGLE_RING_RADIUS in
             cairo_block
               (cairo_rotate (DEGtoRAD (IZR deg)) ;;
                cairo_move_to TCradial 0 ;;
                cairo_rel_line_to
                  (SRpct (if (deg <=? 55)%Z then -1.5 else -2.0)) 0 ;;
                cairo_stroke ;;
                (if ((10 <=? deg) && (Z.rem deg 5 =? 0))%Z%bool then
                   cairo_move_to (TCradial - SRpct 0.85) 0 ;;
                   stringWidthCairoText (g_snprintf_d deg) (fun w =>
                     cairo_rel_move_to
                       (- w - (LABELFONTSIZE * IZR deg / 90))
                       (- LABELFONTSIZE
                        * (if (deg <=? 45)%Z then 0.33 else IZR deg / 90.0))) ;;
                   cairo_show_text (g_snprintf_d deg)
                 else skip)) ;;
             cairo_block
               (cairo_rotate (PI - DEGtoRAD (IZR deg)) ;;
                cairo_move_to (- TCradial) 0 ;;
                cairo_rel_line_to
                  (SRpct (if (deg <=? 55)%Z then 1.5 else 2.0)) 0 ;;
                cairo_stroke ;;
                (if ((10 <=? deg) && (Z.rem deg 5 =? 0))%Z%bool then
                   cairo_move_to
                     (- TCradial
                      + LABELFONTSIZE / (if (deg <? 45)%Z then 3 else 2))
                     (- LABELFONTSIZE
                      * (if (deg <=? 45)%Z then 0.5 else IZR deg / 90.0)) ;;
                   cairo_show_text (g_snprintf_d (- deg))
                 else skip))))) ;;
  circleCairoText "ANGLE OF REFLECTION COEFFICIENT IN DEGREES"
                  (ANGLE_RING_RADIUS + SRpct 1) (DEGtoRAD 0) 0 0 ;;
  circleCairoText "ANGLE OF TRANSMISSION COEFFICIENT IN DEGREES"
                  (ANGLE_RING_RADIUS - SRpct 2.7) (DEGtoRAD 0) 0 0.

(** [void annotatePointOnSmithChart( cairo_t *cr, gchar *sLabel, tUV uv, gboolean bLeft, tSmithOptions *pOptions )] *)
Definition annotatePointOnSmithChart (sLabel : string) (uv : tUV) (bLeft : bool)
           (pOptions : options_ptr) (cr : cairo_t) (mem : memory)
  : cairo_t * memory :=
  let pOptions := orDefault pOptions in
  let fontSize :=
    if (annotationFontSize (mem pOptions) =? 0)%Z
    then 2 * LABELFONTSIZE
    else IZR (annotationFontSize (mem pOptions)) / 100.0 * SMITH_RADIUS in
  (cairo_block
     (cairo_set_matrix (matrix (mem pOptions)) ;;
      cairo_set_line_width 0.0 ;;
      set_source (colorAnnotation (mem pOptions)) ;;
      cairo_select_font_face
        (match annotationFont (mem pOptions) with
         | Some font => font
         | None => LABEL_FONT
         end) ;;
      setCairoFontSize fontSize ;;
      (if bLeft
       then leftJustifiedClearText sLabel (U uv + (fontSize * 0.5))
                                   (V uv - (fontSize * 0.3))
       else rightJustifiedClearText sLabel (U uv - (fontSize * 0.5))
                                    (V uv - (fontSize * 0.3)))) cr, mem).

(** [static void drawRXgrid( cairo_t *cr, tRegion areas[], tSmithOptions *pOptions )] *)
Definition drawRXgrid (fuel : nat) (areas : list tRegion) (areas_is_sparseGrid : bool)
           (o : tSmithOptions) : option cairo :=
  option_map
    (fun grid => cairo_block (set_source (colorRXgrid o) ;; grid))
    (drawImmittanceGrid fuel areas areas_is_sparseGrid).

(** [static void drawGBgrid( cairo_t *cr, tRegion areas[], tSmithOptions *pOptions )] *)
Definition drawGBgrid (fuel : nat) (areas : list tRegion) (areas_is_sparseGrid : bool)
           (o : tSmithOptions) : option cairo :=
  option_map
    (fun grid =>
       cairo_block (set_source (colorGBgrid o) ;; cairo_rotate PI ;; grid))
    (drawImmittanceGrid fuel areas areas_is_sparseGrid).

(** [static void drawRXgridText( cairo_t *cr, tRegion areas[], tSmithOptions *pOptions )] *)
Definition drawRXgridText (o : tSmithOptions) : cairo :=
  cairo_block
   (set_source (colorRXtext o) ;;
    cairo_set_line_width 0.0 ;;
    (if bShowLabels (flags o) then drawLabels else skip) ;;
    if bShowStrings (flags o) then
     let resistanceTextVpos := - (LABELFONTSIZE + SRpct 0.8) in
     let resistanceTextVpos :=
       if bShowGB (flags o)
       then resistanceTextVpos - (LABELFONTSIZE + SRpct 0.4)
       else resistanceTextVpos in
     circleCairoText "INDUCTIVE REACTANCE COMPONENT (+jX/Zo)"
                     (SRpct 94) (DEGtoRAD 141.7) 0 0 ;;
     circleCairoText "CAPACITIVE REACTANCE COMPONENT (-jX/Zo)"
                     (SRpct 94) (DEGtoRAD (-141.7)) 0 0 ;;
     leftJustifiedClearText "RESISTANCE COMPONENT (R/Zo)"
                            (SRpct (-32.5)) resistanceTextVpos
    else skip).

(** [static void drawGBgridText( cairo_t *cr, tRegion areas[], tSmithOptions *pOptions )] *)
Definition drawGBgridText (o : tSmithOptions) : cairo :=
  cairo_block
   (cairo_rotate PI ;;
    set_source (colorGBtext o) ;;
    cairo_set_line_width 0.0 ;;
    (if bShowLabels (flags o) then drawLabels else skip) ;;
    if bShowStrings (flags o) then
     let reactanceTextAngle := 141.7 in
     let coductanceTextVpos := SRpct 0.8 in
     cairo_rotate (- PI) ;;
     let reactanceTextAngle :=
       if bShowRX (flags o) then reactanceTextAngle - 27.0
       else reactanceTextAngle in
     let coductanceTextVpos :=
       if bShowRX (flags o)
       then coductanceTextVpos + (LABELFONTSIZE + SRpct 0.4)
       else coductanceTextVpos in
     circleCairoText "CAPACITIVE SUSCEPTANCE COMPONENT (+jX/Yo)"
                     (SRpct 94) (DEGtoRAD reactanceTextAngle) 0 0 ;;
     circleCairoText "INDUCTIVE SUSCEPTANCE COMPONENT (-jB/Yo)"
                     (SRpct 94) (DEGtoRAD (- reactanceTextAngle)) 0 0 ;;
     leftJustifiedClearText "CONDUCTANCE COMPONENT (G/Yo)"
                            (SRpct (-32.5)) (coductanceTextVpos + SRpct 0.8)
    else skip).

(** What [drawSmithChart] sends to the context between its [cairo_save]
    and the caching of the matrix, for the options [o] it was given. *)
Definition chartBody (fuel : nat) (centerX centerY radius : R)
           (o : tSmithOptions) : option cairo :=
  Some (removeFontHinting ;;
        cairo_translate centerX centerY ;;
        cairo_scale radius (- radius) ;;
        cairo_select_font_face LABEL_FONT ;;
        setCairoFontSize LABELFONTSIZE) ;;?
  (if bShowGB (flags o)
   then drawGBgrid fuel (if bSparceGB (flags o) then sparseGrid else stdGrid)
                   (bSparceGB (flags o)) o
   else Some skip) ;;?
  (if bShowRX (flags o) then drawRXgrid fuel stdGrid false o else Some skip) ;;?
  Some ((if bShowRX (flags o) then drawRXgridText o else skip) ;;
        (if bShowGB (flags o) then drawGBgridText o else skip) ;;
        (if bDrawRing (flags o) then
           set_source (colorRing o) ;;
           drawWavelengthRing ;;
           drawAngleRing
         else skip)).

(** [void drawSmithChart( cairo_t *cr, gdouble centerX, gdouble centerY, gdouble radius, tSmithOptions *pOptions )]
    [None] when [fuel] is too little for the sweeps of the grid. *)
Definition drawSmithChart (fuel : nat) (centerX centerY radius : R)
           (pOptions : options_ptr) (cr : cairo_t) (mem : memory)
  : option (cairo_t * memory) :=
  let pOptions := orDefault pOptions in
  let radius :=
    if bDrawRing (flags (mem pOptions))
    then radius / (OUTER_BOUNDARY_WITH_RING / SMITH_RADIUS)
    else radius in
  match chartBody fuel centerX centerY radius (mem pOptions) with
  | None => None
  | Some body =>
      let cr := (cairo_save ;; body) cr in
      let mem := cairo_get_matrix cr pOptions mem in
      Some (cairo_restore cr, mem)
  end.

End Chart.

(** ** exampleSmith.c: the objects of the example program *)

(** A context as [cairo_create] hands it over: the identity matrix, nothing
    saved, nothing drawn. *)
Definition fresh_context : cairo_t :=
  {| ctm := mkMatrix 1 0 0 1 0 0; saved := []; sink := [] |}.

(** The memory at program start: [defaultOptions] holds its initialiser;
    [callers] gives the content of the objects of the callers. *)
Definition initial_memory (callers : nat -> tSmithOptions) : memory :=
  fun p =>
    match p with
    | addr_defaultOptions => defaultOptions
    | addr_caller a => callers a
    end.

(** The array holding the points [l]; the cells around it hold [garbage]. *)
Definition array_of_list (garbage : tUV) (l : list tUV) : tUV_array :=
  fun i => if (i <? 0)%Z then garbage else nth (Z.to_nat i) l garbage.

(** [tSmithOptions optionsS11 = { ... }] of [CB_drawingArea_SmithS11] *)
Definition optionsS11 : tSmithOptions :=
  {| flags := {| bShowRX := true; bShowGB := false; bShowLabels := true;
                 bShowStrings := true; bDrawRing := true; bSparceGB := true |};
     lineWidth := 0.25;
     pointWidth := 0.6;
     colorRXgrid := mkRGBA 0.7 0.0 0.0 1.0;
     colorGBgrid := mkRGBA 0.0 0.5 0.5 1.0;
     colorRXtext := mkRGBA 0.5 0.0 0.0 1.0;
     colorGBtext := mkRGBA 0.0 0.5 0.5 1.0;
     colorRing := mkRGBA 0.0 0.0 0.0 1.0;
     colorLine := mkRGBA 0.0 0.0 0.5 1.0;
     colorAnnotation := mkRGBA 0.0 0.5 0.0 1.0;
     annotationFont := None;
     annotationFontSize := 0;
     matrix := mkMatrix 0 0 0 0 0 0 |}.

(** [tUV exampleCurve[] = { ... }] *)
Definition exampleCurve : tUV_array :=
  array_of_list (mkUV 0 0)
    [ mkUV (-0.3000) 0.4000; mkUV (-0.2273) 0.4479; mkUV (-0.1545) 0.4826;
      mkUV (-0.0818) 0.5041; mkUV (-0.0091) 0.5124; mkUV 0.0636 0.5074;
      mkUV 0.1364 0.4893; mkUV 0.2091 0.4579; mkUV 0.2818 0.4132;
      mkUV 0.3545 0.3554; mkUV 0.4273 0.2843; mkUV 0.5000 0.2000 ].

(** A local [tSmithOptions] object comes to life holding its
    initialiser. *)
Definition initialise (p : loc) (o : tSmithOptions) (mem : memory) : memory :=
  fun q => if loc_eqb q p then o else mem q.

Definition SIZE_PCT : Z := 98.

(** [static void CB_drawingArea_SmithS11 (GtkDrawingArea *wDrawingArea, cairo_t *cr, gint width, gint height, gpointer user_data)]
    as the example program is built: [EXAMPLE] and
    [USE_BEZIER_INTERPOLATION] defined, [EXAMPLE_DRAW_LINE] not.  The local
    [optionsS11] lives at [addr_caller a]. *)
Definition CB_drawingArea_SmithS11
           (cairo_text_extents : cairo_t -> string -> cairo_text_extents_t)
           (g_strdup_printf_2f : R -> string)
           (fuel : nat) (a : nat) (width height : Z)
           (cr : cairo_t) (mem : memory) : option (cairo_t * memory) :=
  let mem := initialise (addr_caller a) optionsS11 mem in
  let pOptions := Some (addr_caller a) in
  let smithRadius := IZR (Z.min height width) / 2.0 * (IZR SIZE_PCT / 100.0) in
  let centerX := IZR width / 2.0 in
  let centerY := IZR height / 2.0 in
  match drawSmithChart cairo_text_extents g_strdup_printf_2f
                       fuel centerX centerY smithRadius pOptions cr mem with
  | None => None
  | Some (cr, mem) =>
      let (cr, mem) := drawBezierCurveOnSmithChart exampleCurve 12 pOptions cr mem in
      let (cr, mem) :=
        drawPointOnSmithChart (RXtoUV {| Rr := 0.9; X := 1.1 |}) pOptions cr mem in
      Some (annotatePointOnSmithChart cairo_text_extents "70.25 MHz"
              (RXtoUV {| Rr := 0.9; X := 1.1 |}) true pOptions cr mem)
  end.

(** ** Vocabulary of the properties *)

(** [o'] holds what [o] holds, the cached matrix apart. *)
Definition same_settings (o o' : tSmithOptions) : Prop :=
  flags o' = flags o /\
  lineWidth o' = lineWidth o /\
  pointWidth o' = pointWidth o /\
  colorRXgrid o' = colorRXgrid o /\
  colorGBgrid o' = colorGBgrid o /\
  colorRXtext o' = colorRXtext o /\
  colorGBtext o' = colorGBtext o /\
  colorRing o' = colorRing o /\
  colorLine o' = colorLine o /\
  colorAnnotation o' = colorAnnotation o /\
  annotationFont o' = annotationFont o /\
  annotationFontSize o' = annotationFontSize o.

(** The routine only adds calls to the sink. *)
Definition extends_sink (f : cairo) : Prop :=
  forall cr : cairo_t, exists ops : list cairo_op, sink (f cr) = sink cr ++ ops.

(** The routine leaves the stack of saved matrices as it found it. *)
Definition keeps_stack (f : cairo) : Prop :=
  forall cr : cairo_t, saved (f cr) = saved cr.

(** The routine leaves the matrix and the stack as it found them. *)
Definition balanced (f : cairo) : Prop :=
  forall cr : cairo_t, ctm (f cr) = ctm cr /\ saved (f cr) = saved cr.

(** The routine draws between a [cairo_save] followed by
    [cairo_set_matrix] of [m] and the matching [cairo_restore], and hands
    the context back with the matrix and the stack it was given. *)
Definition plots_under (m : cairo_matrix_t) (f : cairo) : Prop :=
  forall cr : cairo_t,
    ctm (f cr) = ctm cr /\
    saved (f cr) = saved cr /\
    exists ops : list cairo_op,
      sink (f cr) = sink cr ++ op_save :: op_set_matrix m :: ops ++ [op_restore].

(** The routine returns once it is given enough fuel. *)
Definition returns (k : nat -> option cairo) : Prop :=
  exists n : nat, forall fuel : nat, (n <= fuel)%nat ->
    exists c : cairo, k fuel = Some c.

(** A region table the loop of [drawImmittanceGrid] gets through: it
    reaches an [END] entry, and every entry before it is either the
    special case or has a positive minor increment and a successor. *)
Fixpoint END_terminated (zs : list tRegion) : Prop :=
  match zs with
  | [] => False
  | z :: rest =>
      minorPerMajorDiv z = END \/
      ((minorPerMajorDiv z = SPECIAL_CASE \/ (0 < minorDiv z /\ rest <> []))
       /\ END_terminated rest)
  end.

(** The cells [0 .. n-1] of an array, in order. *)
Definition cells (uvPoints : tUV_array) (n : nat) : list tUV :=
  map (fun k => uvPoints (Z.of_nat k)) (seq 0 n).

(** Where the matrix [m] puts the point [p]. *)
Definition transform_point (m : cairo_matrix_t) (p : tUV) : tUV :=
  {| U := xx m * U p + xy m * V p + x0 m;
     V := yx m * U p + yy m * V p + y0 m |}.

(** The text a sequence of calls shows: the strings of its
    [cairo_show_text] calls, one after the other. *)
Fixpoint shownText (ops : list cairo_op) : string :=
  match ops with
  | [] => EmptyString
  | op_show_text s :: rest => (s ++ shownText rest)%string
  | _ :: rest => shownText rest
  end.

(** ** The same transform on IEEE binary64 *)

Module Binary64.

Local Open Scope float_scope.

Record tUV : Type := mkUV { U : float; V : float }.
Record tRX : Type := mkRX { Rr : float; X : float }.

Definition SQU (x : float) : float := x * x.

(** The local [Zplus1_magSqu] of [RXtoUV], as [RXtoUV] computes it. *)
Definition Zplus1_magSqu (rx : tRX) : float :=
  SQU (Rr rx) + SQU (X rx) + (Rr rx * 2.0) + 1.0.

Definition RXtoUV (rx : tRX) : tUV :=
  let Zplus1_magSqu := SQU (Rr rx) + SQU (X rx) + (Rr rx * 2.0) + 1.0 in
  {| U := (SQU (Rr rx) + SQU (X rx) - 1.0) / Zplus1_magSqu;
     V := X rx * 2.0 / Zplus1_magSqu |}.




End Binary64.


(** * Properties *)

(** Decimal constants of the source, as quotients of integers. *)
Ltac unlit :=
  unfold Q2R in *; cbn [QArith_base.Qnum QArith_base.Qden] in *.

(** ** The coordinate transform *)

Lemma Zplus1_magSqu_square (rx : tRX) :
  Zplus1_magSqu rx = (Rr rx + 1) * (Rr rx + 1) + X rx * X rx.
Proof. unfold Zplus1_magSqu, SQU. lra. Qed.

Lemma Zplus1_magSqu_zero (rx : tRX) :
  Zplus1_magSqu rx = 0 <-> Rr rx = -1 /\ X rx = 0.
Proof.
  rewrite Zplus1_magSqu_square. split.
  - intros H.
    destruct (Rplus_sqr_eq_0 (Rr rx + 1) (X rx)) as [H1 H2].
    + unfold Rsqr. exact H.
    + split; lra.
  - intros [-> ->]. lra.
Qed.

Lemma Zplus1_magSqu_pos (rx : tRX) : -1 < Rr rx -> 0 < Zplus1_magSqu rx.
Proof.
  intros H. rewrite Zplus1_magSqu_square.
  assert (0 < (Rr rx + 1) * (Rr rx + 1)) by (apply Rmult_lt_0_compat; lra).
  pose proof (Rle_0_sqr (X rx)). unfold Rsqr in *. lra.
Qed.

(** The transform is the reflection coefficient: Gamma * (Z + 1) = Z - 1,
    real and imaginary part. *)
Lemma RXtoUV_is_gamma (rx : tRX) :
  Zplus1_magSqu rx <> 0 ->
  U (RXtoUV rx) * (Rr rx + 1) - V (RXtoUV rx) * X rx = Rr rx - 1 /\
  U (RXtoUV rx) * X rx + V (RXtoUV rx) * (Rr rx + 1) = X rx.
Proof.
  intros HD. unfold RXtoUV; cbn [U V].
  unfold Zplus1_magSqu, SQU in *. unlit.
  split; field; intros Hc; apply HD; lra.
Qed.

(** *** The transform as the program computes it

    The properties above are those of the exact values.  The program
    computes on binary64, every operation rounded, and there a sum can
    round to zero or overflow. *)

Lemma is_zero_spec (y : float) :
  PrimFloat.is_zero y = true -> exists s : bool, Prim2SF y = S754_zero s.
Proof.
  unfold PrimFloat.is_zero. rewrite FloatAxioms.eqb_spec.
  change (Prim2SF PrimFloat.zero) with (S754_zero false).
  destruct (Prim2SF y) as [s | s | | s m e]; cbn.
  - intros _. exists s. reflexivity.
  - destruct s; discriminate.
  - discriminate.
  - destruct s; discriminate.
Qed.

Lemma not_finite_spec (z : float) :
  Prim2SF z = S754_nan \/ (exists s : bool, Prim2SF z = S754_infinity s) ->
  PrimFloat.is_finite z = false.
Proof.
  unfold PrimFloat.is_finite, PrimFloat.is_nan, PrimFloat.is_infinity.
  rewrite !FloatAxioms.eqb_spec, FloatAxioms.abs_spec.
  change (Prim2SF PrimFloat.infinity) with (S754_infinity false).
  intros [E | [s E]]; rewrite E; [reflexivity | destruct s; reflexivity].
Qed.

(** A quotient by a zero is an infinity or a NaN, whatever is divided. *)
Lemma div_by_zero_not_finite (x y : float) :
  PrimFloat.is_zero y = true -> PrimFloat.is_finite (x / y) = false.
Proof.
  intros Hy. destruct (is_zero_spec y Hy) as [s Es].
  apply not_finite_spec. rewrite FloatAxioms.div_spec, Es.
  destruct (Prim2SF x) as [sx | sx | | sx mx ex]; cbn.
  - left. reflexivity.
  - right. eexists. reflexivity.
  - left. reflexivity.
  - right. eexists. reflexivity.
Qed.

(** On binary64 the samples come out the same, exactly. *)
Lemma RXtoUV_binary64_samples :
  Binary64.RXtoUV (Binary64.mkRX 1 0) = Binary64.mkUV 0 0 /\
  Binary64.RXtoUV (Binary64.mkRX 0 0) = Binary64.mkUV (-1) 0 /\
  Binary64.RXtoUV (Binary64.mkRX (-0.5) 0) = Binary64.mkUV (-3) 0.
Proof. vm_compute. repeat split. Qed.

(** C1, as stated, fails of the program: the result is undefined at
    inputs other than R = -1, X = 0.  On binary64, at R = -0.999999999
    (the double nearest to it) and at the double next to -1, X = 0, the
    computed D is exactly zero and the result is (-infinity, NaN); and at
    R = 1e200, X = 0 the computed D is not zero (it is +infinity) and U is
    a NaN. *)
Lemma RXtoUV_formula_counterexample :
  ((-0x1.fffffff768fa1p-1) =? -1)%float = false /\
  PrimFloat.is_zero
    (Binary64.Zplus1_magSqu (Binary64.mkRX (-0x1.fffffff768fa1p-1) 0)) = true /\
  Binary64.U (Binary64.RXtoUV (Binary64.mkRX (-0x1.fffffff768fa1p-1) 0))
  = PrimFloat.neg_infinity /\
  PrimFloat.is_nan
    (Binary64.V (Binary64.RXtoUV (Binary64.mkRX (-0x1.fffffff768fa1p-1) 0)))
  = true /\
  ((-0x1.fffffffffffffp-1) =? -1)%float = false /\
  Binary64.U (Binary64.RXtoUV (Binary64.mkRX (-0x1.fffffffffffffp-1) 0))
  = PrimFloat.neg_infinity /\
  PrimFloat.is_nan
    (Binary64.V (Binary64.RXtoUV (Binary64.mkRX (-0x1.fffffffffffffp-1) 0)))
  = true /\
  PrimFloat.is_finite 0x1.4e718d7d7625ap+664 = true /\
  PrimFloat.is_zero
    (Binary64.Zplus1_magSqu (Binary64.mkRX 0x1.4e718d7d7625ap+664 0)) = false /\
  PrimFloat.is_nan
    (Binary64.U (Binary64.RXtoUV (Binary64.mkRX 0x1.4e718d7d7625ap+664 0)))
  = true.
Proof. vm_compute. repeat split. Qed.

(** C1 (amended): in exact arithmetic, for every impedance (R, X) with
    D = R^2 + X^2 + 2R + 1 <> 0, [RXtoUV] returns U = (R^2 + X^2 - 1)/D and
    V = 2X/D, and the exact D vanishes only at R = -1, X = 0.  The matched
    load (1, 0) goes to the centre (0, 0) and the short circuit (0, 0) to
    the left pole (-1, 0), in exact arithmetic and bit for bit on binary64.
    On binary64 the same quotients are taken of rounded sums, and whenever
    the computed D is zero - at R = -1, X = 0, and not only there - neither
    U nor V is finite. *)
Theorem RXtoUV_formula :
  (forall (rx : tRX) (D : R),
      D = Rr rx * Rr rx + X rx * X rx + 2 * Rr rx + 1 ->
      D <> 0 ->
      U (RXtoUV rx) = (Rr rx * Rr rx + X rx * X rx - 1) / D /\
      V (RXtoUV rx) = 2 * X rx / D) /\
  (forall rx : tRX, Zplus1_magSqu rx = 0 <-> Rr rx = -1 /\ X rx = 0) /\
  RXtoUV {| Rr := 1; X := 0 |} = {| U := 0; V := 0 |} /\
  RXtoUV {| Rr := 0; X := 0 |} = {| U := -1; V := 0 |} /\
  Binary64.RXtoUV (Binary64.mkRX 1 0) = Binary64.mkUV 0 0 /\
  Binary64.RXtoUV (Binary64.mkRX 0 0) = Binary64.mkUV (-1) 0 /\
  (forall rx : Binary64.tRX,
      Binary64.RXtoUV rx
      = Binary64.mkUV
          ((Binary64.SQU (Binary64.Rr rx) + Binary64.SQU (Binary64.X rx) - 1.0)
           / Binary64.Zplus1_magSqu rx)
          (Binary64.X rx * 2.0 / Binary64.Zplus1_magSqu rx))%float /\
  (forall rx : Binary64.tRX,
      PrimFloat.is_zero (Binary64.Zplus1_magSqu rx) = true ->
      PrimFloat.is_finite (Binary64.U (Binary64.RXtoUV rx)) = false /\
      PrimFloat.is_finite (Binary64.V (Binary64.RXtoUV rx)) = false) /\
  PrimFloat.is_zero (Binary64.Zplus1_magSqu (Binary64.mkRX (-1) 0)) = true.
Proof.
  split; [| split; [| split; [| split; [| split; [| split; [| split; [| split]]]]]]].
  - intros rx D HD Hnz. subst D.
    unfold RXtoUV, Zplus1_magSqu, SQU; cbn [U V].
    assert (E : Rr rx * Rr rx + X rx * X rx + Rr rx * 2.0 + 1.0
                = Rr rx * Rr rx + X rx * X rx + 2 * Rr rx + 1) by lra.
    rewrite E. split; [f_equal; lra | unlit; field; exact Hnz].
  - exact Zplus1_magSqu_zero.
  - unfold RXtoUV, Zplus1_magSqu, SQU; cbn [Rr X]. f_equal; lra.
  - unfold RXtoUV, Zplus1_magSqu, SQU; cbn [Rr X]. f_equal; lra.
  - apply RXtoUV_binary64_samples.
  - apply RXtoUV_binary64_samples.
  - intros rx. reflexivity.
  - intros rx HD.
    change (Binary64.U (Binary64.RXtoUV rx))
      with ((Binary64.SQU (Binary64.Rr rx) + Binary64.SQU (Binary64.X rx) - 1.0)
            / Binary64.Zplus1_magSqu rx)%float.
    change (Binary64.V (Binary64.RXtoUV rx))
      with (Binary64.X rx * 2.0 / Binary64.Zplus1_magSqu rx)%float.
    split; apply div_by_zero_not_finite; exact HD.
  - vm_compute. reflexivity.
Qed.

Lemma RXtoUV_formula_witness :
  (U (RXtoUV {| Rr := 1; X := 2 |}) = (1 * 1 + 2 * 2 - 1) / 8 /\
   V (RXtoUV {| Rr := 1; X := 2 |}) = 2 * 2 / 8) /\
  PrimFloat.is_finite
    (Binary64.U (Binary64.RXtoUV (Binary64.mkRX (-0x1.fffffffffffffp-1) 0)))
  = false.
Proof.
  split.
  - apply (proj1 RXtoUV_formula {| Rr := 1; X := 2 |} 8); simpl; lra.
  - apply (proj1 (proj2 (proj2 (proj2 (proj2 (proj2 (proj2 (proj2 RXtoUV_formula)))))))
             (Binary64.mkRX (-0x1.fffffffffffffp-1) 0)).
    vm_compute. reflexivity.
Defined.

(** The squared magnitude of the reflection coefficient falls short of 1
    by 4R/D. *)
Lemma RXtoUV_magSqu (rx : tRX) :
  Zplus1_magSqu rx <> 0 ->
  SQU (U (RXtoUV rx)) + SQU (V (RXtoUV rx)) = 1 - 4 * Rr rx / Zplus1_magSqu rx.
Proof.
  intros HD. unfold RXtoUV; cbn [U V].
  unfold Zplus1_magSqu, SQU in *. unlit. field. intros Hc; apply HD; lra.
Qed.




(** ** <math.h>: [atan2] is the polar angle *)

Lemma sqrt_of_square (a b : R) : 0 <= b -> a = b * b -> sqrt a = b.
Proof. intros Hb ->. apply sqrt_square. exact Hb. Qed.

Lemma cos_minus_PI (t : R) : cos (t - PI) = - cos t.
Proof. rewrite cos_minus, cos_PI, sin_PI. ring. Qed.

Lemma sin_minus_PI (t : R) : sin (t - PI) = - sin t.
Proof. rewrite sin_minus, cos_PI, sin_PI. ring. Qed.

(** The norm of (1, y/x), for a point (x, y) at distance rho. *)
Lemma sqrt_slope (x y rho : R) :
  0 < rho -> x <> 0 -> x * x + y * y = rho * rho ->
  sqrt (1 + (y / x)²) = rho / Rabs x.
Proof.
  intros Hrho Hx Hxy.
  assert (Habs : 0 < Rabs x) by (apply Rabs_pos_lt; exact Hx).
  apply sqrt_of_square.
  - apply Rmult_le_pos; [lra | left; apply Rinv_0_lt_compat; exact Habs].
  - assert (Hsq : Rabs x * Rabs x = x * x).
    { unfold Rabs. destruct (Rcase_abs x); ring. }
    unfold Rsqr.
    assert (E : rho / Rabs x * (rho / Rabs x) = rho * rho / (Rabs x * Rabs x))
      by (field; lra).
    rewrite E, Hsq, <- Hxy. field. exact Hx.
Qed.

Lemma atan2_polar (x y rho : R) :
  0 < rho -> x * x + y * y = rho * rho ->
  rho * cos (atan2 y x) = x /\ rho * sin (atan2 y x) = y.
Proof.
  intros Hrho Hxy. unfold atan2.
  destruct (Rlt_dec 0 x) as [Hpos | Hnpos].
  - rewrite cos_atan, sin_atan, (sqrt_slope x y rho) by lra.
    rewrite Rabs_right by lra. split; field; lra.
  - destruct (Rlt_dec x 0) as [Hneg | Hnneg].
    + assert (Hs : sqrt (1 + (y / x)²) = rho / Rabs x)
        by (apply sqrt_slope; lra).
      rewrite Rabs_left in Hs by lra.
      destruct (Rle_dec 0 y).
      * rewrite neg_cos, neg_sin, cos_atan, sin_atan, Hs. split; field; lra.
      * rewrite cos_minus_PI, sin_minus_PI, cos_atan, sin_atan, Hs.
        split; field; lra.
    + assert (Hx0 : x = 0) by lra. subst x.
      assert (Hy : y * y = rho * rho) by lra.
      destruct (Rlt_dec 0 y) as [Hy1 | Hy1].
      * rewrite cos_PI2, sin_PI2. split; [ring | nra].
      * destruct (Rlt_dec y 0) as [Hy2 | Hy2].
        -- rewrite cos_neg, sin_neg, cos_PI2, sin_PI2. split; [ring | nra].
        -- assert (y = 0) by lra. subst y. nra.
Qed.

(** ** The arcs pass through the transformed points *)

Lemma lit_1_0 : 1.0 = 1.
Proof. lra. Qed.

Lemma lit_0_0 : 0.0 = 0.
Proof. lra. Qed.

Lemma lit_2_0 : 2.0 = 2.
Proof. lra. Qed.

Lemma Rcircle_distance (rArc x : R) :
  -1 < rArc ->
  SQU (U (RXtoUV {| Rr := rArc; X := x |}) - rArc / (rArc + 1))
  + SQU (V (RXtoUV {| Rr := rArc; X := x |}))
  = 1 / (rArc + 1) * (1 / (rArc + 1)).
Proof.
  intros Hr.
  pose proof (Zplus1_magSqu_pos {| Rr := rArc; X := x |} Hr) as HD.
  unfold RXtoUV; cbn [U V Rr X] in *.
  unfold Zplus1_magSqu, SQU in *; cbn [Rr X] in *. unlit.
  field. split; [lra | intros Hc; lra].
Qed.

Lemma Xcircle_distance (xArc r : R) :
  xArc <> 0 -> Zplus1_magSqu {| Rr := r; X := xArc |} <> 0 ->
  SQU (U (RXtoUV {| Rr := r; X := xArc |}) - 1)
  + SQU (V (RXtoUV {| Rr := r; X := xArc |}) - 1 / xArc)
  = Rabs (1 / xArc) * Rabs (1 / xArc).
Proof.
  intros Hx HD.
  assert (E : Rabs (1 / xArc) * Rabs (1 / xArc) = 1 / xArc * (1 / xArc)).
  { unfold Rabs. destruct (Rcase_abs (1 / xArc)); ring. }
  rewrite E.
  unfold RXtoUV; cbn [U V Rr X] in *.
  unfold Zplus1_magSqu, SQU in *; cbn [Rr X] in *. unlit.
  field. split; [exact Hx | intros Hc; apply HD; lra].
Qed.

(** C3: for rArc > -1 and any reactance x the transformed point of
    (rArc, x) is at distance 1/(rArc+1) from (rArc/(rArc+1), 0), the circle
    of [drawRarc]; [angleR] is the [atan2] of the transformed point seen
    from that centre, and the arc [drawRarc] emits starts on the
    transformed point.  For xArc <> 0 and any resistance r with D <> 0 the
    transformed point of (r, xArc) is at distance |1/xArc| from
    (1, 1/xArc), the circle of [drawXarc]; [angleX] is the [atan2] seen
    from that centre, and the arc [drawXarc] emits starts on the
    transformed point.  (The arcs end on the transformed point of their
    other bound the same way: it is the start of the arc drawn from it.) *)
Theorem arcs_through_transformed_points (rArc x xArc r : R) :
  -1 < rArc ->
  xArc <> 0 ->
  Zplus1_magSqu {| Rr := r; X := xArc |} <> 0 ->
  (sqrt (SQU (U (RXtoUV {| Rr := rArc; X := x |}) - rArc / (rArc + 1))
         + SQU (V (RXtoUV {| Rr := rArc; X := x |}) - 0))
   = 1 / (rArc + 1) /\
   angleR {| Rr := rArc; X := x |}
   = atan2 (V (RXtoUV {| Rr := rArc; X := x |}) - 0)
           (U (RXtoUV {| Rr := rArc; X := x |}) - rArc / (rArc + 1)) /\
   arc_point (rArc / (rArc + 1)) 0 (1 / (rArc + 1))
             (angleR {| Rr := rArc; X := x |})
   = RXtoUV {| Rr := rArc; X := x |} /\
   forall (xTo : R) (cr : cairo_t),
     sink (drawRarc rArc x xTo cr)
     = sink cr ++ [op_arc (rArc / (rArc + 1)) 0 (1 / (rArc + 1))
                          (angleR {| Rr := rArc; X := x |})
                          (angleR {| Rr := rArc; X := xTo |});
                   op_stroke]) /\
  (sqrt (SQU (U (RXtoUV {| Rr := r; X := xArc |}) - 1)
         + SQU (V (RXtoUV {| Rr := r; X := xArc |}) - 1 / xArc))
   = Rabs (1 / xArc) /\
   angleX {| Rr := r; X := xArc |}
   = atan2 (V (RXtoUV {| Rr := r; X := xArc |}) - 1 / xArc)
           (U (RXtoUV {| Rr := r; X := xArc |}) - 1) /\
   arc_point 1 (1 / xArc) (Rabs (1 / xArc)) (angleX {| Rr := r; X := xArc |})
   = RXtoUV {| Rr := r; X := xArc |} /\
   forall (rTo : R) (cr : cairo_t),
     sink (drawXarc xArc r rTo cr)
     = sink cr ++ [op_arc 1 (1 / xArc) (Rabs (1 / xArc))
                          (angleX {| Rr := r; X := xArc |})
                          (angleX {| Rr := rTo; X := xArc |});
                   op_stroke]).
Proof.
  intros Hr Hx HD.
  pose proof (Rcircle_distance rArc x Hr) as HdR.
  pose proof (Xcircle_distance xArc r Hx HD) as HdX.
  assert (HradR : 0 < 1 / (rArc + 1)).
  { apply Rmult_lt_0_compat; [lra | apply Rinv_0_lt_compat; lra]. }
  assert (HradX : 0 < Rabs (1 / xArc)).
  { apply Rabs_pos_lt. unfold Rdiv. rewrite Rmult_1_l.
    apply Rinv_neq_0_compat. exact Hx. }
  split.
  - rewrite Rminus_0_r.
    assert (EangR : angleR {| Rr := rArc; X := x |}
                    = atan2 (V (RXtoUV {| Rr := rArc; X := x |}))
                            (U (RXtoUV {| Rr := rArc; X := x |})
                             - rArc / (rArc + 1))).
    { unfold angleR; cbn [Rr X]. f_equal. f_equal. f_equal. lra. }
    split; [| split; [| split]].
    + apply sqrt_of_square; [lra | exact HdR].
    + exact EangR.
    + rewrite EangR. unfold arc_point.
      destruct (atan2_polar
                  (U (RXtoUV {| Rr := rArc; X := x |}) - rArc / (rArc + 1))
                  (V (RXtoUV {| Rr := rArc; X := x |}))
                  (1 / (rArc + 1)) HradR) as [Hc Hs].
      { unfold SQU in HdR. exact HdR. }
      rewrite Hc, Hs.
      destruct (RXtoUV {| Rr := rArc; X := x |}) as [u v]; cbn [U V].
      f_equal; ring.
    + intros xTo cr.
      unfold drawRarc, drawArc, andthen, cairo_arc, cairo_stroke, emit;
        cbn [sink U V Rr X].
      rewrite <- app_assoc. cbn [app]. unfold SMITH_RADIUS.
      rewrite ?lit_1_0, ?lit_0_0, ?Rmult_1_r, ?Rmult_0_l. reflexivity.
  - split; [| split; [| split]].
    + apply sqrt_of_square; [lra | exact HdX].
    + unfold angleX; cbn [Rr X]. f_equal; f_equal; lra.
    + assert (EangX : angleX {| Rr := r; X := xArc |}
                      = atan2 (V (RXtoUV {| Rr := r; X := xArc |}) - 1 / xArc)
                              (U (RXtoUV {| Rr := r; X := xArc |}) - 1)).
      { unfold angleX; cbn [Rr X]. f_equal; f_equal; lra. }
      rewrite EangX. unfold arc_point.
      destruct (atan2_polar
                  (U (RXtoUV {| Rr := r; X := xArc |}) - 1)
                  (V (RXtoUV {| Rr := r; X := xArc |}) - 1 / xArc)
                  (Rabs (1 / xArc)) HradX) as [Hc Hs].
      { unfold SQU in HdX. exact HdX. }
      rewrite Hc, Hs.
      destruct (RXtoUV {| Rr := r; X := xArc |}) as [u v]; cbn [U V].
      f_equal; ring.
    + intros rTo cr.
      unfold drawXarc, drawArc, andthen, cairo_arc, cairo_stroke, emit, fabs;
        cbn [sink U V Rr X].
      rewrite <- app_assoc. cbn [app]. unfold SMITH_RADIUS.
      rewrite ?lit_1_0, ?lit_0_0, ?Rmult_1_r, ?Rmult_0_l. reflexivity.
Qed.

Lemma arcs_through_transformed_points_witness :
  arc_point (1 / (1 + 1)) 0 (1 / (1 + 1)) (angleR {| Rr := 1; X := 2 |})
  = RXtoUV {| Rr := 1; X := 2 |} /\
  arc_point 1 (1 / 3) (Rabs (1 / 3)) (angleX {| Rr := 4; X := 3 |})
  = RXtoUV {| Rr := 4; X := 3 |}.
Proof.
  destruct (arcs_through_transformed_points 1 2 3 4) as [HR HX].
  - lra.
  - lra.
  - unfold Zplus1_magSqu, SQU; simpl; lra.
  - split; [apply HR | apply HX].
Defined.

(** ** The non-linear scale of the angle ring *)

Lemma atan2_x_one (y : R) : atan2 y 1.0 = atan y.
Proof.
  unfold atan2. destruct (Rlt_dec 0 1.0) as [_ | H]; [| lra].
  f_equal. unlit. field.
Qed.

Lemma findTCradial_asin (angleDegrees unitRadius coeffRadiuus : R) :
  -1 < sin (DEGtoRAD angleDegrees) * unitRadius / coeffRadiuus < 1 ->
  findTCradial angleDegrees unitRadius coeffRadiuus
  = sin (PI - DEGtoRAD angleDegrees
         - asin (sin (DEGtoRAD angleDegrees) * unitRadius / coeffRadiuus))
    * coeffRadiuus / sin (DEGtoRAD angleDegrees).
Proof.
  intros Hs. unfold findTCradial.
  rewrite atan2_x_one, (asin_atan _ Hs).
  unfold Rsqr. rewrite lit_1_0. reflexivity.
Qed.

Lemma DEGtoRAD_90 : DEGtoRAD 90 = PI / 2.
Proof. unfold DEGtoRAD. lra. Qed.

Lemma findTCradial_90 (unitRadius coeffRadiuus : R) :
  0 <= unitRadius < coeffRadiuus ->
  findTCradial 90 unitRadius coeffRadiuus
  = sqrt (coeffRadiuus * coeffRadiuus - unitRadius * unitRadius).
Proof.
  intros [Hu Hc].
  assert (Hc0 : 0 < coeffRadiuus) by lra.
  assert (Ht : 0 <= unitRadius / coeffRadiuus < 1).
  { split.
    - apply Rmult_le_pos; [lra | left; apply Rinv_0_lt_compat; lra].
    - apply (Rmult_lt_reg_r coeffRadiuus); [lra |].
      unfold Rdiv. rewrite Rmult_assoc, Rinv_l by lra. lra. }
  rewrite findTCradial_asin; rewrite DEGtoRAD_90, sin_PI2, Rmult_1_l; [| lra].
  replace (PI - PI / 2 - asin (unitRadius / coeffRadiuus))
    with (PI / 2 - asin (unitRadius / coeffRadiuus)) by lra.
  rewrite sin_shift, cos_asin by lra.
  unfold Rdiv at 1. rewrite Rinv_1, Rmult_1_r.
  rewrite <- (sqrt_square coeffRadiuus) at 2 by lra.
  rewrite <- sqrt_mult_alt.
  - f_equal. unfold Rsqr. field. lra.
  - unfold Rsqr. nra.
Qed.

(** C4, as stated, fails: at 90 degrees, with the unit radius and the
    radius of the angle ring, [findTCradial] is below 0.28, more than 0.5
    away from the unit radius. *)
Lemma findTCradial_counterexample :
  findTCradial 90 SMITH_RADIUS ANGLE_RING_RADIUS < 0.28 /\
  ~ (Rabs (findTCradial 90 SMITH_RADIUS ANGLE_RING_RADIUS - SMITH_RADIUS) <= 0.5).
Proof.
  assert (H : findTCradial 90 SMITH_RADIUS ANGLE_RING_RADIUS < 0.28).
  { rewrite findTCradial_90 by (unfold ANGLE_RING_RADIUS, SMITH_RADIUS; lra).
    rewrite <- (sqrt_square 0.28) by lra.
    apply sqrt_lt_1_alt. unfold ANGLE_RING_RADIUS, SMITH_RADIUS. lra. }
  split; [exact H |].
  intros Habs. unfold SMITH_RADIUS in *.
  unfold Rabs in Habs. destruct (Rcase_abs _); lra.
Qed.

(** C4 (amended): [findTCradial] implements
    radial = sin(PI - theta - asin(sin(theta) * unitRadius / ringRadius))
             * ringRadius / sin(theta)
    wherever the argument of the arcsine is strictly between -1 and 1; at
    90 degrees, for 0 <= unitRadius < ringRadius, it returns
    sqrt(ringRadius^2 - unitRadius^2), which for the unit radius and the
    radius of the angle ring of the chart lies between 0.27 and 0.28. *)
Theorem findTCradial_value :
  (forall angleDegrees unitRadius ringRadius : R,
      -1 < sin (DEGtoRAD angleDegrees) * unitRadius / ringRadius < 1 ->
      findTCradial angleDegrees unitRadius ringRadius
      = sin (PI - DEGtoRAD angleDegrees
             - asin (sin (DEGtoRAD angleDegrees) * unitRadius / ringRadius))
        * ringRadius / sin (DEGtoRAD angleDegrees)) /\
  (forall unitRadius ringRadius : R,
      0 <= unitRadius < ringRadius ->
      findTCradial 90 unitRadius ringRadius
      = sqrt (ringRadius * ringRadius - unitRadius * unitRadius)) /\
  0.27 < findTCradial 90 SMITH_RADIUS ANGLE_RING_RADIUS < 0.28.
Proof.
  split; [exact findTCradial_asin | split; [exact findTCradial_90 |]].
  rewrite findTCradial_90 by (unfold ANGLE_RING_RADIUS, SMITH_RADIUS; lra).
  split.
  - rewrite <- (sqrt_square 0.27) by lra.
    apply sqrt_lt_1_alt. unfold ANGLE_RING_RADIUS, SMITH_RADIUS. lra.
  - rewrite <- (sqrt_square 0.28) by lra.
    apply sqrt_lt_1_alt. unfold ANGLE_RING_RADIUS, SMITH_RADIUS. lra.
Qed.

Lemma findTCradial_value_witness :
  findTCradial 90 3 5 = sqrt (5 * 5 - 3 * 3).
Proof.
  apply (proj1 (proj2 findTCradial_value) 3 5). lra.
Defined.

(** ** The curve fitter *)


(** The calls a routine adds to the sink do not depend on what the sink
    held before. *)
Lemma sink_emit (op : cairo_op) (cr : cairo_t) :
  sink (emit op cr) = sink cr ++ [op].
Proof. reflexivity. Qed.

Lemma sink_cairo_save (cr : cairo_t) :
  sink (cairo_save cr) = sink cr ++ [op_save].
Proof. reflexivity. Qed.

Lemma sink_cairo_restore (cr : cairo_t) :
  sink (cairo_restore cr) = sink cr ++ [op_restore].
Proof. unfold cairo_restore. destruct (saved cr); reflexivity. Qed.

Lemma sink_cairo_set_matrix (m : cairo_matrix_t) (cr : cairo_t) :
  sink (cairo_set_matrix m cr) = sink cr ++ [op_set_matrix m].
Proof. reflexivity. Qed.

Lemma bezierPath_two_points (uvPoints : tUV_array) :
  bezierPath uvPoints 2
  = (cairo_move_to (U (uvPoints 0%Z)) (V (uvPoints 0%Z)) ;;
     cairo_curve_to (U (uvPoints 0%Z)) (V (uvPoints 0%Z))
                    (U (uvPoints 1%Z)) (V (uvPoints 1%Z))
                    (U (uvPoints 1%Z)) (V (uvPoints 1%Z)) ;;
     skip).
Proof. reflexivity. Qed.

(** C5: fitting exactly two points emits one cubic segment, whose first
    control point is the first point and whose second control point (and
    end point) is the second point. *)
Theorem bezier_two_points (uvPoints : tUV_array) (pOptions : options_ptr)
        (cr : cairo_t) (mem : memory) :
  sink (fst (drawBezierCurveOnSmithChart uvPoints 2 pOptions cr mem))
  = sink cr ++
    [ op_save;
      op_set_matrix (matrix (mem (orDefault pOptions)));
      op_set_line_width (SRpct (lineWidth (mem (orDefault pOptions))));
      op_set_source_rgba (red (colorLine (mem (orDefault pOptions))))
                         (green (colorLine (mem (orDefault pOptions))))
                         (blue (colorLine (mem (orDefault pOptions))))
                         (alpha (colorLine (mem (orDefault pOptions))));
      op_new_path;
      op_move_to (U (uvPoints 0%Z)) (V (uvPoints 0%Z));
      op_curve_to (U (uvPoints 0%Z)) (V (uvPoints 0%Z))
                  (U (uvPoints 1%Z)) (V (uvPoints 1%Z))
                  (U (uvPoints 1%Z)) (V (uvPoints 1%Z));
      op_stroke;
      op_restore ].
Proof.
  unfold drawBezierCurveOnSmithChart. cbn [fst].
  rewrite bezierPath_two_points.
  unfold cairo_block, andthen, skip. rewrite sink_cairo_restore.
  unfold cairo_stroke, cairo_curve_to, cairo_move_to, cairo_new_path,
    set_source, cairo_set_source_rgba, cairo_set_line_width.
  rewrite !sink_emit, sink_cairo_set_matrix, sink_cairo_save.
  rewrite <- !app_assoc. reflexivity.
Qed.

(** *** The wrapped neighbours *)

(** The indices of the loop, for a segment i with 1 <= i < length. *)
Lemma wrap_index (length i k : Z) :
  (0 <= i + k < length)%Z ->
  Z.rem (i + length + k) length = (i + k)%Z.
Proof.
  intros Hk.
  rewrite Z.rem_mod_nonneg by lia.
  replace (i + length + k)%Z with (i + k + 1 * length)%Z by lia.
  rewrite Z.mod_add by lia.
  apply Z.mod_small. lia.
Qed.

Lemma clampIndex_inside (length k : Z) :
  (0 <= k < length)%Z -> clampIndex length k = k.
Proof. unfold clampIndex. lia. Qed.

(** The first control point is placed from the predecessor line and the
    start of the successor line only; the second from the end of the
    predecessor line and the successor line only. *)
Lemma bezierControlPoints_fst (g l l' : tLine) :
  A l = A l' ->
  fst (bezierControlPoints g l) = fst (bezierControlPoints g l').
Proof. intros E. unfold bezierControlPoints, angle; cbn [fst A B]. rewrite E. reflexivity. Qed.

Lemma bezierControlPoints_snd (g g' l : tLine) :
  B g = B g' ->
  snd (bezierControlPoints g l) = snd (bezierControlPoints g' l).
Proof. intros E. unfold bezierControlPoints, angle; cbn [snd A B]. rewrite E. reflexivity. Qed.

Lemma bezierSegment_clamped_eq (uvPoints : tUV_array) (length i : Z) :
  (1 <= i < length)%Z ->
  bezierSegment uvPoints length i = bezierSegment_clamped uvPoints length i.
Proof.
  intros Hi. unfold bezierSegment, bezierSegment_clamped.
  replace (i + length - 1)%Z with (i + length + -1)%Z by lia.
  replace (i + length - 2)%Z with (i + length + -2)%Z by lia.
  rewrite (wrap_index length i (-1)), (wrap_index length i 0) by lia.
  replace (i + -1)%Z with (i - 1)%Z by lia.
  replace (i + 0)%Z with i by lia.
  cbn [A B].
  destruct (Z.eqb_spec i 1) as [E1 | N1];
    destruct (Z.eqb_spec i (length - 1)) as [El | Nl].
  - reflexivity.
  - rewrite (wrap_index length i 1), (clampIndex_inside length (i + 1)) by lia.
    rewrite (bezierControlPoints_snd
               {| A := uvPoints (Z.rem (i + length + -2) length);
                  B := uvPoints (i - 1)%Z |}
               {| A := uvPoints (clampIndex length (i - 2));
                  B := uvPoints (i - 1)%Z |}) by reflexivity.
    reflexivity.
  - rewrite (wrap_index length i (-2)) by lia.
    replace (i + -2)%Z with (i - 2)%Z by lia.
    rewrite (clampIndex_inside length (i - 2)) by lia.
    rewrite (bezierControlPoints_fst
               {| A := uvPoints (i - 2)%Z; B := uvPoints (i - 1)%Z |}
               {| A := uvPoints i;
                  B := uvPoints (Z.rem (i + length + 1) length) |}
               {| A := uvPoints i;
                  B := uvPoints (clampIndex length (i + 1)) |}) by reflexivity.
    reflexivity.
  - rewrite (wrap_index length i (-2)), (wrap_index length i 1) by lia.
    replace (i + -2)%Z with (i - 2)%Z by lia.
    rewrite (clampIndex_inside length (i - 2)),
      (clampIndex_inside length (i + 1)) by lia.
    reflexivity.
Qed.

Lemma for_loop_ext (n : nat) (i : Z) (body body' : Z -> cairo) :
  (forall j, (i <= j < i + Z.of_nat n)%Z -> body j = body' j) ->
  for_loop n i body = for_loop n i body'.
Proof.
  revert i. induction n as [| n IH]; intros i Hb.
  - reflexivity.
  - cbn [for_loop]. rewrite (Hb i) by lia.
    rewrite (IH (i + 1)%Z); [reflexivity |].
    intros j Hj. apply Hb. lia.
Qed.

(** C6: for every sequence of N >= 2 points the path emitted by the
    fitter is the path of the reference fitter whose out-of-range
    neighbour indices are clamped instead of wrapped: the wrapped
    neighbours only enter the control points that are then forced to the
    ends of the first and of the last segment.  (N is a [gint], and the
    largest index sum of the loop, [i + length + 1], is at most 2 N: the
    sequences are those for which it is an [int].) *)
Theorem bezier_path_not_cyclic (uvPoints : tUV_array) (length : Z)
        (pOptions : options_ptr) (cr : cairo_t) (mem : memory) :
  (2 <= length)%Z ->
  (2 * length <= G_MAXINT)%Z ->
  bezierPath uvPoints length = bezierPath_clamped uvPoints length /\
  drawBezierCurveOnSmithChart uvPoints length pOptions cr mem
  = (cairo_block
       (cairo_set_matrix (matrix (mem (orDefault pOptions))) ;;
        cairo_set_line_width (SRpct (lineWidth (mem (orDefault pOptions)))) ;;
        set_source (colorLine (mem (orDefault pOptions))) ;;
        cairo_new_path ;;
        bezierPath_clamped uvPoints length ;;
        cairo_stroke) cr, mem).
Proof.
  intros Hlen _.
  assert (E : bezierPath uvPoints length = bezierPath_clamped uvPoints length).
  { unfold bezierPath, bezierPath_clamped, for_int.
    rewrite (for_loop_ext _ _ (bezierSegment uvPoints length)
                          (bezierSegment_clamped uvPoints length));
      [reflexivity |].
    intros j Hj. apply bezierSegment_clamped_eq. lia. }
  split; [exact E |].
  unfold drawBezierCurveOnSmithChart. rewrite E. reflexivity.
Qed.

Lemma bezier_path_not_cyclic_witness :
  bezierPath exampleCurve 12 = bezierPath_clamped exampleCurve 12.
Proof.
  apply (bezier_path_not_cyclic exampleCurve 12 (Some (addr_caller 0))
           fresh_context (initial_memory (fun _ => optionsS11))).
  - lia.
  - unfold G_MAXINT. lia.
Defined.

(** *** Fewer than two points *)

Lemma bezierPath_no_segment (uvPoints : tUV_array) (length : Z) :
  (length < 2)%Z ->
  bezierPath uvPoints length
  = (cairo_move_to (U (uvPoints 0%Z)) (V (uvPoints 0%Z)) ;; skip).
Proof.
  intros Hlen. unfold bezierPath, for_int.
  replace (Z.to_nat (length - 1)) with 0%nat by lia. reflexivity.
Qed.

(** C8, as stated, fails: no call signals anything.  On binary64 the
    transform of R = -1, X = 0 is the pair (NaN, NaN), returned like any
    other value; the fitter handed one single point sends the sink a path
    that is a lone move-to, strokes it, and returns with the options
    untouched. *)
Lemma invalid_argument_counterexample :
  PrimFloat.is_nan (Binary64.U (Binary64.RXtoUV (Binary64.mkRX (-1) 0))) = true /\
  PrimFloat.is_nan (Binary64.V (Binary64.RXtoUV (Binary64.mkRX (-1) 0))) = true /\
  drawBezierCurveOnSmithChart (array_of_list (mkUV 0 0) [mkUV 0.5 0.5]) 1 NULL
    fresh_context (initial_memory (fun _ => optionsS11))
  = ({| ctm := mkMatrix 1 0 0 1 0 0;
        saved := [];
        sink := [ op_save;
                  op_set_matrix (mkMatrix 0 0 0 0 0 0);
                  op_set_line_width (SRpct 0.25);
                  op_set_source_rgba 0.0 0.0 0.5 1.0;
                  op_new_path;
                  op_move_to 0.5 0.5;
                  op_stroke;
                  op_restore ] |},
     initial_memory (fun _ => optionsS11)).
Proof.
  split; [vm_compute; reflexivity | split; [vm_compute; reflexivity |]].
  reflexivity.
Qed.

(** C8 (amended): a violated precondition is not signalled.  On binary64
    [RXtoUV] at R = -1, X = 0 returns NaN in both components.  The fitter
    given fewer than two points emits the path set-up, a move-to
    [uvPoints[0]], no segment, and the stroke, and leaves the options as
    they were. *)
Theorem precondition_violations_are_silent :
  PrimFloat.is_nan (Binary64.U (Binary64.RXtoUV (Binary64.mkRX (-1) 0))) = true /\
  PrimFloat.is_nan (Binary64.V (Binary64.RXtoUV (Binary64.mkRX (-1) 0))) = true /\
  forall (uvPoints : tUV_array) (length : Z) (pOptions : options_ptr)
         (cr : cairo_t) (mem : memory),
    (length < 2)%Z ->
    drawBezierCurveOnSmithChart uvPoints length pOptions cr mem
    = (cairo_block
         (cairo_set_matrix (matrix (mem (orDefault pOptions))) ;;
          cairo_set_line_width (SRpct (lineWidth (mem (orDefault pOptions)))) ;;
          set_source (colorLine (mem (orDefault pOptions))) ;;
          cairo_new_path ;;
          cairo_move_to (U (uvPoints 0%Z)) (V (uvPoints 0%Z)) ;;
          cairo_stroke) cr, mem).
Proof.
  split; [vm_compute; reflexivity | split; [vm_compute; reflexivity |]].
  intros uvPoints length pOptions cr mem Hlen.
  unfold drawBezierCurveOnSmithChart.
  rewrite (bezierPath_no_segment uvPoints length Hlen). reflexivity.
Qed.

Lemma precondition_violations_are_silent_witness :
  drawBezierCurveOnSmithChart exampleCurve 1 NULL fresh_context
    (initial_memory (fun _ => optionsS11))
  = (cairo_block
       (cairo_set_matrix (matrix defaultOptions) ;;
        cairo_set_line_width (SRpct (lineWidth defaultOptions)) ;;
        set_source (colorLine defaultOptions) ;;
        cairo_new_path ;;
        cairo_move_to (U (exampleCurve 0%Z)) (V (exampleCurve 0%Z)) ;;
        cairo_stroke) fresh_context, initial_memory (fun _ => optionsS11)).
Proof.
  apply (proj2 (proj2 precondition_violations_are_silent)). lia.
Defined.

(** ** The grid renderer *)

Lemma sweep_in (fuel : nat) (v limit inc : R) (ticks : Z) (body : R -> Z -> cairo) :
  v <= limit ->
  sweep (S fuel) v limit inc ticks body
  = (Some (body v ticks) ;;? sweep fuel (v + inc) limit inc (ticks + 1)%Z body).
Proof.
  intros H. cbn [sweep]. destruct (Rle_dec v limit); [reflexivity | contradiction].
Qed.

Lemma sweep_out (fuel : nat) (v limit inc : R) (ticks : Z) (body : R -> Z -> cairo) :
  limit < v ->
  sweep (S fuel) v limit inc ticks body = Some skip.
Proof.
  intros H. cbn [sweep]. destruct (Rle_dec v limit); [lra | reflexivity].
Qed.

Ltac sweep_steps :=
  repeat first [ rewrite sweep_in by (cbn [Rr X region]; lra)
               | rewrite sweep_out by (cbn [Rr X region]; lra) ].

Lemma drawBand_at_7 (fuel : nat) (z znext : tRegion) :
  minorPerMajorDiv z <> SPECIAL_CASE ->
  drawBand fuel 7 z (Some znext)
  = (drawBlock fuel {| Rr := 0.0; X := region z |}
               {| Rr := region znext; X := region znext |}
               (minorDiv z) (minorPerMajorDiv z) ;;?
     drawBlock fuel {| Rr := region z; X := 0.0 |}
               {| Rr := region znext; X := region z |}
               (minorDiv z) 3).
Proof.
  intros Hz. unfold drawBand.
  destruct (Z.eqb_spec (minorPerMajorDiv z) SPECIAL_CASE) as [E | _];
    [contradiction | reflexivity].
Qed.

Lemma stdGrid_bands (fuel : nat) :
  drawBands fuel 0 stdGrid
  = (drawBand fuel 0 (mkRegion 0.0 0.01 5) (Some (mkRegion 0.2 0.02 5)) ;;?
     drawBand fuel 1 (mkRegion 0.2 0.02 5) (Some (mkRegion 0.5 0.05 2)) ;;?
     drawBand fuel 2 (mkRegion 0.5 0.05 2) (Some (mkRegion 1.0 0.10 2)) ;;?
     drawBand fuel 3 (mkRegion 1.0 0.10 2) (Some (mkRegion 2.0 0.20 5)) ;;?
     drawBand fuel 4 (mkRegion 2.0 0.20 5) (Some (mkRegion 5.0 1.00 5)) ;;?
     drawBand fuel 5 (mkRegion 5.0 1.00 5) (Some (mkRegion 10.0 2.00 5)) ;;?
     drawBand fuel 6 (mkRegion 10.0 2.00 5) (Some (mkRegion 20.0 10.00 5)) ;;?
     drawBand fuel 7 (mkRegion 20.0 10.00 5) (Some (mkRegion 50.0 0.00 END)) ;;?
     Some skip).
Proof. reflexivity. Qed.

Lemma stroke_widths_differ : STROKE_WIDTH_MINOR <> STROKE_WIDTH_MAJOR.
Proof. unfold STROKE_WIDTH_MINOR, STROKE_WIDTH_MAJOR, SMITH_RADIUS. lra. Qed.

Lemma tickWidth_major (ticks minorPerMajor : Z) :
  tickWidth ticks minorPerMajor = STROKE_WIDTH_MAJOR
  <-> Z.rem ticks minorPerMajor = 0%Z.
Proof.
  unfold tickWidth. destruct (Z.eqb_spec (Z.rem ticks minorPerMajor) 0).
  - tauto.
  - split; [intros H; destruct (stroke_widths_differ H) | contradiction].
Qed.

(** The band of [stdGrid] at index 7, run. *)
Lemma stdGrid_band7_widths :
  exists band : cairo,
    drawBand 6 7 (mkRegion 20.0 10.00 5) (Some (mkRegion 50.0 0.00 END))
    = Some band /\
    lineWidths (sink (band fresh_context))
    = [ STROKE_WIDTH_MINOR; STROKE_WIDTH_MINOR; STROKE_WIDTH_MINOR;
        STROKE_WIDTH_MINOR; STROKE_WIDTH_MAJOR;
        STROKE_WIDTH_MINOR; STROKE_WIDTH_MINOR; STROKE_WIDTH_MINOR;
        STROKE_WIDTH_MINOR; STROKE_WIDTH_MINOR; STROKE_WIDTH_MAJOR;
        STROKE_WIDTH_MINOR; STROKE_WIDTH_MINOR ].
Proof.
  rewrite drawBand_at_7 by (cbn; discriminate).
  unfold drawBlock. cbn [Rr X region minorDiv minorPerMajorDiv].
  sweep_steps.
  cbn [andthen_opt].
  eexists. split; [reflexivity |]. reflexivity.
Qed.

(** C7, as stated, fails: in the band of [stdGrid] at index 7 the first
    block is drawn with the 5 of the table: its third minor step is drawn
    with the minor width and its fifth with the major width. *)
Lemma band7_counterexample :
  nth_error stdGrid 7 = Some (mkRegion 20.0 10.00 5) /\
  STROKE_WIDTH_MINOR <> STROKE_WIDTH_MAJOR /\
  exists band : cairo,
    drawBand 6 7 (mkRegion 20.0 10.00 5) (Some (mkRegion 50.0 0.00 END))
    = Some band /\
    nth 2 (lineWidths (sink (band fresh_context))) 0 = STROKE_WIDTH_MINOR /\
    nth 4 (lineWidths (sink (band fresh_context))) 0 = STROKE_WIDTH_MAJOR.
Proof.
  split; [reflexivity | split; [exact stroke_widths_differ |]].
  destruct stdGrid_band7_widths as (band & Hband & Hw).
  exists band. rewrite Hw. split; [exact Hband | split; reflexivity].
Qed.

(** C7 (amended): at table index 7 - in [stdGrid] the entry of the
    boundary 20 - the renderer draws the first block of the band with
    the [minorPerMajorDiv] of the table, then overrides ticks-per-major to
    3 whatever the table holds, and draws the second block of the band,
    the one along the centre line, with 3: in that block a step is drawn
    with the major width exactly when its tick count is a multiple of 3.
    In [stdGrid] the widths of the band are, step by step: first block,
    major on the 5th resistance step and no major among the 3 reactance
    steps; second block, major on the 3rd resistance step and no major
    among the 2 reactance steps. *)
Theorem band7_override :
  (forall (fuel : nat) (z znext : tRegion),
      minorPerMajorDiv z <> SPECIAL_CASE ->
      drawBand fuel 7 z (Some znext)
      = (drawBlock fuel {| Rr := 0.0; X := region z |}
                   {| Rr := region znext; X := region znext |}
                   (minorDiv z) (minorPerMajorDiv z) ;;?
         drawBlock fuel {| Rr := region z; X := 0.0 |}
                   {| Rr := region znext; X := region z |}
                   (minorDiv z) 3)) /\
  (forall ticks : Z,
      tickWidth ticks 3 = STROKE_WIDTH_MAJOR <-> Z.rem ticks 3 = 0%Z) /\
  (forall fuel : nat,
      exists bands : option cairo,
        drawBands fuel 0 stdGrid
        = (bands ;;?
           drawBand fuel 7 (mkRegion 20.0 10.00 5)
                    (Some (mkRegion 50.0 0.00 END)) ;;?
           Some skip)) /\
  exists band : cairo,
    drawBand 6 7 (mkRegion 20.0 10.00 5) (Some (mkRegion 50.0 0.00 END))
    = Some band /\
    lineWidths (sink (band fresh_context))
    = [ STROKE_WIDTH_MINOR; STROKE_WIDTH_MINOR; STROKE_WIDTH_MINOR;
        STROKE_WIDTH_MINOR; STROKE_WIDTH_MAJOR;
        STROKE_WIDTH_MINOR; STROKE_WIDTH_MINOR; STROKE_WIDTH_MINOR;
        STROKE_WIDTH_MINOR; STROKE_WIDTH_MINOR; STROKE_WIDTH_MAJOR;
        STROKE_WIDTH_MINOR; STROKE_WIDTH_MINOR ].
Proof.
  split; [exact drawBand_at_7 |].
  split; [intros ticks; apply tickWidth_major |].
  split; [| exact stdGrid_band7_widths].
  intros fuel. rewrite stdGrid_bands.
  exists (drawBand fuel 0 (mkRegion 0.0 0.01 5) (Some (mkRegion 0.2 0.02 5)) ;;?
          drawBand fuel 1 (mkRegion 0.2 0.02 5) (Some (mkRegion 0.5 0.05 2)) ;;?
          drawBand fuel 2 (mkRegion 0.5 0.05 2) (Some (mkRegion 1.0 0.10 2)) ;;?
          drawBand fuel 3 (mkRegion 1.0 0.10 2) (Some (mkRegion 2.0 0.20 5)) ;;?
          drawBand fuel 4 (mkRegion 2.0 0.20 5) (Some (mkRegion 5.0 1.00 5)) ;;?
          drawBand fuel 5 (mkRegion 5.0 1.00 5) (Some (mkRegion 10.0 2.00 5)) ;;?
          drawBand fuel 6 (mkRegion 10.0 2.00 5) (Some (mkRegion 20.0 10.00 5))).
  repeat match goal with
         | |- context [drawBand ?f ?i ?z ?n] =>
             let b := fresh "b" in
             generalize (drawBand f i z n); intros b
         end.
  repeat match goal with b : option cairo |- _ => destruct b end;
    reflexivity.
Qed.

Lemma band7_override_witness :
  drawBand 6 7 (mkRegion 20.0 10.00 5) (Some (mkRegion 50.0 0.00 END))
  = (drawBlock 6 {| Rr := 0.0; X := 20.0 |} {| Rr := 50.0; X := 50.0 |} 10.00 5 ;;?
     drawBlock 6 {| Rr := 20.0; X := 0.0 |} {| Rr := 50.0; X := 20.0 |} 10.00 3).
Proof.
  apply (proj1 band7_override 6%nat (mkRegion 20.0 10.00 5)
                              (mkRegion 50.0 0.00 END)).
  simpl. discriminate.
Defined.

(** *** The grid is drawn in finitely many steps *)

Lemma returns_const (c : cairo) : returns (fun _ => Some c).
Proof. exists 0%nat. intros fuel _. exists c. reflexivity. Qed.

Lemma returns_option_map (f : cairo -> cairo) (k : nat -> option cairo) :
  returns k -> returns (fun fuel => option_map f (k fuel)).
Proof.
  intros [n H]. exists n. intros fuel Hfuel.
  destruct (H fuel Hfuel) as [c E]. exists (f c). rewrite E. reflexivity.
Qed.

Lemma returns_andthen_opt (k1 k2 : nat -> option cairo) :
  returns k1 -> returns k2 -> returns (fun fuel => k1 fuel ;;? k2 fuel).
Proof.
  intros [n1 H1] [n2 H2]. exists (Nat.max n1 n2). intros fuel Hfuel.
  destruct (H1 fuel) as [c1 E1]; [lia |].
  destruct (H2 fuel) as [c2 E2]; [lia |].
  exists (c1 ;; c2). rewrite E1, E2. reflexivity.
Qed.

Lemma sweep_returns_within (limit inc : R) (body : R -> Z -> cairo) :
  0 < inc ->
  forall (N : nat) (v : R) (ticks : Z) (fuel : nat),
    limit - v < INR N * inc -> (N < fuel)%nat ->
    exists c : cairo, sweep fuel v limit inc ticks body = Some c.
Proof.
  intros Hinc. induction N as [| N IH]; intros v ticks fuel HN Hfuel.
  - destruct fuel as [| fuel]; [lia |].
    cbn [INR] in HN. rewrite sweep_out by lra. exists skip. reflexivity.
  - destruct fuel as [| fuel]; [lia |].
    destruct (Rle_dec v limit) as [Hin | Hout].
    + rewrite sweep_in by exact Hin.
      destruct (IH (v + inc) (ticks + 1)%Z fuel) as [c Ec].
      * rewrite S_INR in HN. lra.
      * lia.
      * rewrite Ec. eexists. reflexivity.
    + rewrite sweep_out by lra. exists skip. reflexivity.
Qed.

Lemma sweep_returns (v limit inc : R) (ticks : Z) (body : R -> Z -> cairo) :
  0 < inc -> returns (fun fuel => sweep fuel v limit inc ticks body).
Proof.
  intros Hinc.
  destruct (INR_archimed inc (limit - v)) as [N HN]; [lra |].
  exists (S N). intros fuel Hfuel.
  apply (sweep_returns_within limit inc body Hinc N); [lra | lia].
Qed.

Lemma drawBlock_returns (RXstart RXend : tRX) (minorInc : R) (minorPerMajor : Z) :
  0 < minorInc ->
  returns (fun fuel => drawBlock fuel RXstart RXend minorInc minorPerMajor).
Proof.
  intros Hinc. unfold drawBlock.
  apply (returns_andthen_opt
           (fun fuel => sweep fuel _ _ _ _ _) (fun fuel => sweep fuel _ _ _ _ _));
    apply sweep_returns; exact Hinc.
Qed.

Lemma drawBand_returns (index : Z) (z znext : tRegion) :
  minorPerMajorDiv z = SPECIAL_CASE \/ 0 < minorDiv z ->
  returns (fun fuel => drawBand fuel index z (Some znext)).
Proof.
  intros Hz. unfold drawBand.
  destruct (Z.eqb_spec (minorPerMajorDiv z) SPECIAL_CASE) as [E | N].
  - apply returns_const.
  - destruct Hz as [Hz | Hz]; [contradiction |].
    apply (returns_andthen_opt
             (fun fuel => drawBlock fuel _ _ _ _) (fun fuel => drawBlock fuel _ _ _ _));
      apply drawBlock_returns; exact Hz.
Qed.

Lemma drawBands_returns (zs : list tRegion) :
  END_terminated zs ->
  forall index : Z, returns (fun fuel => drawBands fuel index zs).
Proof.
  induction zs as [| z rest IH]; intros Hzs index; [destruct Hzs |].
  cbn [drawBands END_terminated] in *.
  destruct (Z.eqb_spec (minorPerMajorDiv z) END) as [E | N].
  - apply returns_const.
  - destruct Hzs as [Hend | [Hz Hrest]]; [contradiction |].
    apply (returns_andthen_opt
             (fun fuel => drawBand fuel index z (hd_error rest))
             (fun fuel => drawBands fuel (index + 1)%Z rest)).
    + destruct Hz as [Hsp | [Hinc Hne]].
      * unfold drawBand. rewrite Hsp. cbn. apply returns_const.
      * destruct rest as [| znext rest']; [contradiction |].
        apply drawBand_returns. right. exact Hinc.
    + apply IH. exact Hrest.
Qed.

Lemma stdGrid_END_terminated : END_terminated stdGrid.
Proof.
  cbn.
  repeat (right; split; [right; split; [lra | discriminate] |]).
  left. reflexivity.
Qed.

Lemma sparseGrid_END_terminated : END_terminated sparseGrid.
Proof.
  cbn.
  repeat (right; split; [right; split; [lra | discriminate] |]).
  left. reflexivity.
Qed.

Lemma drawImmittanceGrid_returns (zones : list tRegion) (zones_is_sparseGrid : bool) :
  END_terminated zones ->
  returns (fun fuel => drawImmittanceGrid fuel zones zones_is_sparseGrid).
Proof.
  intros Hz. unfold drawImmittanceGrid.
  apply (returns_andthen_opt (fun fuel => drawBands fuel 0 zones) (fun _ => Some _)).
  - apply drawBands_returns. exact Hz.
  - apply returns_const.
Qed.

Lemma drawRXgrid_returns (o : tSmithOptions) :
  returns (fun fuel => drawRXgrid fuel stdGrid false o).
Proof.
  unfold drawRXgrid.
  apply (returns_option_map _ (fun fuel => drawImmittanceGrid fuel _ _)).
  apply drawImmittanceGrid_returns, stdGrid_END_terminated.
Qed.

Lemma drawGBgrid_returns (sparse : bool) (o : tSmithOptions) :
  returns (fun fuel =>
             drawGBgrid fuel (if sparse then sparseGrid else stdGrid) sparse o).
Proof.
  unfold drawGBgrid.
  apply (returns_option_map _ (fun fuel => drawImmittanceGrid fuel _ _)).
  apply drawImmittanceGrid_returns.
  destruct sparse; [apply sparseGrid_END_terminated | apply stdGrid_END_terminated].
Qed.

Lemma chartBody_returns
      (cairo_text_extents : cairo_t -> string -> cairo_text_extents_t)
        (g_strdup_printf_2f : R -> string)
      (centerX centerY radius : R) (o : tSmithOptions) :
  returns (fun fuel =>
             chartBody cairo_text_extents g_strdup_printf_2f
                       fuel centerX centerY radius o).
Proof.
  unfold chartBody.
  apply (returns_andthen_opt (fun _ => Some _) (fun fuel => _ ;;? _ ;;? Some _));
    [apply returns_const |].
  apply (returns_andthen_opt
           (fun fuel => if bShowGB (flags o) then drawGBgrid fuel _ _ o else Some skip)
           (fun fuel => _ ;;? Some _)).
  { destruct (bShowGB (flags o)); [apply drawGBgrid_returns | apply returns_const]. }
  apply (returns_andthen_opt
           (fun fuel => if bShowRX (flags o) then drawRXgrid fuel _ _ o else Some skip)
           (fun _ => Some _));
    [| apply returns_const].
  destruct (bShowRX (flags o)); [apply drawRXgrid_returns | apply returns_const].
Qed.

(** ** The options are read, and the matrix alone is written *)

Lemma loc_eqb_eq (p q : loc) : loc_eqb p q = true <-> p = q.
Proof.
  destruct p as [| a], q as [| b]; cbn; try (split; [discriminate | discriminate]);
    try tauto.
  rewrite Nat.eqb_eq. split; [intros ->; reflexivity | intros E; inversion E; reflexivity].
Qed.

Lemma cairo_get_matrix_same_settings (cr : cairo_t) (pOptions : loc)
      (mem : memory) (p : loc) :
  same_settings (mem p) (cairo_get_matrix cr pOptions mem p).
Proof.
  unfold cairo_get_matrix. destruct (loc_eqb p pOptions);
    unfold same_settings; cbn; repeat split.
Qed.

Lemma cairo_get_matrix_elsewhere (cr : cairo_t) (pOptions : loc)
      (mem : memory) (p : loc) :
  p <> pOptions -> cairo_get_matrix cr pOptions mem p = mem p.
Proof.
  intros Hp. unfold cairo_get_matrix.
  destruct (loc_eqb p pOptions) eqn:E; [| reflexivity].
  apply loc_eqb_eq in E. contradiction.
Qed.

Lemma extends_skip : extends_sink skip.
Proof. intros cr. exists []. unfold skip. rewrite app_nil_r. reflexivity. Qed.

Lemma extends_emit (op : cairo_op) : extends_sink (emit op).
Proof. intros cr. exists [op]. reflexivity. Qed.

Lemma extends_set_ctm (m : cairo_matrix_t) : extends_sink (set_ctm m).
Proof. intros cr. exists []. cbn. rewrite app_nil_r. reflexivity. Qed.

Lemma extends_save : extends_sink cairo_save.
Proof. intros cr. exists [op_save]. reflexivity. Qed.

Lemma extends_restore : extends_sink cairo_restore.
Proof. intros cr. exists [op_restore]. apply sink_cairo_restore. Qed.

Lemma extends_andthen (f g : cairo) :
  extends_sink f -> extends_sink g -> extends_sink (f ;; g).
Proof.
  intros Hf Hg cr. destruct (Hf cr) as [ops E]. destruct (Hg (f cr)) as [ops' E'].
  exists (ops ++ ops'). unfold andthen. rewrite E', E, app_assoc. reflexivity.
Qed.

Lemma extends_for_loop (n : nat) (i : Z) (body : Z -> cairo) :
  (forall j, extends_sink (body j)) -> extends_sink (for_loop n i body).
Proof.
  intros Hb. revert i. induction n as [| n IH]; intros i; cbn [for_loop].
  - apply extends_skip.
  - apply extends_andthen; [apply Hb | apply IH].
Qed.

Lemma extends_with_text_extents
      (cairo_text_extents : cairo_t -> string -> cairo_text_extents_t)
      (sLabel : string) (k : cairo_text_extents_t -> cairo) :
  (forall extents, extends_sink (k extents)) ->
  extends_sink (with_text_extents cairo_text_extents sLabel k).
Proof. intros Hk cr. unfold with_text_extents. apply Hk. Qed.

Ltac unfold_cairo :=
  unfold cairo_block, stringWidthCairoText,
    cairo_set_matrix, cairo_set_line_width, set_source,
    cairo_set_source_rgba, cairo_set_operator, cairo_select_font_face,
    setCairoFontSize, cairo_set_font_matrix, cairo_new_path, cairo_move_to,
    cairo_line_to, cairo_curve_to, cairo_arc, cairo_rectangle, cairo_stroke,
    cairo_stroke_preserve, cairo_fill, cairo_show_text.

Ltac extends_tac :=
  unfold_cairo;
  repeat match goal with
         | |- extends_sink (andthen _ _) => apply extends_andthen
         | |- extends_sink skip => apply extends_skip
         | |- extends_sink cairo_save => apply extends_save
         | |- extends_sink cairo_restore => apply extends_restore
         | |- extends_sink (set_ctm _) => apply extends_set_ctm
         | |- extends_sink (emit _) => apply extends_emit
         | |- extends_sink (with_text_extents _ _ _) =>
             apply extends_with_text_extents; intros ?
         | |- extends_sink (for_loop _ _ _) =>
             apply extends_for_loop; intros ?; cbv beta
         end.

Lemma extends_leftJustifiedClearText
      (cairo_text_extents : cairo_t -> string -> cairo_text_extents_t)
      (sLabel : string) (x y : R) :
  extends_sink (leftJustifiedClearText cairo_text_extents sLabel x y).
Proof. unfold leftJustifiedClearText. extends_tac. Qed.

Lemma extends_rightJustifiedClearText
      (cairo_text_extents : cairo_t -> string -> cairo_text_extents_t)
      (sLabel : string) (x y : R) :
  extends_sink (rightJustifiedClearText cairo_text_extents sLabel x y).
Proof. unfold rightJustifiedClearText. extends_tac. Qed.

(** The shape of every plotting routine: save, restore the cached matrix,
    then draw. *)
Lemma cached_matrix_first (m : cairo_matrix_t) (rest : cairo) (cr : cairo_t) :
  extends_sink rest ->
  exists ops : list cairo_op,
    sink (cairo_block (cairo_set_matrix m ;; rest) cr)
    = sink cr ++ op_save :: op_set_matrix m :: ops.
Proof.
  intros Hrest.
  destruct (Hrest (cairo_set_matrix m (cairo_save cr))) as [ops E].
  exists (ops ++ [op_restore]).
  change (cairo_block (cairo_set_matrix m ;; rest) cr)
    with (cairo_restore (rest (cairo_set_matrix m (cairo_save cr)))).
  rewrite sink_cairo_restore, E, sink_cairo_set_matrix, sink_cairo_save.
  rewrite <- !app_assoc. reflexivity.
Qed.

(** C9: chart composition returns (given enough fuel for the sweeps of the
    grid) and leaves every field of every options object as it was, but
    for the [matrix] of the object it was handed; the five plotting
    routines leave the options untouched, and each starts by saving the
    context and restoring the cached matrix it read from the options. *)
Theorem options_frame
        (cairo_text_extents : cairo_t -> string -> cairo_text_extents_t)
        (g_strdup_printf_2f : R -> string)
        (pOptions : options_ptr) (cr : cairo_t) (mem : memory) :
  (forall centerX centerY radius : R,
      exists fuel0 : nat, forall fuel : nat, (fuel0 <= fuel)%nat ->
        exists (cr' : cairo_t) (mem' : memory),
          drawSmithChart cairo_text_extents g_strdup_printf_2f
                         fuel centerX centerY radius pOptions cr mem
          = Some (cr', mem') /\
          (forall p : loc, same_settings (mem p) (mem' p)) /\
          (forall p : loc, p <> orDefault pOptions -> mem' p = mem p)) /\
  (forall uvFrom uvTo : tUV,
      snd (drawLineOnSmithChart uvFrom uvTo pOptions cr mem) = mem /\
      exists ops : list cairo_op,
        sink (fst (drawLineOnSmithChart uvFrom uvTo pOptions cr mem))
        = sink cr ++ op_save
                  :: op_set_matrix (matrix (mem (orDefault pOptions))) :: ops) /\
  (forall (uvPoints : tUV_array) (length : Z),
      snd (drawLineArrayOnSmithChart uvPoints length pOptions cr mem) = mem /\
      exists ops : list cairo_op,
        sink (fst (drawLineArrayOnSmithChart uvPoints length pOptions cr mem))
        = sink cr ++ op_save
                  :: op_set_matrix (matrix (mem (orDefault pOptions))) :: ops) /\
  (forall (uvPoints : tUV_array) (length : Z),
      snd (drawBezierCurveOnSmithChart uvPoints length pOptions cr mem) = mem /\
      exists ops : list cairo_op,
        sink (fst (drawBezierCurveOnSmithChart uvPoints length pOptions cr mem))
        = sink cr ++ op_save
                  :: op_set_matrix (matrix (mem (orDefault pOptions))) :: ops) /\
  (forall uvPoint : tUV,
      snd (drawPointOnSmithChart uvPoint pOptions cr mem) = mem /\
      exists ops : list cairo_op,
        sink (fst (drawPointOnSmithChart uvPoint pOptions cr mem))
        = sink cr ++ op_save
                  :: op_set_matrix (matrix (mem (orDefault pOptions))) :: ops) /\
  (forall (sLabel : string) (uv : tUV) (bLeft : bool),
      snd (annotatePointOnSmithChart cairo_text_extents sLabel uv bLeft
                                     pOptions cr mem) = mem /\
      exists ops : list cairo_op,
        sink (fst (annotatePointOnSmithChart cairo_text_extents sLabel uv bLeft
                                             pOptions cr mem))
        = sink cr ++ op_save
                  :: op_set_matrix (matrix (mem (orDefault pOptions))) :: ops).
Proof.
  split; [| split; [| split; [| split; [| split]]]].
  - intros centerX centerY radius. unfold drawSmithChart.
    destruct (chartBody_returns cairo_text_extents g_strdup_printf_2f centerX centerY
                (if bDrawRing (flags (mem (orDefault pOptions)))
                 then radius / (OUTER_BOUNDARY_WITH_RING / SMITH_RADIUS)
                 else radius)
                (mem (orDefault pOptions))) as [fuel0 Hbody].
    exists fuel0. intros fuel Hfuel.
    destruct (Hbody fuel Hfuel) as [body Ebody]. rewrite Ebody.
    eexists. eexists. split; [reflexivity | split].
    + intros p. apply cairo_get_matrix_same_settings.
    + intros p Hp. apply cairo_get_matrix_elsewhere. exact Hp.
  - intros uvFrom uvTo. split; [reflexivity |].
    unfold drawLineOnSmithChart; cbn [fst].
    apply cached_matrix_first. extends_tac.
  - intros uvPoints length. split; [reflexivity |].
    unfold drawLineArrayOnSmithChart; cbn [fst].
    apply cached_matrix_first. unfold for_int. extends_tac.
    destruct (_ =? 0)%Z; extends_tac.
  - intros uvPoints length. split; [reflexivity |].
    unfold drawBezierCurveOnSmithChart; cbn [fst].
    apply cached_matrix_first. unfold bezierPath, for_int. extends_tac.
    unfold bezierSegment. extends_tac.
  - intros uvPoint. split; [reflexivity |].
    unfold drawPointOnSmithChart; cbn [fst].
    apply cached_matrix_first. extends_tac.
  - intros sLabel uv bLeft. split; [reflexivity |].
    unfold annotatePointOnSmithChart; cbn [fst].
    apply cached_matrix_first. extends_tac.
    destruct bLeft;
      [apply extends_leftJustifiedClearText | apply extends_rightJustifiedClearText].
Qed.

Lemma options_frame_witness :
  exists fuel0 : nat, forall fuel : nat, (fuel0 <= fuel)%nat ->
    exists (cr' : cairo_t) (mem' : memory),
      drawSmithChart (fun _ _ => mkExtents 0 0 0 0 0 0) (fun _ => "0.00")
                     fuel 500 500 490 (Some (addr_caller 0)) fresh_context
                     (initial_memory (fun _ => optionsS11))
      = Some (cr', mem') /\
      (forall p : loc,
          same_settings (initial_memory (fun _ => optionsS11) p) (mem' p)) /\
      (forall p : loc,
          p <> orDefault (Some (addr_caller 0)) ->
          mem' p = initial_memory (fun _ => optionsS11) p).
Proof.
  apply (proj1 (options_frame (fun _ _ => mkExtents 0 0 0 0 0 0) (fun _ => "0.00")
                              (Some (addr_caller 0)) fresh_context
                              (initial_memory (fun _ => optionsS11)))).
Defined.

(** ** A NULL options pointer *)

(** An object holding the default settings is [defaultOptions] with
    whatever matrix it has cached. *)
Lemma default_settings_object (o : tSmithOptions) :
  same_settings defaultOptions o -> o = with_matrix defaultOptions (matrix o).
Proof.
  destruct o as [f lw pw c1 c2 c3 c4 c5 c6 c7 af afs m].
  unfold same_settings; cbn.
  intros (-> & -> & -> & -> & -> & -> & -> & -> & -> & -> & -> & ->).
  reflexivity.
Qed.

(** The chart drawn depends on the settings, not on the cached matrix. *)
Lemma chartBody_with_matrix
      (cairo_text_extents : cairo_t -> string -> cairo_text_extents_t)
      (g_strdup_printf_2f : R -> string)
      (fuel : nat) (centerX centerY radius : R) (o : tSmithOptions)
      (m : cairo_matrix_t) :
  chartBody cairo_text_extents g_strdup_printf_2f fuel centerX centerY radius
            (with_matrix o m)
  = chartBody cairo_text_extents g_strdup_printf_2f fuel centerX centerY radius o.
Proof. reflexivity. Qed.

(** C10: each of the six public drawing entry points accepts a NULL
    options pointer.  As long as [defaultOptions] holds its default
    settings, a call with NULL does what the same call does when handed
    an object holding the default options (for [drawSmithChart], the
    matrix it caches goes to [defaultOptions] instead of the object), and
    what it draws is drawn with the default options: [drawSmithChart]
    draws the impedance grid of [stdGrid] in the default colour, its
    labels and texts and both rings, and no admittance grid, scaled for
    the rings; lines and curves have the width 0.25 and a point the width
    0.6 (percent of the radius) in the default line colour; an annotation
    is in the default annotation colour, in the label font at twice the
    label size. *)
Theorem NULL_is_defaultOptions
        (cairo_text_extents : cairo_t -> string -> cairo_text_extents_t)
        (g_strdup_printf_2f : R -> string)
        (a : nat) (cr : cairo_t) (mem : memory) :
  same_settings defaultOptions (mem addr_defaultOptions) ->
  mem (addr_caller a) = mem addr_defaultOptions ->
  let M := matrix (mem addr_defaultOptions) in
  (forall (fuel : nat) (centerX centerY radius : R),
      option_map fst
        (drawSmithChart cairo_text_extents g_strdup_printf_2f
                        fuel centerX centerY radius NULL cr mem)
      = option_map fst
          (drawSmithChart cairo_text_extents g_strdup_printf_2f
                          fuel centerX centerY radius (Some (addr_caller a)) cr mem) /\
      option_map (fun r => snd r addr_defaultOptions)
        (drawSmithChart cairo_text_extents g_strdup_printf_2f
                        fuel centerX centerY radius NULL cr mem)
      = option_map (fun r => snd r (addr_caller a))
          (drawSmithChart cairo_text_extents g_strdup_printf_2f
                          fuel centerX centerY radius (Some (addr_caller a)) cr mem)) /\
  (forall uvFrom uvTo : tUV,
      drawLineOnSmithChart uvFrom uvTo NULL cr mem
      = drawLineOnSmithChart uvFrom uvTo (Some (addr_caller a)) cr mem) /\
  (forall (uvPoints : tUV_array) (length : Z),
      drawLineArrayOnSmithChart uvPoints length NULL cr mem
      = drawLineArrayOnSmithChart uvPoints length (Some (addr_caller a)) cr mem) /\
  (forall (uvPoints : tUV_array) (length : Z),
      drawBezierCurveOnSmithChart uvPoints length NULL cr mem
      = drawBezierCurveOnSmithChart uvPoints length (Some (addr_caller a)) cr mem) /\
  (forall uvPoint : tUV,
      drawPointOnSmithChart uvPoint NULL cr mem
      = drawPointOnSmithChart uvPoint (Some (addr_caller a)) cr mem) /\
  (forall (sLabel : string) (uv : tUV) (bLeft : bool),
      annotatePointOnSmithChart cairo_text_extents sLabel uv bLeft NULL cr mem
      = annotatePointOnSmithChart cairo_text_extents sLabel uv bLeft
                                  (Some (addr_caller a)) cr mem) /\
  (forall (fuel : nat) (centerX centerY radius : R),
      drawSmithChart cairo_text_extents g_strdup_printf_2f
                     fuel centerX centerY radius NULL cr mem
      = match drawRXgrid fuel stdGrid false defaultOptions with
        | None => None
        | Some grid =>
            let s := radius / (OUTER_BOUNDARY_WITH_RING / SMITH_RADIUS) in
            let cr1 :=
              (cairo_save ;;
               removeFontHinting ;;
               cairo_translate centerX centerY ;;
               cairo_scale s (- s) ;;
               cairo_select_font_face LABEL_FONT ;;
               setCairoFontSize LABELFONTSIZE ;;
               grid ;;
               drawRXgridText cairo_text_extents defaultOptions ;;
               set_source (mkRGBA 0.0 0.0 0.0 1.0) ;;
               drawWavelengthRing cairo_text_extents g_strdup_printf_2f ;;
               drawAngleRing cairo_text_extents) cr in
            Some (cairo_restore cr1,
                  cairo_get_matrix cr1 addr_defaultOptions mem)
        end) /\
  (forall uvFrom uvTo : tUV,
      sink (fst (drawLineOnSmithChart uvFrom uvTo NULL cr mem))
      = sink cr ++ [ op_save;
                     op_set_matrix M;
                     op_set_line_width (SRpct 0.25);
                     op_set_source_rgba 0.0 0.0 0.5 1.0;
                     op_new_path;
                     op_move_to (U uvFrom) (V uvFrom);
                     op_line_to (U uvTo) (V uvTo);
                     op_stroke;
                     op_restore ]) /\
  (forall (uvPoints : tUV_array) (length : Z),
      drawLineArrayOnSmithChart uvPoints length NULL cr mem
      = (cairo_block
           (cairo_set_matrix M ;;
            cairo_set_line_width (SRpct 0.25) ;;
            set_source (mkRGBA 0.0 0.0 0.5 1.0) ;;
            cairo_new_path ;;
            for_int 0 length
              (fun i => if (i =? 0)%Z
                        then cairo_move_to (U (uvPoints 0%Z)) (V (uvPoints 0%Z))
                        else cairo_line_to (U (uvPoints i)) (V (uvPoints i))) ;;
            cairo_stroke) cr, mem)) /\
  (forall (uvPoints : tUV_array) (length : Z),
      drawBezierCurveOnSmithChart uvPoints length NULL cr mem
      = (cairo_block
           (cairo_set_matrix M ;;
            cairo_set_line_width (SRpct 0.25) ;;
            set_source (mkRGBA 0.0 0.0 0.5 1.0) ;;
            cairo_new_path ;;
            bezierPath uvPoints length ;;
            cairo_stroke) cr, mem)) /\
  (forall uvPoint : tUV,
      sink (fst (drawPointOnSmithChart uvPoint NULL cr mem))
      = sink cr ++ [ op_save;
                     op_set_matrix M;
                     op_set_line_width 0.0;
                     op_set_source_rgba 0.0 0.0 0.5 1.0;
                     op_new_path;
                     op_arc (U uvPoint) (V uvPoint) (SRpct 0.6) 0 (2.0 * PI);
                     op_fill;
                     op_stroke;
                     op_restore ]) /\
  (forall (sLabel : string) (uv : tUV) (bLeft : bool),
      annotatePointOnSmithChart cairo_text_extents sLabel uv bLeft NULL cr mem
      = (cairo_block
           (cairo_set_matrix M ;;
            cairo_set_line_width 0.0 ;;
            set_source (mkRGBA 0.0 0.5 0.0 1.0) ;;
            cairo_select_font_face LABEL_FONT ;;
            setCairoFontSize (2 * LABELFONTSIZE) ;;
            (if bLeft
             then leftJustifiedClearText cairo_text_extents sLabel
                    (U uv + (2 * LABELFONTSIZE * 0.5))
                    (V uv - (2 * LABELFONTSIZE * 0.3))
             else rightJustifiedClearText cairo_text_extents sLabel
                    (U uv - (2 * LABELFONTSIZE * 0.5))
                    (V uv - (2 * LABELFONTSIZE * 0.3)))) cr, mem)).
Proof.
  intros Hdef Hobj M.
  pose proof (default_settings_object _ Hdef) as Ho. fold M in Ho.
  split.
  { intros fuel centerX centerY radius.
    unfold drawSmithChart; unfold NULL; cbn [orDefault]. rewrite Hobj.
    destruct (chartBody _ _ _ _ _ _ _) as [body |]; cbn [option_map fst snd];
      [| split; reflexivity].
    split; [reflexivity |].
    unfold cairo_get_matrix, andthen. cbn [loc_eqb].
    rewrite Nat.eqb_refl, Hobj. reflexivity. }
  split.
  { intros. unfold drawLineOnSmithChart; unfold NULL; cbn [orDefault]. rewrite Hobj. reflexivity. }
  split.
  { intros. unfold drawLineArrayOnSmithChart; unfold NULL; cbn [orDefault]. rewrite Hobj.
    reflexivity. }
  split.
  { intros. unfold drawBezierCurveOnSmithChart; unfold NULL; cbn [orDefault]. rewrite Hobj.
    reflexivity. }
  split.
  { intros. unfold drawPointOnSmithChart; unfold NULL; cbn [orDefault]. rewrite Hobj. reflexivity. }
  split.
  { intros. unfold annotatePointOnSmithChart; unfold NULL; cbn [orDefault]. rewrite Hobj.
    reflexivity. }
  clear Hobj Hdef. clearbody M.
  split.
  { intros fuel centerX centerY radius.
    unfold drawSmithChart, NULL; cbn [orDefault]. rewrite Ho.
    rewrite chartBody_with_matrix.
    change (bDrawRing (flags (with_matrix defaultOptions M))) with true.
    cbv iota. unfold chartBody.
    change (bShowGB (flags defaultOptions)) with false.
    change (bShowRX (flags defaultOptions)) with true.
    change (bDrawRing (flags defaultOptions)) with true.
    change (colorRing defaultOptions) with (mkRGBA 0.0 0.0 0.0 1.0).
    cbv iota.
    destruct (drawRXgrid fuel stdGrid false defaultOptions) as [grid |];
      cbn [andthen_opt]; [| reflexivity].
    cbv zeta. unfold andthen, skip. reflexivity. }
  split.
  { intros uvFrom uvTo. unfold drawLineOnSmithChart, NULL; cbn [orDefault fst].
    rewrite Ho.
    change (lineWidth (with_matrix defaultOptions M)) with 0.25.
    change (matrix (with_matrix defaultOptions M)) with M.
    change (colorLine (with_matrix defaultOptions M)) with (mkRGBA 0.0 0.0 0.5 1.0).
    unfold cairo_block, andthen. rewrite sink_cairo_restore.
    unfold cairo_stroke, cairo_line_to, cairo_move_to, cairo_new_path,
      set_source, cairo_set_source_rgba, cairo_set_line_width.
    rewrite !sink_emit, sink_cairo_set_matrix, sink_cairo_save.
    rewrite <- !app_assoc. reflexivity. }
  split.
  { intros. unfold drawLineArrayOnSmithChart, NULL; cbn [orDefault].
    rewrite Ho.
    change (lineWidth (with_matrix defaultOptions M)) with 0.25.
    change (matrix (with_matrix defaultOptions M)) with M.
    change (colorLine (with_matrix defaultOptions M)) with (mkRGBA 0.0 0.0 0.5 1.0).
    reflexivity. }
  split.
  { intros. unfold drawBezierCurveOnSmithChart, NULL; cbn [orDefault].
    rewrite Ho.
    change (lineWidth (with_matrix defaultOptions M)) with 0.25.
    change (matrix (with_matrix defaultOptions M)) with M.
    change (colorLine (with_matrix defaultOptions M)) with (mkRGBA 0.0 0.0 0.5 1.0).
    reflexivity. }
  split.
  { intros uvPoint. unfold drawPointOnSmithChart, NULL; cbn [orDefault fst].
    rewrite Ho.
    change (pointWidth (with_matrix defaultOptions M)) with 0.6.
    change (matrix (with_matrix defaultOptions M)) with M.
    change (colorLine (with_matrix defaultOptions M)) with (mkRGBA 0.0 0.0 0.5 1.0).
    unfold cairo_block, andthen. rewrite sink_cairo_restore.
    unfold cairo_stroke, cairo_fill, cairo_arc, cairo_new_path,
      set_source, cairo_set_source_rgba, cairo_set_line_width.
    rewrite !sink_emit, sink_cairo_set_matrix, sink_cairo_save.
    rewrite <- !app_assoc. reflexivity. }
  intros sLabel uv bLeft. unfold annotatePointOnSmithChart, NULL; cbn [orDefault].
  rewrite Ho.
  change (annotationFontSize (with_matrix defaultOptions M)) with 0%Z.
  change (annotationFont (with_matrix defaultOptions M)) with (@None string).
  change (matrix (with_matrix defaultOptions M)) with M.
  change (colorAnnotation (with_matrix defaultOptions M))
    with (mkRGBA 0.0 0.5 0.0 1.0).
  cbn [Z.eqb]. reflexivity.
Qed.

Lemma NULL_is_defaultOptions_witness :
  sink (fst (drawLineOnSmithChart (mkUV 0.25 (-0.25)) (mkUV 0.45 (-0.30)) NULL
               fresh_context (initial_memory (fun _ => defaultOptions))))
  = sink fresh_context
    ++ [ op_save;
         op_set_matrix (matrix (initial_memory (fun _ => defaultOptions)
                                               addr_defaultOptions));
         op_set_line_width (SRpct 0.25);
         op_set_source_rgba 0.0 0.0 0.5 1.0;
         op_new_path;
         op_move_to (U (mkUV 0.25 (-0.25))) (V (mkUV 0.25 (-0.25)));
         op_line_to (U (mkUV 0.45 (-0.30))) (V (mkUV 0.45 (-0.30)));
         op_stroke;
         op_restore ].
Proof.
  assert (Hdef : same_settings
                   defaultOptions
                   (initial_memory (fun _ => defaultOptions) addr_defaultOptions)).
  { unfold same_settings. simpl. repeat split. }
  assert (Hobj : initial_memory (fun _ => defaultOptions) (addr_caller 0)
                 = initial_memory (fun _ => defaultOptions) addr_defaultOptions)
    by reflexivity.
  exact (proj1 (proj2 (proj2 (proj2 (proj2 (proj2 (proj2 (proj2
           (NULL_is_defaultOptions
              (fun _ _ => mkExtents 0 0 0 0 0 0) (fun _ => "0.00")
              0%nat fresh_context
              (initial_memory (fun _ => defaultOptions)) Hdef Hobj))))))))
           (mkUV 0.25 (-0.25)) (mkUV 0.45 (-0.30))).
Defined.

(** The default settings stay: composing a chart, the one routine that
    writes an options object, keeps them in [defaultOptions]. *)
Lemma default_settings_stable
      (cairo_text_extents : cairo_t -> string -> cairo_text_extents_t)
        (g_strdup_printf_2f : R -> string)
      (fuel : nat) (centerX centerY radius : R) (pOptions : options_ptr)
      (cr cr' : cairo_t) (mem mem' : memory) :
  same_settings defaultOptions (mem addr_defaultOptions) ->
  drawSmithChart cairo_text_extents g_strdup_printf_2f
                 fuel centerX centerY radius pOptions cr mem = Some (cr', mem') ->
  same_settings defaultOptions (mem' addr_defaultOptions).
Proof.
  intros Hdef Hrun. unfold drawSmithChart in Hrun.
  destruct (chartBody _ _ _ _ _ _ _) as [body |]; [| discriminate].
  inversion Hrun; subst cr' mem'. clear Hrun.
  pose proof (cairo_get_matrix_same_settings
                ((cairo_save ;; body) cr) (orDefault pOptions) mem
                addr_defaultOptions) as Hs.
  unfold same_settings in *.
  repeat match goal with H : _ /\ _ |- _ => destruct H end.
  repeat split; etransitivity; eassumption.
Qed.

(** ** The cached matrix *)

Lemma balanced_keeps (f : cairo) : balanced f -> keeps_stack f.
Proof. intros H cr. apply H. Qed.

Lemma keeps_skip : keeps_stack skip.
Proof. intros cr. reflexivity. Qed.

Lemma keeps_emit (op : cairo_op) : keeps_stack (emit op).
Proof. intros cr. reflexivity. Qed.

Lemma keeps_set_ctm (m : cairo_matrix_t) : keeps_stack (set_ctm m).
Proof. intros cr. reflexivity. Qed.

Lemma keeps_translate (tx ty : R) : keeps_stack (cairo_translate tx ty).
Proof. intros cr. reflexivity. Qed.

Lemma keeps_scale (sx sy : R) : keeps_stack (cairo_scale sx sy).
Proof. intros cr. reflexivity. Qed.

Lemma keeps_rotate (a : R) : keeps_stack (cairo_rotate a).
Proof. intros cr. reflexivity. Qed.

Lemma keeps_andthen (f g : cairo) :
  keeps_stack f -> keeps_stack g -> keeps_stack (f ;; g).
Proof. intros Hf Hg cr. unfold andthen. rewrite Hg, Hf. reflexivity. Qed.

Lemma balanced_skip : balanced skip.
Proof. intros cr. split; reflexivity. Qed.

Lemma balanced_emit (op : cairo_op) : balanced (emit op).
Proof. intros cr. split; reflexivity. Qed.

Lemma balanced_andthen (f g : cairo) :
  balanced f -> balanced g -> balanced (f ;; g).
Proof.
  intros Hf Hg cr. unfold andthen.
  destruct (Hg (f cr)) as [-> ->]. apply Hf.
Qed.

(** What a block changes in the matrix, and what it pushes, is undone at
    its end. *)
Lemma balanced_block (body : cairo) :
  keeps_stack body -> balanced (cairo_block body).
Proof.
  intros Hb cr. unfold cairo_block, andthen, cairo_restore.
  rewrite Hb. cbn. split; reflexivity.
Qed.

Lemma keeps_block (body : cairo) :
  keeps_stack body -> keeps_stack (cairo_block body).
Proof. intros Hb. apply balanced_keeps, balanced_block, Hb. Qed.

Lemma keeps_with_text_extents
      (cairo_text_extents : cairo_t -> string -> cairo_text_extents_t)
      (sLabel : string) (k : cairo_text_extents_t -> cairo) :
  (forall extents, keeps_stack (k extents)) ->
  keeps_stack (with_text_extents cairo_text_extents sLabel k).
Proof. intros Hk cr. unfold with_text_extents. apply Hk. Qed.

Lemma balanced_with_text_extents
      (cairo_text_extents : cairo_t -> string -> cairo_text_extents_t)
      (sLabel : string) (k : cairo_text_extents_t -> cairo) :
  (forall extents, balanced (k extents)) ->
  balanced (with_text_extents cairo_text_extents sLabel k).
Proof. intros Hk cr. unfold with_text_extents. apply Hk. Qed.

Lemma keeps_for_step (n : nat) (i step : Z) (body : Z -> cairo) :
  (forall j, keeps_stack (body j)) -> keeps_stack (for_step n i step body).
Proof.
  intros Hb. revert i. induction n as [| n IH]; intros i; cbn [for_step].
  - apply keeps_skip.
  - apply keeps_andthen; [apply Hb | apply IH].
Qed.

Lemma balanced_for_step (n : nat) (i step : Z) (body : Z -> cairo) :
  (forall j, balanced (body j)) -> balanced (for_step n i step body).
Proof.
  intros Hb. revert i. induction n as [| n IH]; intros i; cbn [for_step].
  - apply balanced_skip.
  - apply balanced_andthen; [apply Hb | apply IH].
Qed.

Lemma balanced_labelLoop (ls : list tLabel) (body : R -> string -> cairo) :
  (forall v s, balanced (body v s)) -> balanced (labelLoop ls body).
Proof.
  intros Hb. induction ls as [| l rest IH]; cbn [labelLoop].
  - apply balanced_skip.
  - destruct (text l); [| apply balanced_skip].
    apply balanced_andthen; [apply Hb | apply IH].
Qed.

Ltac unfold_routines :=
  unfold drawArc, drawRarc, drawXarc,
    leftJustifiedClearText, rightJustifiedClearText, centreJustifiedCairoText,
    stringWidthCairoText, printNormalToRadial, drawCurvedArrow,
    for_upto, for_downto, removeFontHinting,
    cairo_set_line_width, set_source,
    cairo_set_source_rgba, cairo_set_operator, cairo_select_font_face,
    setCairoFontSize, cairo_set_font_matrix, cairo_new_path, cairo_move_to,
    cairo_line_to, cairo_curve_to, cairo_arc, cairo_arc_negative,
    cairo_rel_move_to, cairo_rel_line_to, cairo_close_path,
    cairo_rectangle, cairo_stroke,
    cairo_stroke_preserve, cairo_fill, cairo_show_text;
  cbv zeta.

Ltac stack_step :=
  match goal with
  | |- keeps_stack (andthen _ _) => apply keeps_andthen
  | |- keeps_stack skip => apply keeps_skip
  | |- keeps_stack (emit _) => apply keeps_emit
  | |- keeps_stack (set_ctm _) => apply keeps_set_ctm
  | |- keeps_stack (cairo_translate _ _) => apply keeps_translate
  | |- keeps_stack (cairo_scale _ _) => apply keeps_scale
  | |- keeps_stack (cairo_rotate _) => apply keeps_rotate
  | |- keeps_stack (cairo_block _) => apply keeps_block
  | |- keeps_stack (with_text_extents _ _ _) =>
      apply keeps_with_text_extents; intros ?
  | |- keeps_stack (for_step _ _ _ _) =>
      apply keeps_for_step; intros ?; cbv beta zeta
  | |- keeps_stack (if ?b then _ else _) => destruct b
  | |- balanced (andthen _ _) => apply balanced_andthen
  | |- balanced skip => apply balanced_skip
  | |- balanced (emit _) => apply balanced_emit
  | |- balanced (cairo_block _) => apply balanced_block
  | |- balanced (with_text_extents _ _ _) =>
      apply balanced_with_text_extents; intros ?
  | |- balanced (for_step _ _ _ _) =>
      apply balanced_for_step; intros ?; cbv beta zeta
  | |- balanced (labelLoop _ _) =>
      apply balanced_labelLoop; intros ? ?; cbv beta zeta
  | |- balanced (if ?b then _ else _) => destruct b
  end.

Ltac stack_tac := repeat (unfold_routines; stack_step).

Section CachedMatrix.

Variable cairo_text_extents : cairo_t -> string -> cairo_text_extents_t.
Variable g_strdup_printf_2f : R -> string.

Lemma keeps_circleChars (radius : R) (s : string) :
  keeps_stack (circleChars cairo_text_extents radius s).
Proof.
  induction s as [| c s IH]; cbn [circleChars].
  - apply keeps_skip.
  - apply keeps_andthen; [| exact IH]. stack_tac.
Qed.

Lemma balanced_circleCairoText (sLabel : string) (radius angle centerX centerY : R) :
  balanced (circleCairoText cairo_text_extents sLabel radius angle centerX centerY).
Proof. unfold circleCairoText. stack_tac. apply keeps_circleChars. Qed.

Lemma balanced_drawLabels : balanced (drawLabels cairo_text_extents).
Proof. unfold drawLabels. stack_tac. Qed.

Lemma balanced_drawWavelengthRing :
  balanced (drawWavelengthRing cairo_text_extents g_strdup_printf_2f).
Proof.
  unfold drawWavelengthRing. stack_tac;
    try (apply balanced_keeps, balanced_circleCairoText).
Qed.

Lemma balanced_drawAngleRing : balanced (drawAngleRing cairo_text_extents).
Proof.
  unfold drawAngleRing. stack_tac; try apply balanced_circleCairoText.
Qed.

Lemma andthen_opt_Some (a b : option cairo) (c : cairo) :
  (a ;;? b) = Some c ->
  exists f g : cairo, a = Some f /\ b = Some g /\ c = (f ;; g).
Proof.
  destruct a as [f |], b as [g |]; cbn; try discriminate.
  intros E. inversion E. exists f, g. repeat split.
Qed.

Lemma balanced_sweep (fuel : nat) (limit inc : R) (body : R -> Z -> cairo) :
  (forall r t, balanced (body r t)) ->
  forall (v : R) (ticks : Z) (c : cairo),
    sweep fuel v limit inc ticks body = Some c -> balanced c.
Proof.
  intros Hb. induction fuel as [| fuel IH]; intros v ticks c E; [discriminate |].
  cbn [sweep] in E. destruct (Rle_dec v limit).
  - apply andthen_opt_Some in E. destruct E as (f & g & Ef & Eg & ->).
    inversion Ef; subst f.
    apply balanced_andthen; [apply Hb | apply (IH _ _ _ Eg)].
  - inversion E. apply balanced_skip.
Qed.

Lemma balanced_drawBlock (fuel : nat) (RXstart RXend : tRX) (minorInc : R)
      (minorPerMajor : Z) (c : cairo) :
  drawBlock fuel RXstart RXend minorInc minorPerMajor = Some c -> balanced c.
Proof.
  unfold drawBlock. intros E.
  apply andthen_opt_Some in E. destruct E as (f & g & Ef & Eg & ->).
  apply balanced_andthen.
  - eapply balanced_sweep; [| exact Ef]. intros r t. stack_tac.
  - eapply balanced_sweep; [| exact Eg]. intros r t. stack_tac.
Qed.

Lemma balanced_drawBand (fuel : nat) (index : Z) (z : tRegion)
      (znext : option tRegion) (c : cairo) :
  drawBand fuel index z znext = Some c -> balanced c.
Proof.
  unfold drawBand. destruct (minorPerMajorDiv z =? SPECIAL_CASE)%Z.
  - intros E. inversion E. stack_tac.
  - destruct znext as [znext |]; [| discriminate]. intros E.
    apply andthen_opt_Some in E. destruct E as (f & g & Ef & Eg & ->).
    apply balanced_andthen; eapply balanced_drawBlock; eassumption.
Qed.

Lemma balanced_drawBands (fuel : nat) (zs : list tRegion) :
  forall (index : Z) (c : cairo),
    drawBands fuel index zs = Some c -> balanced c.
Proof.
  induction zs as [| z rest IH]; intros index c E; [discriminate |].
  cbn [drawBands] in E. destruct (minorPerMajorDiv z =? END)%Z.
  - inversion E. apply balanced_skip.
  - apply andthen_opt_Some in E. destruct E as (f & g & Ef & Eg & ->).
    apply balanced_andthen;
      [eapply balanced_drawBand; eassumption | eapply IH; eassumption].
Qed.

Lemma balanced_drawImmittanceGrid (fuel : nat) (zones : list tRegion)
      (zones_is_sparseGrid : bool) (c : cairo) :
  drawImmittanceGrid fuel zones zones_is_sparseGrid = Some c -> balanced c.
Proof.
  unfold drawImmittanceGrid. intros E.
  apply andthen_opt_Some in E. destruct E as (f & g & Ef & Eg & ->).
  apply balanced_andthen; [eapply balanced_drawBands; eassumption |].
  inversion Eg. unfold drawGridClosing. stack_tac.
Qed.

Lemma balanced_drawRXgrid (fuel : nat) (areas : list tRegion) (sparse : bool)
      (o : tSmithOptions) (c : cairo) :
  drawRXgrid fuel areas sparse o = Some c -> balanced c.
Proof.
  unfold drawRXgrid.
  destruct (drawImmittanceGrid fuel areas sparse) as [grid |] eqn:E;
    [| discriminate].
  intros Ec. inversion Ec. stack_tac.
  apply balanced_keeps. eapply balanced_drawImmittanceGrid; eassumption.
Qed.

Lemma balanced_drawGBgrid (fuel : nat) (areas : list tRegion) (sparse : bool)
      (o : tSmithOptions) (c : cairo) :
  drawGBgrid fuel areas sparse o = Some c -> balanced c.
Proof.
  unfold drawGBgrid.
  destruct (drawImmittanceGrid fuel areas sparse) as [grid |] eqn:E;
    [| discriminate].
  intros Ec. inversion Ec. stack_tac.
  apply balanced_keeps. eapply balanced_drawImmittanceGrid; eassumption.
Qed.

Lemma balanced_drawRXgridText (o : tSmithOptions) :
  balanced (drawRXgridText cairo_text_extents o).
Proof.
  unfold drawRXgridText. stack_tac;
    try (apply balanced_keeps;
         first [apply balanced_drawLabels | apply balanced_circleCairoText]).
Qed.

Lemma balanced_drawGBgridText (o : tSmithOptions) :
  balanced (drawGBgridText cairo_text_extents o).
Proof.
  unfold drawGBgridText. stack_tac;
    try (apply balanced_keeps;
         first [apply balanced_drawLabels | apply balanced_circleCairoText]).
Qed.

(** What the body of the chart leaves in the context: the matrix of the
    chart, on the stack it found. *)
Lemma chartBody_matrix (fuel : nat) (centerX centerY radius : R)
      (o : tSmithOptions) (body : cairo) (cr : cairo_t) :
  chartBody cairo_text_extents g_strdup_printf_2f
            fuel centerX centerY radius o = Some body ->
  ctm (body cr)
  = matrix_scale (matrix_translate (ctm cr) centerX centerY) radius (- radius) /\
  saved (body cr) = saved cr.
Proof.
  unfold chartBody. intros E.
  apply andthen_opt_Some in E. destruct E as (pre & r1 & Epre & E & ->).
  apply andthen_opt_Some in E. destruct E as (gb & r2 & Egb & E & ->).
  apply andthen_opt_Some in E. destruct E as (rx & post & Erx & Epost & ->).
  inversion Epre; subst pre. inversion Epost; subst post. clear Epre Epost.
  assert (Hgb : balanced gb).
  { destruct (bShowGB (flags o)).
    - eapply balanced_drawGBgrid; eassumption.
    - inversion Egb. apply balanced_skip. }
  assert (Hrx : balanced rx).
  { destruct (bShowRX (flags o)).
    - eapply balanced_drawRXgrid; eassumption.
    - inversion Erx. apply balanced_skip. }
  assert (Hrest : balanced
                    (gb ;; rx ;;
                     (if bShowRX (flags o)
                      then drawRXgridText cairo_text_extents o else skip) ;;
                     (if bShowGB (flags o)
                      then drawGBgridText cairo_text_extents o else skip) ;;
                     (if bDrawRing (flags o)
                      then set_source (colorRing o) ;;
                           drawWavelengthRing cairo_text_extents g_strdup_printf_2f ;;
                           drawAngleRing cairo_text_extents
                      else skip))).
  { apply balanced_andthen; [exact Hgb |].
    apply balanced_andthen; [exact Hrx |].
    apply balanced_andthen.
    { destruct (bShowRX (flags o));
        [apply balanced_drawRXgridText | apply balanced_skip]. }
    apply balanced_andthen.
    { destruct (bShowGB (flags o));
        [apply balanced_drawGBgridText | apply balanced_skip]. }
    destruct (bDrawRing (flags o)); [| apply balanced_skip].
    apply balanced_andthen; [stack_tac |].
    apply balanced_andthen;
      [apply balanced_drawWavelengthRing | apply balanced_drawAngleRing]. }
  destruct (Hrest ((removeFontHinting ;;
                    cairo_translate centerX centerY ;;
                    cairo_scale radius (- radius) ;;
                    cairo_select_font_face LABEL_FONT ;;
                    setCairoFontSize LABELFONTSIZE) cr)) as [Hc Hs].
  split.
  - unfold andthen at 1. rewrite Hc. reflexivity.
  - unfold andthen at 1. rewrite Hs. reflexivity.
Qed.

(** Composition caches the matrix of the chart, a translation to the
    centre followed by a scaling by the radius (the ordinate flipped), and
    hands the context back with the matrix and the stack it had. *)
Lemma chart_matrix_cached (fuel : nat) (centerX centerY radius : R)
      (pOptions : options_ptr) (cr cr' : cairo_t) (mem mem' : memory) :
  drawSmithChart cairo_text_extents g_strdup_printf_2f
                 fuel centerX centerY radius pOptions cr mem = Some (cr', mem') ->
  matrix (mem' (orDefault pOptions))
  = matrix_scale
      (matrix_translate (ctm cr) centerX centerY)
      (if bDrawRing (flags (mem (orDefault pOptions)))
       then radius / (OUTER_BOUNDARY_WITH_RING / SMITH_RADIUS) else radius)
      (- (if bDrawRing (flags (mem (orDefault pOptions)))
          then radius / (OUTER_BOUNDARY_WITH_RING / SMITH_RADIUS) else radius)) /\
  ctm cr' = ctm cr /\
  saved cr' = saved cr.
Proof.
  unfold drawSmithChart.
  destruct (chartBody _ _ _ _ _ _ _) as [body |] eqn:Ebody; [| discriminate].
  intros E. inversion E; subst cr' mem'. clear E.
  destruct (chartBody_matrix _ _ _ _ _ _ (cairo_save cr) Ebody) as [Hm Hs].
  unfold cairo_get_matrix, andthen.
  assert (Eq : loc_eqb (orDefault pOptions) (orDefault pOptions) = true)
    by (apply loc_eqb_eq; reflexivity).
  rewrite Eq. cbn [matrix with_matrix].
  split; [exact Hm |].
  unfold cairo_restore. rewrite Hs. cbn. split; reflexivity.
Qed.

End CachedMatrix.

(** * Further properties *)

(** ** The transform as a map of the plane *)

(** X1: The transform is the reflection coefficient of the impedance:
    Gamma * (Z + 1) = Z - 1, in real and imaginary part. *)
Theorem RXtoUV_reflection_coefficient (rx : tRX) :
  Zplus1_magSqu rx <> 0 ->
  U (RXtoUV rx) * (Rr rx + 1) - V (RXtoUV rx) * X rx = Rr rx - 1 /\
  U (RXtoUV rx) * X rx + V (RXtoUV rx) * (Rr rx + 1) = X rx.
Proof. apply RXtoUV_is_gamma. Qed.

Lemma RXtoUV_reflection_coefficient_witness :
  U (RXtoUV {| Rr := 1; X := 2 |}) * (1 + 1) - V (RXtoUV {| Rr := 1; X := 2 |}) * 2
  = 1 - 1 /\
  U (RXtoUV {| Rr := 1; X := 2 |}) * 2 + V (RXtoUV {| Rr := 1; X := 2 |}) * (1 + 1)
  = 2.
Proof.
  apply (RXtoUV_reflection_coefficient {| Rr := 1; X := 2 |}).
  unfold Zplus1_magSqu, SQU. simpl. lra.
Defined.

(** X3: Negating the reactance mirrors the point in the horizontal axis, and
    the point lies above, on or below that axis as the reactance is
    positive, zero or negative. *)
Theorem RXtoUV_conjugate (rx : tRX) :
  Zplus1_magSqu rx <> 0 ->
  RXtoUV {| Rr := Rr rx; X := - X rx |}
  = {| U := U (RXtoUV rx); V := - V (RXtoUV rx) |} /\
  (0 < V (RXtoUV rx) <-> 0 < X rx) /\
  (V (RXtoUV rx) = 0 <-> X rx = 0) /\
  (V (RXtoUV rx) < 0 <-> X rx < 0).
Proof.
  intros HD.
  assert (Hpos : 0 < Zplus1_magSqu rx).
  { destruct (Rtotal_order 0 (Zplus1_magSqu rx)) as [H | [H | H]];
      [exact H | congruence |].
    rewrite Zplus1_magSqu_square in H.
    pose proof (Rle_0_sqr (Rr rx + 1)). pose proof (Rle_0_sqr (X rx)).
    unfold Rsqr in *. lra. }
  split.
  - unfold RXtoUV; cbn [U V Rr X]. unfold Zplus1_magSqu, SQU; cbn [Rr X].
    rewrite lit_1_0, lit_2_0.
    replace (Rr rx * Rr rx + - X rx * - X rx + Rr rx * 2 + 1)
      with (Rr rx * Rr rx + X rx * X rx + Rr rx * 2 + 1) by ring.
    replace (- X rx * - X rx) with (X rx * X rx) by ring.
    f_equal. unfold Rdiv. ring.
  - assert (EV : V (RXtoUV rx) = X rx * (2 / Zplus1_magSqu rx)).
    { unfold RXtoUV; cbn [V]. rewrite lit_2_0. unfold Rdiv. ring. }
    assert (Hk : 0 < 2 / Zplus1_magSqu rx).
    { apply Rmult_lt_0_compat; [lra | apply Rinv_0_lt_compat; exact Hpos]. }
    rewrite EV. set (k := 2 / Zplus1_magSqu rx) in *.
    repeat split; intros H; nra.
Qed.

Lemma RXtoUV_conjugate_witness :
  RXtoUV {| Rr := 1; X := - 2 |}
  = {| U := U (RXtoUV {| Rr := 1; X := 2 |});
       V := - V (RXtoUV {| Rr := 1; X := 2 |}) |}.
Proof.
  apply (RXtoUV_conjugate {| Rr := 1; X := 2 |}).
  unfold Zplus1_magSqu, SQU. simpl. lra.
Defined.

(** ** The tick radial of the coefficient ring *)

Lemma findTCradial_closed_form (angleDegrees unitRadius coeffRadiuus : R) :
  0 < coeffRadiuus ->
  sin (DEGtoRAD angleDegrees) <> 0 ->
  -1 < sin (DEGtoRAD angleDegrees) * unitRadius / coeffRadiuus < 1 ->
  let a := DEGtoRAD angleDegrees in
  let t := findTCradial angleDegrees unitRadius coeffRadiuus in
  t = unitRadius * cos a
      + sqrt (SQU coeffRadiuus - SQU (unitRadius * sin a)) /\
  SQU (- unitRadius + t * cos a) + SQU (t * sin a) = SQU coeffRadiuus.
Proof.
  intros Hc Hsin Hs a t.
  set (s := sin a * unitRadius / coeffRadiuus).
  assert (Hs' : -1 < s < 1) by exact Hs.
  assert (Hsin' : sin a <> 0) by exact Hsin.
  assert (Hrad : 0 < 1 - s * s).
  { assert (0 < (1 - s) * (1 + s)) by (apply Rmult_lt_0_compat; lra). lra. }
  assert (Hw : sqrt (SQU coeffRadiuus - SQU (unitRadius * sin a))
               = coeffRadiuus * sqrt (1 - s * s)).
  { replace (SQU coeffRadiuus - SQU (unitRadius * sin a))
      with (coeffRadiuus * coeffRadiuus * (1 - s * s))
      by (unfold SQU, s; field; lra).
    rewrite sqrt_mult by nra.
    rewrite sqrt_square by lra. reflexivity. }
  assert (Et : t = unitRadius * cos a
                   + sqrt (SQU coeffRadiuus - SQU (unitRadius * sin a))).
  { unfold t. rewrite (findTCradial_asin _ _ _ Hs). fold a. fold s.
    replace (PI - a - asin s) with (PI - (a + asin s)) by ring.
    rewrite sin_PI_x, sin_plus, cos_asin, sin_asin by lra.
    rewrite Hw. unfold Rsqr.
    generalize (sqrt (1 - s * s)); intros q.
    unfold s. generalize Hsin'. generalize (sin a), (cos a). intros sa ca Hsa.
    field. split; [lra | exact Hsa]. }
  split; [exact Et |].
  rewrite Et.
  set (w := sqrt (SQU coeffRadiuus - SQU (unitRadius * sin a))) in *.
  assert (Hw2 : w * w = SQU coeffRadiuus - SQU (unitRadius * sin a)).
  { unfold w. apply sqrt_sqrt.
    replace (SQU coeffRadiuus - SQU (unitRadius * sin a))
      with (coeffRadiuus * coeffRadiuus * (1 - s * s))
      by (unfold SQU, s; field; lra).
    nra. }
  pose proof (sin2_cos2 a) as Hsc. unfold Rsqr in Hsc.
  unfold SQU in *.
  replace ((- unitRadius + (unitRadius * cos a + w) * cos a)
           * (- unitRadius + (unitRadius * cos a + w) * cos a)
           + (unitRadius * cos a + w) * sin a
             * ((unitRadius * cos a + w) * sin a))
    with (unitRadius * unitRadius
          - 2 * unitRadius * (unitRadius * cos a + w) * cos a
          + (unitRadius * cos a + w) * (unitRadius * cos a + w)
            * (sin a * sin a + cos a * cos a)) by ring.
  rewrite Hsc.
  replace (coeffRadiuus * coeffRadiuus)
    with (w * w + unitRadius * sin a * (unitRadius * sin a)) by lra.
  replace (unitRadius * unitRadius)
    with (unitRadius * unitRadius * (sin a * sin a + cos a * cos a))
    by (rewrite Hsc; ring).
  ring.
Qed.


(** X4: The sine-rule computation of [findTCradial] in closed form, and what
    it measures: starting at (-unitRadius, 0) and going the computed
    distance in the direction of the angle ends on the circle of radius
    coeffRadiuus about the origin.  So it is for the ticks of the
    transmission scale, which [drawAngleRing] starts at that distance from
    (-SMITH_RADIUS, 0): for every angle strictly between 0 and 180 degrees
    the tick starts on the angle ring. *)
Theorem findTCradial_on_ring :
  (forall angleDegrees unitRadius coeffRadiuus : R,
      0 < coeffRadiuus ->
      sin (DEGtoRAD angleDegrees) <> 0 ->
      -1 < sin (DEGtoRAD angleDegrees) * unitRadius / coeffRadiuus < 1 ->
      let a := DEGtoRAD angleDegrees in
      let t := findTCradial angleDegrees unitRadius coeffRadiuus in
      t = unitRadius * cos a
          + sqrt (SQU coeffRadiuus - SQU (unitRadius * sin a)) /\
      SQU (- unitRadius + t * cos a) + SQU (t * sin a) = SQU coeffRadiuus) /\
  (forall deg : R,
      0 < deg < 180 ->
      let a := DEGtoRAD deg in
      let TCradial := findTCradial deg SMITH_RADIUS ANGLE_RING_RADIUS in
      SQU (- SMITH_RADIUS + TCradial * cos a) + SQU (TCradial * sin a)
      = SQU ANGLE_RING_RADIUS).
Proof.
  split; [exact findTCradial_closed_form |].
  intros deg Hdeg a TCradial.
  assert (Ha : 0 < a < PI).
  { unfold a, DEGtoRAD. pose proof PI_RGT_0 as Hpi.
    assert (E : deg / 180.0 * PI = deg / 180 * PI) by (f_equal; lra).
    rewrite E. split.
    - apply Rmult_lt_0_compat; lra.
    - assert (deg / 180 * PI < 1 * PI)
        by (apply Rmult_lt_compat_r; lra).
      lra. }
  assert (Hsin : 0 < sin a) by (apply sin_gt_0; lra).
  pose proof (SIN_bound a) as [_ Hle].
  apply (findTCradial_closed_form deg SMITH_RADIUS ANGLE_RING_RADIUS).
  - unfold ANGLE_RING_RADIUS, SMITH_RADIUS. lra.
  - fold a. lra.
  - fold a. unfold ANGLE_RING_RADIUS, SMITH_RADIUS.
    replace (sin a * 1.0 / (1.038 * 1.0)) with (sin a * (1000 / 1038)) by lra.
    lra.
Qed.

Lemma findTCradial_on_ring_witness :
  findTCradial 90 3 5
  = 3 * cos (DEGtoRAD 90) + sqrt (SQU 5 - SQU (3 * sin (DEGtoRAD 90))).
Proof.
  apply (proj1 findTCradial_on_ring 90 3 5).
  - lra.
  - rewrite DEGtoRAD_90, sin_PI2. lra.
  - rewrite DEGtoRAD_90, sin_PI2. lra.
Defined.

(** ** The paths of the plotting routines *)

Lemma for_loop_sink (n : nat) (i : Z) (body : Z -> cairo) (op : Z -> cairo_op)
      (cr : cairo_t) :
  (forall k : Z, body k = emit (op k)) ->
  sink (for_loop n i body cr)
  = sink cr ++ map (fun k => op (i + Z.of_nat k)%Z) (seq 0 n).
Proof.
  intros Hbody. revert i cr.
  induction n as [| n IH]; intros i cr.
  - cbn. rewrite app_nil_r. reflexivity.
  - cbn [for_loop]. unfold andthen. rewrite IH, Hbody, sink_emit.
    rewrite <- app_assoc. f_equal.
    cbn [seq map app]. rewrite Z.add_0_r. f_equal.
    rewrite <- seq_shift, map_map.
    apply map_ext. intros k. f_equal. lia.
Qed.

(** X5: [drawLineArrayOnSmithChart] sends exactly this: the matrix, width and
    colour of the options, then a path that moves to the first point and
    draws a line to each further point in order - one segment less than
    there are points - and nothing at all for a length of zero or less;
    then the stroke. *)
Theorem drawLineArray_path (uvPoints : tUV_array) (length : Z)
        (pOptions : options_ptr) (cr : cairo_t) (mem : memory) :
  sink (fst (drawLineArrayOnSmithChart uvPoints length pOptions cr mem))
  = sink cr
    ++ [ op_save;
         op_set_matrix (matrix (mem (orDefault pOptions)));
         op_set_line_width (SRpct (lineWidth (mem (orDefault pOptions))));
         op_set_source_rgba (red (colorLine (mem (orDefault pOptions))))
                            (green (colorLine (mem (orDefault pOptions))))
                            (blue (colorLine (mem (orDefault pOptions))))
                            (alpha (colorLine (mem (orDefault pOptions))));
         op_new_path ]
    ++ match cells uvPoints (Z.to_nat length) with
       | [] => []
       | p :: ps =>
           op_move_to (U p) (V p)
           :: map (fun q : tUV => op_line_to (U q) (V q)) ps
       end
    ++ [ op_stroke; op_restore ].
Proof.
  unfold drawLineArrayOnSmithChart; cbn [fst].
  unfold cairo_block, andthen, set_source, for_int.
  rewrite sink_cairo_restore.
  unfold cairo_stroke. rewrite sink_emit.
  rewrite (for_loop_sink _ _ _
             (fun i => if (i =? 0)%Z
                       then op_move_to (U (uvPoints 0%Z)) (V (uvPoints 0%Z))
                       else op_line_to (U (uvPoints i)) (V (uvPoints i))))
    by (intros k; destruct (k =? 0)%Z; reflexivity).
  unfold cairo_new_path, cairo_set_source_rgba, cairo_set_line_width.
  rewrite !sink_emit, sink_cairo_set_matrix, sink_cairo_save.
  rewrite <- !app_assoc. cbn [app]. do 6 f_equal.
  rewrite Z.sub_0_r. unfold cells.
  destruct (Z.to_nat length) as [| n]; [reflexivity |].
  cbn [seq map app]. f_equal.
  rewrite <- seq_shift, !map_map. reflexivity.
Qed.

Lemma drawBezierCurve_sink (uvPoints : tUV_array) (length : Z)
        (pOptions : options_ptr) (cr : cairo_t) (mem : memory) :
  exists c1 c2 : Z -> tUV,
    c1 1%Z = uvPoints 0%Z /\
    c2 (length - 1)%Z = uvPoints (length - 1)%Z /\
    sink (fst (drawBezierCurveOnSmithChart uvPoints length pOptions cr mem))
    = sink cr
      ++ [ op_save;
           op_set_matrix (matrix (mem (orDefault pOptions)));
           op_set_line_width (SRpct (lineWidth (mem (orDefault pOptions))));
           op_set_source_rgba (red (colorLine (mem (orDefault pOptions))))
                              (green (colorLine (mem (orDefault pOptions))))
                              (blue (colorLine (mem (orDefault pOptions))))
                              (alpha (colorLine (mem (orDefault pOptions))));
           op_new_path;
           op_move_to (U (uvPoints 0%Z)) (V (uvPoints 0%Z)) ]
      ++ map (fun k : nat =>
                let i := Z.of_nat k in
                op_curve_to (U (c1 i)) (V (c1 i)) (U (c2 i)) (V (c2 i))
                            (U (uvPoints i)) (V (uvPoints i)))
             (seq 1 (Z.to_nat (length - 1)))
      ++ [ op_stroke; op_restore ].
Proof.
  set (g := fun i : Z =>
              {| A := uvPoints (Z.rem (i + length - 2) length);
                 B := uvPoints (Z.rem (i + length - 1) length) |}).
  set (l := fun i : Z =>
              {| A := uvPoints (Z.rem (i + length + 0) length);
                 B := uvPoints (Z.rem (i + length + 1) length) |}).
  exists (fun i => if (i =? 1)%Z then uvPoints 0%Z
                   else fst (bezierControlPoints (g i) (l i))).
  exists (fun i => if (i =? length - 1)%Z then uvPoints (length - 1)%Z
                   else snd (bezierControlPoints (g i) (l i))).
  split; [reflexivity |].
  split; [rewrite Z.eqb_refl; reflexivity |].
  unfold drawBezierCurveOnSmithChart; cbn [fst].
  unfold cairo_block, andthen, set_source, bezierPath, for_int.
  rewrite sink_cairo_restore.
  unfold cairo_stroke. rewrite sink_emit.
  unfold andthen.
  rewrite (for_loop_sink _ _ _
             (fun i =>
                let c1 := if (i =? 1)%Z then B (g i)
                          else fst (bezierControlPoints (g i) (l i)) in
                let c2 := if (i =? length - 1)%Z then A (l i)
                          else snd (bezierControlPoints (g i) (l i)) in
                op_curve_to (U c1) (V c1) (U c2) (V c2)
                            (U (uvPoints i)) (V (uvPoints i))))
    by (intros k; reflexivity).
  unfold cairo_move_to, cairo_new_path, cairo_set_source_rgba,
    cairo_set_line_width.
  rewrite !sink_emit, sink_cairo_set_matrix, sink_cairo_save.
  rewrite <- !app_assoc. cbn [app]. do 7 f_equal.
  rewrite <- seq_shift, map_map.
  apply (f_equal (fun ops => ops ++ [op_stroke; op_restore])).
  apply map_ext_in. intros k Hk. apply in_seq in Hk.
  assert (Hlen : (1 <= length - 1)%Z) by lia.
  cbv zeta.
  replace (1 + Z.of_nat k)%Z with (Z.of_nat (S k)) by lia.
  set (i := Z.of_nat (S k)).
  assert (Hi : (1 <= i <= length - 1)%Z) by (unfold i; lia).
  clearbody i.
  assert (HB : Z.rem (i + length - 1) length = (i - 1)%Z).
  { replace (i + length - 1)%Z with (i - 1 + length + 0)%Z by lia.
    rewrite wrap_index by lia. lia. }
  assert (HA : Z.rem (i + length + 0) length = i).
  { rewrite wrap_index by lia. lia. }
  destruct (Z.eqb_spec i 1) as [E1 | N1];
    destruct (Z.eqb_spec i (length - 1)) as [E2 | N2];
    unfold g, l; cbn [A B]; rewrite ?HB, ?HA;
    try replace (i - 1)%Z with 0%Z by lia;
    try rewrite <- E2;
    reflexivity.
Qed.

(** X6: for every length whose index sums are [int]s (2*length at most
    [G_MAXINT]), [drawBezierCurveOnSmithChart] sends exactly this: the
    matrix, width and colour of the options, then a path that moves to
    [uvPoints[0]] (whatever the length) and adds one curve for each
    i = 1 .. length-1, in order, ending exactly on [uvPoints[i]]; the first
    curve has the first point as its leading control point, the last curve
    has the last point as its trailing control point; then the stroke. *)
Theorem drawBezierCurve_path (uvPoints : tUV_array) (length : Z)
        (pOptions : options_ptr) (cr : cairo_t) (mem : memory) :
  (2 * length <= G_MAXINT)%Z ->
  exists c1 c2 : Z -> tUV,
    c1 1%Z = uvPoints 0%Z /\
    c2 (length - 1)%Z = uvPoints (length - 1)%Z /\
    sink (fst (drawBezierCurveOnSmithChart uvPoints length pOptions cr mem))
    = sink cr
      ++ [ op_save;
           op_set_matrix (matrix (mem (orDefault pOptions)));
           op_set_line_width (SRpct (lineWidth (mem (orDefault pOptions))));
           op_set_source_rgba (red (colorLine (mem (orDefault pOptions))))
                              (green (colorLine (mem (orDefault pOptions))))
                              (blue (colorLine (mem (orDefault pOptions))))
                              (alpha (colorLine (mem (orDefault pOptions))));
           op_new_path;
           op_move_to (U (uvPoints 0%Z)) (V (uvPoints 0%Z)) ]
      ++ map (fun k : nat =>
                let i := Z.of_nat k in
                op_curve_to (U (c1 i)) (V (c1 i)) (U (c2 i)) (V (c2 i))
                            (U (uvPoints i)) (V (uvPoints i)))
             (seq 1 (Z.to_nat (length - 1)))
      ++ [ op_stroke; op_restore ].
Proof. intros _. apply drawBezierCurve_sink. Qed.

Lemma drawBezierCurve_path_witness :
  exists c1 c2 : Z -> tUV,
    c1 1%Z = exampleCurve 0%Z /\
    c2 (12 - 1)%Z = exampleCurve (12 - 1)%Z /\
    sink (fst (drawBezierCurveOnSmithChart exampleCurve 12 NULL fresh_context
                 (initial_memory (fun _ => optionsS11))))
    = sink fresh_context
      ++ [ op_save;
           op_set_matrix (matrix (initial_memory (fun _ => optionsS11)
                                                 (orDefault NULL)));
           op_set_line_width
             (SRpct (lineWidth (initial_memory (fun _ => optionsS11)
                                               (orDefault NULL))));
           op_set_source_rgba
             (red (colorLine (initial_memory (fun _ => optionsS11) (orDefault NULL))))
             (green (colorLine (initial_memory (fun _ => optionsS11) (orDefault NULL))))
             (blue (colorLine (initial_memory (fun _ => optionsS11) (orDefault NULL))))
             (alpha (colorLine (initial_memory (fun _ => optionsS11) (orDefault NULL))));
           op_new_path;
           op_move_to (U (exampleCurve 0%Z)) (V (exampleCurve 0%Z)) ]
      ++ map (fun k : nat =>
                let i := Z.of_nat k in
                op_curve_to (U (c1 i)) (V (c1 i)) (U (c2 i)) (V (c2 i))
                            (U (exampleCurve i)) (V (exampleCurve i)))
             (seq 1 (Z.to_nat (12 - 1)))
      ++ [ op_stroke; op_restore ].
Proof.
  apply (drawBezierCurve_path exampleCurve 12 NULL fresh_context
                              (initial_memory (fun _ => optionsS11))).
  unfold G_MAXINT. lia.
Defined.


(** ** The control points of the curve fitter *)

Lemma polar_norm (k a : R) :
  0 <= k -> sqrt (SQU (k * cos a) + SQU (k * sin a)) = k.
Proof.
  intros Hk. apply sqrt_of_square; [exact Hk |].
  pose proof (sin2_cos2 a) as H. unfold Rsqr in H. unfold SQU.
  replace (k * cos a * (k * cos a) + k * sin a * (k * sin a))
    with (k * k * (sin a * sin a + cos a * cos a)) by ring.
  rewrite H. ring.
Qed.

(** X7: Both control points lie at a quarter ([CURVE_F]) of the length of
    the segment from its ends: the first from the start of the segment,
    the second from its end - whatever the neighbouring lines are. *)
Theorem bezierControlPoints_distance (g l : tLine) :
  let lgt := sqrt ((U (B g) - U (A l)) ^ 2 + (V (B g) - V (A l)) ^ 2) in
  sqrt (SQU (U (fst (bezierControlPoints g l)) - U (B g))
        + SQU (V (fst (bezierControlPoints g l)) - V (B g)))
  = lgt * CURVE_F /\
  sqrt (SQU (U (snd (bezierControlPoints g l)) - U (A l))
        + SQU (V (snd (bezierControlPoints g l)) - V (A l)))
  = lgt * CURVE_F.
Proof.
  intros lgt.
  assert (Hlgt : 0 <= lgt * CURVE_F).
  { apply Rmult_le_pos; [apply sqrt_pos | unfold CURVE_F; lra]. }
  unfold bezierControlPoints; cbn [fst snd U V]. fold lgt.
  split.
  - match goal with
    | |- context [lgt * cos ?a * CURVE_F] =>
        rewrite <- (polar_norm (lgt * CURVE_F) a Hlgt)
    end.
    f_equal. unfold SQU. ring.
  - match goal with
    | |- context [U (A l) - lgt * cos ?a * CURVE_F] =>
        rewrite <- (polar_norm (lgt * CURVE_F) a Hlgt)
    end.
    f_equal. unfold SQU. ring.
Qed.

(** X8: Along a straight run - the line before and the line after point the
    way of the segment - the control points lie on the segment itself, a
    quarter of the way in from either end: the curve is the straight
    line. *)
Theorem bezierControlPoints_straight (g l : tLine) (k m : R) :
  0 < k -> 0 < m ->
  A l <> B g ->
  U (B g) - U (A g) = k * (U (A l) - U (B g)) ->
  V (B g) - V (A g) = k * (V (A l) - V (B g)) ->
  U (B l) - U (A l) = m * (U (A l) - U (B g)) ->
  V (B l) - V (A l) = m * (V (A l) - V (B g)) ->
  bezierControlPoints g l
  = ({| U := U (B g) + CURVE_F * (U (A l) - U (B g));
        V := V (B g) + CURVE_F * (V (A l) - V (B g)) |},
     {| U := U (A l) - CURVE_F * (U (A l) - U (B g));
        V := V (A l) - CURVE_F * (V (A l) - V (B g)) |}).
Proof.
  intros Hk Hm Hne HgU HgV HlU HlV.
  set (dU := U (A l) - U (B g)) in *. set (dV := V (A l) - V (B g)) in *.
  assert (Hd : 0 < dU * dU + dV * dV).
  { destruct (Req_dec dU 0) as [EU | NU].
    - destruct (Req_dec dV 0) as [EV | NV].
      + exfalso. apply Hne. destruct (A l) as [a b], (B g) as [c d].
        cbn [U V] in *. unfold dU, dV in *. f_equal; lra.
      + rewrite EU. assert (0 < dV * dV) by nra. lra.
    - assert (0 < dU * dU) by nra. pose proof (Rle_0_sqr dV) as H0.
      unfold Rsqr in H0. lra. }
  set (lgt := sqrt ((U (B g) - U (A l)) ^ 2 + (V (B g) - V (A l)) ^ 2)).
  assert (Hsq : lgt * lgt = dU * dU + dV * dV).
  { unfold lgt. rewrite sqrt_sqrt; unfold dU, dV; [ring |].
    pose proof (pow2_ge_0 (U (B g) - U (A l))).
    pose proof (pow2_ge_0 (V (B g) - V (A l))). lra. }
  assert (Hpos : 0 < lgt).
  { unfold lgt. apply sqrt_lt_R0.
    replace ((U (B g) - U (A l)) ^ 2 + (V (B g) - V (A l)) ^ 2)
      with (dU * dU + dV * dV) by (unfold dU, dV; ring).
    exact Hd. }
  assert (Hdir : forall c x y : R,
             0 < c -> x = c * dU -> y = c * dV ->
             lgt * cos (atan2 y x) = dU /\ lgt * sin (atan2 y x) = dV).
  { intros c x y Hc -> ->.
    destruct (atan2_polar (c * dU) (c * dV) (c * lgt)) as [Hcos Hsin].
    - apply Rmult_lt_0_compat; assumption.
    - replace (c * lgt * (c * lgt)) with (c * c * (lgt * lgt)) by ring.
      rewrite Hsq. ring.
    - split; apply (Rmult_eq_reg_l c); try lra;
        rewrite <- Rmult_assoc; assumption. }
  destruct (Hdir k _ _ Hk HgU HgV) as [Hgc Hgs].
  destruct (Hdir m _ _ Hm HlU HlV) as [Hlc Hls].
  unfold bezierControlPoints. fold lgt.
  unfold angle at 2 4; cbn [A B U V]. unfold angle in *.
  rewrite Hgc, Hgs, Hlc, Hls.
  destruct (Hdir 2 (U (A l) - (U (B g) - dU)) (V (A l) - (V (B g) - dV)))
    as [H1c H1s]; [lra | unfold dU; ring | unfold dV; ring |].
  destruct (Hdir 2 (U (A l) + dU - U (B g)) (V (A l) + dV - V (B g)))
    as [H2c H2s]; [lra | unfold dU; ring | unfold dV; ring |].
  cbn [A B U V]. rewrite H1c, H1s, H2c, H2s.
  f_equal; f_equal; ring.
Qed.

Lemma bezierControlPoints_straight_witness :
  bezierControlPoints {| A := mkUV 0 0; B := mkUV 1 0 |}
                      {| A := mkUV 2 0; B := mkUV 3 0 |}
  = ({| U := 1 + CURVE_F * (2 - 1); V := 0 + CURVE_F * (0 - 0) |},
     {| U := 2 - CURVE_F * (2 - 1); V := 0 - CURVE_F * (0 - 0) |}).
Proof.
  apply (bezierControlPoints_straight
           {| A := mkUV 0 0; B := mkUV 1 0 |}
           {| A := mkUV 2 0; B := mkUV 3 0 |} 1 1); cbn [A B U V]; try lra.
  intros E. inversion E. lra.
Defined.

(** ** The loops of the grid *)

(** X9: A region table that reaches its [END] entry through regions of
    positive minor increment is drawn in finitely many steps. *)
Theorem drawImmittanceGrid_terminates (zones : list tRegion)
        (zones_is_sparseGrid : bool) :
  END_terminated zones ->
  returns (fun fuel => drawImmittanceGrid fuel zones zones_is_sparseGrid).
Proof. apply drawImmittanceGrid_returns. Qed.

Lemma drawImmittanceGrid_terminates_witness :
  returns (fun fuel => drawImmittanceGrid fuel stdGrid false) /\
  returns (fun fuel => drawImmittanceGrid fuel sparseGrid true).
Proof.
  split.
  - apply (drawImmittanceGrid_terminates stdGrid false).
    exact stdGrid_END_terminated.
  - apply (drawImmittanceGrid_terminates sparseGrid true).
    exact sparseGrid_END_terminated.
Defined.

Lemma sweep_stuck (fuel : nat) (v limit inc : R) (ticks : Z)
      (body : R -> Z -> cairo) :
  inc <= 0 -> v <= limit -> sweep fuel v limit inc ticks body = None.
Proof.
  intros Hinc. revert v ticks.
  induction fuel as [| fuel IH]; intros v ticks Hv; [reflexivity |].
  rewrite sweep_in by exact Hv.
  rewrite IH by lra. reflexivity.
Qed.

(** X10: What keeps the grid loops from ever finishing: a block whose minor
    increment is zero or negative, while its first resistance circle is
    within the limit, is not drawn with any amount of fuel - the loop
    variable never passes the limit; and a table in which no entry is
    [END] is read past its last entry. *)
Theorem grid_loops_that_never_end :
  (forall (fuel : nat) (RXstart RXend : tRX) (minorInc : R) (minorPerMajor : Z),
      minorInc <= 0 ->
      Rr RXstart + minorInc <= Rr RXend + minorInc / 2.0 ->
      drawBlock fuel RXstart RXend minorInc minorPerMajor = None) /\
  (forall (fuel : nat) (index : Z) (z znext : tRegion),
      minorPerMajorDiv z <> SPECIAL_CASE ->
      minorDiv z <= 0 ->
      minorDiv z / 2 <= region znext ->
      drawBand fuel index z (Some znext) = None) /\
  (forall (fuel : nat) (index : Z) (zs : list tRegion),
      Forall (fun z => minorPerMajorDiv z <> END) zs ->
      drawBands fuel index zs = None).
Proof.
  assert (Hblock : forall (fuel : nat) (RXstart RXend : tRX) (minorInc : R)
                          (minorPerMajor : Z),
             minorInc <= 0 ->
             Rr RXstart + minorInc <= Rr RXend + minorInc / 2.0 ->
             drawBlock fuel RXstart RXend minorInc minorPerMajor = None).
  { intros fuel RXstart RXend minorInc minorPerMajor Hinc Hv.
    unfold drawBlock. rewrite sweep_stuck by assumption. reflexivity. }
  split; [exact Hblock | split].
  - intros fuel index z znext Hsp Hinc Hnext. unfold drawBand.
    destruct (Z.eqb_spec (minorPerMajorDiv z) SPECIAL_CASE) as [E | _];
      [contradiction |].
    rewrite Hblock; [reflexivity | exact Hinc |].
    cbn [Rr]. rewrite lit_0_0, lit_2_0. lra.
  - intros fuel index zs Hzs. revert index.
    induction Hzs as [| z zs Hz _ IH]; intros index; [reflexivity |].
    cbn [drawBands].
    destruct (Z.eqb_spec (minorPerMajorDiv z) END) as [E | _];
      [contradiction |].
    rewrite IH. destruct (drawBand fuel index z (hd_error zs)); reflexivity.
Qed.

Lemma grid_loops_that_never_end_witness :
  drawBlock 100 {| Rr := 0; X := 0 |} {| Rr := 1; X := 1 |} 0 5 = None /\
  drawBands 100 0 [ mkRegion 0 0.1 5; mkRegion 1 0.2 5 ] = None.
Proof.
  split.
  - apply (proj1 grid_loops_that_never_end); cbn [Rr]; lra.
  - apply (proj2 (proj2 grid_loops_that_never_end)).
    repeat constructor; cbn; discriminate.
Defined.






(** ** Where the chart is put, and what is plotted on it afterwards *)

Lemma ring_scale (radius : R) :
  radius / (OUTER_BOUNDARY_WITH_RING / SMITH_RADIUS)
  = radius / OUTER_BOUNDARY_WITH_RING.
Proof.
  unfold OUTER_BOUNDARY_WITH_RING, WAVE_RING_RADIUS, ANGLE_RING_RADIUS,
    SMITH_RADIUS.
  unlit. field; lra.
Qed.

Lemma transform_chart_matrix (m : cairo_matrix_t) (cx cy s : R) (uv : tUV) :
  transform_point (matrix_scale (matrix_translate m cx cy) s (- s)) uv
  = transform_point m {| U := cx + s * U uv; V := cy - s * V uv |}.
Proof.
  unfold transform_point, matrix_scale, matrix_translate; cbn [xx yx xy yy x0 y0 U V].
  f_equal; ring.
Qed.

Lemma chart_transform
        (cairo_text_extents : cairo_t -> string -> cairo_text_extents_t)
        (g_strdup_printf_2f : R -> string)
        (centerX centerY radius : R)
        (pOptions : options_ptr) (cr : cairo_t) (mem : memory) :
  exists fuel0 : nat, forall fuel : nat, (fuel0 <= fuel)%nat ->
    exists (cr' : cairo_t) (mem' : memory),
      drawSmithChart cairo_text_extents g_strdup_printf_2f
                     fuel centerX centerY radius pOptions cr mem
      = Some (cr', mem') /\
      ctm cr' = ctm cr /\
      saved cr' = saved cr /\
      forall uv : tUV,
        transform_point (matrix (mem' (orDefault pOptions))) uv
        = transform_point (ctm cr)
            {| U := centerX
                    + radius / (if bDrawRing (flags (mem (orDefault pOptions)))
                                then OUTER_BOUNDARY_WITH_RING
                                else SMITH_RADIUS) * U uv;
               V := centerY
                    - radius / (if bDrawRing (flags (mem (orDefault pOptions)))
                                then OUTER_BOUNDARY_WITH_RING
                                else SMITH_RADIUS) * V uv |}.
Proof.
  destruct (chartBody_returns cairo_text_extents g_strdup_printf_2f centerX centerY
              (if bDrawRing (flags (mem (orDefault pOptions)))
               then radius / (OUTER_BOUNDARY_WITH_RING / SMITH_RADIUS)
               else radius)
              (mem (orDefault pOptions))) as [fuel0 Hbody].
  exists fuel0. intros fuel Hfuel.
  destruct (Hbody fuel Hfuel) as [body Ebody].
  assert (Erun : exists cr' mem',
             drawSmithChart cairo_text_extents g_strdup_printf_2f
                            fuel centerX centerY radius pOptions cr mem
             = Some (cr', mem')).
  { unfold drawSmithChart. rewrite Ebody. eexists. eexists. reflexivity. }
  destruct Erun as (cr' & mem' & Erun).
  exists cr', mem'. split; [exact Erun |].
  destruct (chart_matrix_cached cairo_text_extents g_strdup_printf_2f
              fuel centerX centerY radius pOptions cr cr' mem mem' Erun)
    as (Hm & Hctm & Hsaved).
  split; [exact Hctm | split; [exact Hsaved |]].
  intros uv. rewrite Hm, transform_chart_matrix.
  destruct (bDrawRing (flags (mem (orDefault pOptions)))).
  - rewrite ring_scale. reflexivity.
  - unfold SMITH_RADIUS. rewrite lit_1_0. unfold Rdiv. rewrite Rinv_1, Rmult_1_r.
    reflexivity.
Qed.

(** X12: [drawSmithChart] returns (given enough fuel for the sweeps of the
    grid), hands the context back with the matrix and the stack of saved
    matrices it had, and leaves in the options the matrix that puts the
    chart where it was asked for: the chart point (U, V) goes where the
    caller's matrix puts (centerX + s U, centerY - s V), with s the
    requested radius over the radius of what is drawn - the outer boundary
    of the rings if they are drawn, the unit circle if not. *)
Theorem chart_placement
        (cairo_text_extents : cairo_t -> string -> cairo_text_extents_t)
        (g_strdup_printf_2f : R -> string)
        (centerX centerY radius : R)
        (pOptions : options_ptr) (cr : cairo_t) (mem : memory) :
  exists fuel0 : nat, forall fuel : nat, (fuel0 <= fuel)%nat ->
    exists (cr' : cairo_t) (mem' : memory),
      drawSmithChart cairo_text_extents g_strdup_printf_2f
                     fuel centerX centerY radius pOptions cr mem
      = Some (cr', mem') /\
      ctm cr' = ctm cr /\
      saved cr' = saved cr /\
      forall uv : tUV,
        transform_point (matrix (mem' (orDefault pOptions))) uv
        = transform_point (ctm cr)
            {| U := centerX
                    + radius / (if bDrawRing (flags (mem (orDefault pOptions)))
                                then OUTER_BOUNDARY_WITH_RING
                                else SMITH_RADIUS) * U uv;
               V := centerY
                    - radius / (if bDrawRing (flags (mem (orDefault pOptions)))
                                then OUTER_BOUNDARY_WITH_RING
                                else SMITH_RADIUS) * V uv |}.
Proof. apply chart_transform. Qed.


Lemma chart_placement_witness :
  exists fuel0 : nat, forall fuel : nat, (fuel0 <= fuel)%nat ->
    exists (cr' : cairo_t) (mem' : memory),
      drawSmithChart (fun _ _ => mkExtents 0 0 0 0 0 0) (fun _ => "0.00")
                     fuel 500 500 490 (Some (addr_caller 0)) fresh_context
                     (initial_memory (fun _ => optionsS11))
      = Some (cr', mem') /\
      ctm cr' = ctm fresh_context.
Proof.
  destruct (chart_placement (fun _ _ => mkExtents 0 0 0 0 0 0) (fun _ => "0.00")
                            500 500 490 (Some (addr_caller 0)) fresh_context
                            (initial_memory (fun _ => optionsS11)))
    as [fuel0 H].
  exists fuel0. intros fuel Hfuel.
  destruct (H fuel Hfuel) as (cr' & mem' & E & Hc & _).
  exists cr', mem'. split; assumption.
Defined.

Lemma keeps_for_loop (n : nat) (i : Z) (body : Z -> cairo) :
  (forall j, keeps_stack (body j)) -> keeps_stack (for_loop n i body).
Proof.
  intros Hb. revert i. induction n as [| n IH]; intros i; cbn [for_loop].
  - apply keeps_skip.
  - apply keeps_andthen; [apply Hb | apply IH].
Qed.

Lemma keeps_cairo_set_matrix (m : cairo_matrix_t) :
  keeps_stack (cairo_set_matrix m).
Proof.
  unfold cairo_set_matrix. apply keeps_andthen; [apply keeps_set_ctm | apply keeps_emit].
Qed.

Lemma balanced_drawBezierCurve (uvPoints : tUV_array) (length : Z)
      (pOptions : options_ptr) (mem : memory) :
  balanced (fun cr => fst (drawBezierCurveOnSmithChart uvPoints length pOptions cr mem)).
Proof.
  unfold drawBezierCurveOnSmithChart; cbn [fst].
  apply (balanced_block (_ ;; _)).
  apply keeps_andthen; [apply keeps_cairo_set_matrix |].
  unfold bezierPath, for_int.
  stack_tac. apply keeps_for_loop. intros j. unfold bezierSegment. stack_tac.
Qed.

Lemma balanced_drawPoint (uvPoint : tUV) (pOptions : options_ptr) (mem : memory) :
  balanced (fun cr => fst (drawPointOnSmithChart uvPoint pOptions cr mem)).
Proof.
  unfold drawPointOnSmithChart; cbn [fst].
  apply (balanced_block (_ ;; _)).
  apply keeps_andthen; [apply keeps_cairo_set_matrix |]. stack_tac.
Qed.

Lemma balanced_annotatePoint
      (cairo_text_extents : cairo_t -> string -> cairo_text_extents_t)
      (sLabel : string) (uv : tUV) (bLeft : bool)
      (pOptions : options_ptr) (mem : memory) :
  balanced (fun cr => fst (annotatePointOnSmithChart cairo_text_extents sLabel uv
                                                     bLeft pOptions cr mem)).
Proof.
  unfold annotatePointOnSmithChart; cbn [fst].
  apply (balanced_block (_ ;; _)).
  apply keeps_andthen; [apply keeps_cairo_set_matrix |]. stack_tac.
Qed.

Lemma cached_matrix_block (m : cairo_matrix_t) (rest : cairo) :
  keeps_stack rest -> extends_sink rest ->
  plots_under m (cairo_block (cairo_set_matrix m ;; rest)).
Proof.
  intros Hkeeps Hrest cr.
  destruct (balanced_block (cairo_set_matrix m ;; rest)) with (cr := cr)
    as [Hc Hs].
  { apply keeps_andthen; [apply keeps_cairo_set_matrix | exact Hkeeps]. }
  split; [exact Hc | split; [exact Hs |]].
  destruct (Hrest (cairo_set_matrix m (cairo_save cr))) as [ops E].
  exists ops.
  change (cairo_block (cairo_set_matrix m ;; rest) cr)
    with (cairo_restore (rest (cairo_set_matrix m (cairo_save cr)))).
  rewrite sink_cairo_restore, E, sink_cairo_set_matrix, sink_cairo_save.
  rewrite <- !app_assoc. reflexivity.
Qed.

(** X13: Each of the five plotting routines saves the context, replaces
    its matrix by the one cached in the options, draws, and restores: all
    it sends lies between the [cairo_save], [cairo_set_matrix] of the cached
    matrix and the [cairo_restore], and the context comes back with the
    matrix and the stack of saved matrices it was given. *)
Theorem plotting_restores_context
        (cairo_text_extents : cairo_t -> string -> cairo_text_extents_t)
        (pOptions : options_ptr) (mem : memory) :
  (forall uvFrom uvTo : tUV,
      plots_under (matrix (mem (orDefault pOptions)))
        (fun cr => fst (drawLineOnSmithChart uvFrom uvTo pOptions cr mem))) /\
  (forall (uvPoints : tUV_array) (length : Z),
      plots_under (matrix (mem (orDefault pOptions)))
        (fun cr => fst (drawLineArrayOnSmithChart uvPoints length
                                                  pOptions cr mem))) /\
  (forall (uvPoints : tUV_array) (length : Z),
      plots_under (matrix (mem (orDefault pOptions)))
        (fun cr => fst (drawBezierCurveOnSmithChart uvPoints length
                                                    pOptions cr mem))) /\
  (forall uvPoint : tUV,
      plots_under (matrix (mem (orDefault pOptions)))
        (fun cr => fst (drawPointOnSmithChart uvPoint pOptions cr mem))) /\
  (forall (sLabel : string) (uv : tUV) (bLeft : bool),
      plots_under (matrix (mem (orDefault pOptions)))
        (fun cr => fst (annotatePointOnSmithChart cairo_text_extents
                          sLabel uv bLeft pOptions cr mem))).
Proof.
  split; [| split; [| split; [| split]]]; intros.
  - unfold drawLineOnSmithChart; cbn [fst].
    apply (cached_matrix_block _ (_ ;; _)); [stack_tac | extends_tac].
  - unfold drawLineArrayOnSmithChart; cbn [fst].
    apply (cached_matrix_block _ (_ ;; _)); unfold for_int.
    + stack_tac. apply keeps_for_loop. intros j. stack_tac.
    + extends_tac. destruct (_ =? 0)%Z; extends_tac.
  - unfold drawBezierCurveOnSmithChart; cbn [fst].
    apply (cached_matrix_block _ (_ ;; _)); unfold bezierPath, for_int.
    + stack_tac. apply keeps_for_loop. intros j. unfold bezierSegment. stack_tac.
    + extends_tac. unfold bezierSegment. extends_tac.
  - unfold drawPointOnSmithChart; cbn [fst].
    apply (cached_matrix_block _ (_ ;; _)); [stack_tac | extends_tac].
  - unfold annotatePointOnSmithChart; cbn [fst].
    apply (cached_matrix_block _ (_ ;; _)); [stack_tac |].
    extends_tac.
    destruct bLeft;
      [apply extends_leftJustifiedClearText | apply extends_rightJustifiedClearText].
Qed.

Lemma initialise_at (p : loc) (o : tSmithOptions) (mem : memory) :
  initialise p o mem p = o.
Proof.
  unfold initialise.
  destruct (loc_eqb p p) eqn:E; [reflexivity |].
  assert (H : loc_eqb p p = true) by (apply loc_eqb_eq; reflexivity).
  congruence.
Qed.

Lemma initialise_elsewhere (p q : loc) (o : tSmithOptions) (mem : memory) :
  q <> p -> initialise p o mem q = mem q.
Proof.
  intros Hq. unfold initialise.
  destruct (loc_eqb q p) eqn:E; [| reflexivity].
  apply loc_eqb_eq in E. contradiction.
Qed.

Lemma drawPoint_sink (uvPoint : tUV) (pOptions : options_ptr)
      (cr : cairo_t) (mem : memory) :
  sink (fst (drawPointOnSmithChart uvPoint pOptions cr mem))
  = sink cr
    ++ [ op_save;
         op_set_matrix (matrix (mem (orDefault pOptions)));
         op_set_line_width 0.0;
         op_set_source_rgba (red (colorLine (mem (orDefault pOptions))))
                            (green (colorLine (mem (orDefault pOptions))))
                            (blue (colorLine (mem (orDefault pOptions))))
                            (alpha (colorLine (mem (orDefault pOptions))));
         op_new_path;
         op_arc (U uvPoint) (V uvPoint)
                (SRpct (pointWidth (mem (orDefault pOptions)))) 0 (2.0 * PI);
         op_fill;
         op_stroke;
         op_restore ].
Proof.
  unfold drawPointOnSmithChart; cbn [fst].
  unfold cairo_block, andthen. rewrite sink_cairo_restore.
  unfold cairo_stroke, cairo_fill, cairo_arc, cairo_new_path,
    set_source, cairo_set_source_rgba, cairo_set_line_width.
  rewrite !sink_emit, sink_cairo_set_matrix, sink_cairo_save.
  rewrite <- !app_assoc. reflexivity.
Qed.

(** A left-justified annotation: the set-up, the cleared rectangle of the
    text (its size is what the font backend answers for the label), and
    the text. *)
Lemma annotatePoint_left_sink
      (cairo_text_extents : cairo_t -> string -> cairo_text_extents_t)
      (sLabel : string) (uv : tUV) (pOptions : options_ptr)
      (cr : cairo_t) (mem : memory) :
  let o := mem (orDefault pOptions) in
  let fontSize :=
    if (annotationFontSize o =? 0)%Z
    then 2 * LABELFONTSIZE
    else IZR (annotationFontSize o) / 100.0 * SMITH_RADIUS in
  exists extents : cairo_text_extents_t,
    sink (fst (annotatePointOnSmithChart cairo_text_extents sLabel uv true
                                         pOptions cr mem))
    = sink cr
      ++ [ op_save;
           op_set_matrix (matrix o);
           op_set_line_width 0.0;
           op_set_source_rgba (red (colorAnnotation o)) (green (colorAnnotation o))
                              (blue (colorAnnotation o)) (alpha (colorAnnotation o));
           op_select_font_face (match annotationFont o with
                                | Some font => font
                                | None => LABEL_FONT
                                end);
           op_set_font_matrix (mkMatrix fontSize 0 0 (- fontSize) 0 0);
           op_save;
           op_set_operator CAIRO_OPERATOR_CLEAR;
           op_new_path;
           op_rectangle (U uv + (fontSize * 0.5)) (V uv - (fontSize * 0.3))
                        (width extents + x_bearing extents)
                        (height extents + y_bearing extents);
           op_stroke_preserve;
           op_fill;
           op_restore;
           op_move_to (U uv + (fontSize * 0.5)) (V uv - (fontSize * 0.3));
           op_show_text sLabel;
           op_restore ].
Proof.
  intros o fontSize.
  unfold annotatePointOnSmithChart; cbn [fst]. fold o. fold fontSize.
  unfold leftJustifiedClearText, with_text_extents, cairo_block, andthen.
  eexists.
  rewrite sink_cairo_restore.
  unfold cairo_show_text, cairo_move_to. rewrite !sink_emit.
  rewrite sink_cairo_restore.
  unfold cairo_fill, cairo_stroke_preserve, cairo_rectangle, cairo_new_path,
    cairo_set_operator.
  rewrite !sink_emit, sink_cairo_save.
  unfold setCairoFontSize, cairo_set_font_matrix, cairo_select_font_face,
    set_source, cairo_set_source_rgba, cairo_set_line_width.
  rewrite !sink_emit, sink_cairo_set_matrix, sink_cairo_save.
  rewrite <- !app_assoc. reflexivity.
Qed.

(** ** The drawing callback of the example program *)

(** X14: What [CB_drawingArea_SmithS11] draws for a drawing area of any size.
    First the chart with its rings, centred in the area, the boundary of
    the rings at 98% of half the smaller dimension.  Then, each between a
    save with the matrix M the chart left in [optionsS11] and a restore:
    the curve through the twelve points of [exampleCurve], in line width
    0.25 and the line colour - a move to the first point and eleven
    curves, each ending on its point; the point at the transform of
    (0.9, 1.1), a filled full circle of radius 0.6 percent; and its
    annotation, the text 70.25 MHz in the annotation colour and the label
    font at twice the label size, to the right of the point on a cleared
    rectangle.  The callback returns, hands the context back with the
    matrix and the stack it was given, and changes no options object but
    its own. *)
Theorem CB_drawingArea_SmithS11_draws
        (cairo_text_extents : cairo_t -> string -> cairo_text_extents_t)
        (g_strdup_printf_2f : R -> string)
        (a : nat) (areaWidth areaHeight : Z) (cr : cairo_t) (mem : memory) :
  let centerX := IZR areaWidth / 2.0 in
  let centerY := IZR areaHeight / 2.0 in
  let smithRadius := IZR (Z.min areaHeight areaWidth) / 2.0 * (IZR SIZE_PCT / 100.0) in
  let s := smithRadius / (OUTER_BOUNDARY_WITH_RING / SMITH_RADIUS) in
  let M := matrix_scale (matrix_translate (ctm cr) centerX centerY) s (- s) in
  let uv := RXtoUV {| Rr := 0.9; X := 1.1 |} in
  let fontSize := 2 * LABELFONTSIZE in
  exists fuel0 : nat, forall fuel : nat, (fuel0 <= fuel)%nat ->
    exists (cr1 cr' : cairo_t) (mem1 mem' : memory)
           (c1 c2 : Z -> tUV) (extents : cairo_text_extents_t),
      drawSmithChart cairo_text_extents g_strdup_printf_2f
                     fuel centerX centerY smithRadius (Some (addr_caller a)) cr
                     (initialise (addr_caller a) optionsS11 mem)
      = Some (cr1, mem1) /\
      CB_drawingArea_SmithS11 cairo_text_extents g_strdup_printf_2f
                              fuel a areaWidth areaHeight cr mem
      = Some (cr', mem') /\
      c1 1%Z = exampleCurve 0%Z /\
      c2 11%Z = exampleCurve 11%Z /\
      sink cr'
      = sink cr1
        ++ ([ op_save;
              op_set_matrix M;
              op_set_line_width (SRpct 0.25);
              op_set_source_rgba 0.0 0.0 0.5 1.0;
              op_new_path;
              op_move_to (U (exampleCurve 0%Z)) (V (exampleCurve 0%Z)) ]
            ++ map (fun k : nat =>
                      let i := Z.of_nat k in
                      op_curve_to (U (c1 i)) (V (c1 i)) (U (c2 i)) (V (c2 i))
                                  (U (exampleCurve i)) (V (exampleCurve i)))
                   (seq 1 11)
            ++ [ op_stroke; op_restore ])
        ++ [ op_save;
             op_set_matrix M;
             op_set_line_width 0.0;
             op_set_source_rgba 0.0 0.0 0.5 1.0;
             op_new_path;
             op_arc (U uv) (V uv) (SRpct 0.6) 0 (2.0 * PI);
             op_fill;
             op_stroke;
             op_restore ]
        ++ [ op_save;
             op_set_matrix M;
             op_set_line_width 0.0;
             op_set_source_rgba 0.0 0.5 0.0 1.0;
             op_select_font_face LABEL_FONT;
             op_set_font_matrix (mkMatrix fontSize 0 0 (- fontSize) 0 0);
             op_save;
             op_set_operator CAIRO_OPERATOR_CLEAR;
             op_new_path;
             op_rectangle (U uv + (fontSize * 0.5)) (V uv - (fontSize * 0.3))
                          (width extents + x_bearing extents)
                          (height extents + y_bearing extents);
             op_stroke_preserve;
             op_fill;
             op_restore;
             op_move_to (U uv + (fontSize * 0.5)) (V uv - (fontSize * 0.3));
             op_show_text "70.25 MHz";
             op_restore ] /\
      ctm cr' = ctm cr /\
      saved cr' = saved cr /\
      forall q : loc, q <> addr_caller a -> mem' q = mem q.
Proof.
  intros centerX centerY smithRadius s M uv fontSize.
  set (mem0 := initialise (addr_caller a) optionsS11 mem).
  destruct (chartBody_returns cairo_text_extents g_strdup_printf_2f
              centerX centerY s (mem0 (addr_caller a))) as [fuel0 Hbody].
  exists fuel0. intros fuel Hfuel.
  destruct (Hbody fuel Hfuel) as [body Ebody].
  assert (Hflag : bDrawRing (flags (mem0 (addr_caller a))) = true).
  { unfold mem0. rewrite initialise_at. reflexivity. }
  assert (Erun : drawSmithChart cairo_text_extents g_strdup_printf_2f
                   fuel centerX centerY smithRadius (Some (addr_caller a)) cr mem0
                 = Some (cairo_restore ((cairo_save ;; body) cr),
                         cairo_get_matrix ((cairo_save ;; body) cr)
                                          (addr_caller a) mem0)).
  { unfold drawSmithChart. cbn [orDefault]. rewrite Hflag.
    fold s. rewrite Ebody. reflexivity. }
  set (cr1 := cairo_restore ((cairo_save ;; body) cr)) in *.
  set (mem1 := cairo_get_matrix ((cairo_save ;; body) cr) (addr_caller a) mem0) in *.
  destruct (chart_matrix_cached cairo_text_extents g_strdup_printf_2f
              fuel centerX centerY smithRadius (Some (addr_caller a))
              cr cr1 mem0 mem1 Erun) as (Hm & Hctm & Hsaved).
  cbn [orDefault] in Hm. rewrite Hflag in Hm. fold s in Hm. fold M in Hm.
  assert (Hobj : mem1 (addr_caller a) = with_matrix optionsS11 M).
  { rewrite <- Hm. unfold mem1, cairo_get_matrix. cbn [loc_eqb].
    rewrite Nat.eqb_refl. unfold mem0. rewrite initialise_at. reflexivity. }
  assert (Hframe : forall q : loc, q <> addr_caller a -> mem1 q = mem q).
  { intros q Hq. unfold mem1, mem0.
    rewrite cairo_get_matrix_elsewhere by exact Hq.
    apply initialise_elsewhere. exact Hq. }
  unfold CB_drawingArea_SmithS11.
  fold mem0. fold centerX centerY smithRadius. fold uv.
  rewrite Erun.
  set (p := Some (addr_caller a)) in *.
  assert (Hp : orDefault p = addr_caller a) by reflexivity.
  clearbody cr1 mem1 uv p M.
  destruct (drawBezierCurveOnSmithChart exampleCurve 12 p cr1 mem1)
    as [cr2 mem2] eqn:Ecurve.
  destruct (drawPointOnSmithChart uv p cr2 mem2) as [cr3 mem3] eqn:Epoint.
  destruct (annotatePointOnSmithChart cairo_text_extents "70.25 MHz" uv true
                                      p cr3 mem3) as [cr4 mem4] eqn:Etext.
  assert (Hmem2 : mem2 = mem1) by (apply (f_equal snd) in Ecurve; exact (eq_sym Ecurve)).
  subst mem2.
  assert (Hmem3 : mem3 = mem1) by (apply (f_equal snd) in Epoint; exact (eq_sym Epoint)).
  subst mem3.
  assert (Hmem4 : mem4 = mem1) by (apply (f_equal snd) in Etext; exact (eq_sym Etext)).
  subst mem4.
  apply (f_equal fst) in Ecurve, Epoint, Etext. cbn [fst] in Ecurve, Epoint, Etext.
  destruct (drawBezierCurve_sink exampleCurve 12 p cr1 mem1)
    as (c1 & c2 & Hc1 & Hc2 & E2).
  rewrite Ecurve, Hp, Hobj in E2.
  pose proof (drawPoint_sink uv p cr2 mem1) as E3.
  rewrite Epoint, Hp, Hobj in E3.
  destruct (annotatePoint_left_sink cairo_text_extents "70.25 MHz" uv p cr3 mem1)
    as [extents E4].
  rewrite Etext, Hp, Hobj in E4.
  destruct (balanced_drawBezierCurve exampleCurve 12 p mem1 cr1) as [Hb2 Hs2].
  destruct (balanced_drawPoint uv p mem1 cr2) as [Hb3 Hs3].
  destruct (balanced_annotatePoint cairo_text_extents "70.25 MHz" uv true
              p mem1 cr3) as [Hb4 Hs4].
  rewrite Ecurve in Hb2, Hs2. rewrite Epoint in Hb3, Hs3.
  rewrite Etext in Hb4, Hs4.
  exists cr1, cr4, mem1, mem1, c1, c2, extents.
  split; [reflexivity |].
  split; [reflexivity |].
  split; [exact Hc1 |].
  split; [exact Hc2 |].
  split.
  { rewrite E4, E3, E2. rewrite <- !app_assoc. reflexivity. }
  split; [congruence | split; [congruence |]].
  exact Hframe.
Qed.

Lemma CB_drawingArea_SmithS11_draws_witness :
  exists fuel0 : nat, forall fuel : nat, (fuel0 <= fuel)%nat ->
    exists (cr' : cairo_t) (mem' : memory),
      CB_drawingArea_SmithS11 (fun _ _ => mkExtents 0 0 0 0 0 0) (fun _ => "0.00")
                              fuel 0 1000 800 fresh_context
                              (initial_memory (fun _ => defaultOptions))
      = Some (cr', mem') /\
      ctm cr' = ctm fresh_context.
Proof.
  destruct (CB_drawingArea_SmithS11_draws
              (fun _ _ => mkExtents 0 0 0 0 0 0) (fun _ => "0.00")
              0 1000 800 fresh_context (initial_memory (fun _ => defaultOptions)))
    as [fuel0 H].
  exists fuel0. intros fuel Hfuel.
  destruct (H fuel Hfuel) as (cr1 & cr' & mem1 & mem' & c1 & c2 & extents
                              & _ & E & _ & _ & _ & Hc & _).
  exists cr', mem'. split; assumption.
Defined.

(** ** The two halves of the grid *)

Lemma Rarc_point (rArc x : R) :
  -1 < rArc ->
  arc_point (rArc / (rArc + 1)) 0 (1 / (rArc + 1))
            (angleR {| Rr := rArc; X := x |})
  = RXtoUV {| Rr := rArc; X := x |}.
Proof.
  intros Hr.
  pose proof (Rcircle_distance rArc x Hr) as Hd.
  assert (Hrad : 0 < 1 / (rArc + 1)).
  { apply Rmult_lt_0_compat; [lra | apply Rinv_0_lt_compat; lra]. }
  unfold angleR; cbn [Rr X]. rewrite lit_1_0. unfold arc_point.
  destruct (atan2_polar
              (U (RXtoUV {| Rr := rArc; X := x |}) - rArc / (rArc + 1))
              (V (RXtoUV {| Rr := rArc; X := x |}))
              (1 / (rArc + 1)) Hrad) as [Hc Hs].
  { unfold SQU in Hd. exact Hd. }
  rewrite Hc, Hs.
  destruct (RXtoUV {| Rr := rArc; X := x |}) as [u v]; cbn [U V].
  f_equal; ring.
Qed.

Lemma Xarc_point (xArc r : R) :
  xArc <> 0 -> Zplus1_magSqu {| Rr := r; X := xArc |} <> 0 ->
  arc_point 1 (1 / xArc) (fabs (1 / xArc)) (angleX {| Rr := r; X := xArc |})
  = RXtoUV {| Rr := r; X := xArc |}.
Proof.
  intros Hx HD.
  pose proof (Xcircle_distance xArc r Hx HD) as Hd.
  assert (Hrad : 0 < Rabs (1 / xArc)).
  { apply Rabs_pos_lt. unfold Rdiv. rewrite Rmult_1_l.
    apply Rinv_neq_0_compat. exact Hx. }
  unfold angleX, fabs; cbn [Rr X]. rewrite lit_1_0. unfold arc_point.
  destruct (atan2_polar
              (U (RXtoUV {| Rr := r; X := xArc |}) - 1)
              (V (RXtoUV {| Rr := r; X := xArc |}) - 1 / xArc)
              (Rabs (1 / xArc)) Hrad) as [Hc Hs].
  { unfold SQU in Hd. exact Hd. }
  rewrite Hc, Hs.
  destruct (RXtoUV {| Rr := r; X := xArc |}) as [u v]; cbn [U V].
  f_equal; ring.
Qed.

Lemma RXtoUV_negated_reactance (r x : R) :
  RXtoUV {| Rr := r; X := - x |}
  = {| U := U (RXtoUV {| Rr := r; X := x |});
       V := - V (RXtoUV {| Rr := r; X := x |}) |}.
Proof.
  unfold RXtoUV; cbn [U V Rr X]. unfold Zplus1_magSqu, SQU; cbn [Rr X].
  rewrite lit_1_0, lit_2_0.
  replace (r * r + - x * - x + r * 2 + 1) with (r * r + x * x + r * 2 + 1) by ring.
  replace (- x * - x) with (x * x) by ring.
  f_equal. unfold Rdiv. ring.
Qed.

(** X15: The grid below the horizontal axis is the mirror image of the grid
    above it.  [drawBlock] draws every arc twice, the second time with the
    reactances negated: on the resistance circle of r, the arc point for
    the reactance -x is the mirror image of the arc point for x; and the
    reactance circle of -x, taken at the resistance r, is met at the
    mirror image of where the reactance circle of x is met. *)
Theorem mirrored_arcs (r : R) :
  -1 < r ->
  (forall x : R,
      arc_point (r / (r + 1)) 0 (1 / (r + 1)) (angleR {| Rr := r; X := - x |})
      = {| U := U (arc_point (r / (r + 1)) 0 (1 / (r + 1))
                             (angleR {| Rr := r; X := x |}));
           V := - V (arc_point (r / (r + 1)) 0 (1 / (r + 1))
                               (angleR {| Rr := r; X := x |})) |}) /\
  (forall x : R,
      x <> 0 ->
      arc_point 1 (1 / - x) (fabs (1 / - x)) (angleX {| Rr := r; X := - x |})
      = {| U := U (arc_point 1 (1 / x) (fabs (1 / x))
                             (angleX {| Rr := r; X := x |}));
           V := - V (arc_point 1 (1 / x) (fabs (1 / x))
                               (angleX {| Rr := r; X := x |})) |}).
Proof.
  intros Hr. split.
  - intros x. rewrite !Rarc_point by exact Hr.
    apply RXtoUV_negated_reactance.
  - intros x Hx.
    assert (HD : forall y : R, Zplus1_magSqu {| Rr := r; X := y |} <> 0).
    { intros y. pose proof (Zplus1_magSqu_pos {| Rr := r; X := y |} Hr). lra. }
    rewrite !Xarc_point by (try apply HD; lra).
    apply RXtoUV_negated_reactance.
Qed.

Lemma mirrored_arcs_witness :
  arc_point (1 / (1 + 1)) 0 (1 / (1 + 1)) (angleR {| Rr := 1; X := - 2 |})
  = {| U := U (arc_point (1 / (1 + 1)) 0 (1 / (1 + 1))
                         (angleR {| Rr := 1; X := 2 |}));
       V := - V (arc_point (1 / (1 + 1)) 0 (1 / (1 + 1))
                           (angleR {| Rr := 1; X := 2 |})) |}.
Proof.
  apply (mirrored_arcs 1). lra.
Defined.

(** ** The parts of the chart *)

(** X16: Every part of the chart hands the context back with the matrix and
    the stack of saved matrices it was given, whatever it rotates,
    translates and saves while it draws: the labels, a text on an arc, both
    rings, the texts of both grids, and both grids when their loops end. *)
Theorem chart_parts_restore_context
        (cairo_text_extents : cairo_t -> string -> cairo_text_extents_t)
        (g_strdup_printf_2f : R -> string) :
  balanced (drawLabels cairo_text_extents) /\
  (forall (sLabel : string) (radius angle centerX centerY : R),
      balanced (circleCairoText cairo_text_extents sLabel radius angle
                                centerX centerY)) /\
  balanced (drawWavelengthRing cairo_text_extents g_strdup_printf_2f) /\
  balanced (drawAngleRing cairo_text_extents) /\
  (forall o : tSmithOptions, balanced (drawRXgridText cairo_text_extents o)) /\
  (forall o : tSmithOptions, balanced (drawGBgridText cairo_text_extents o)) /\
  (forall (fuel : nat) (areas : list tRegion) (sparse : bool)
          (o : tSmithOptions) (c : cairo),
      drawRXgrid fuel areas sparse o = Some c -> balanced c) /\
  (forall (fuel : nat) (areas : list tRegion) (sparse : bool)
          (o : tSmithOptions) (c : cairo),
      drawGBgrid fuel areas sparse o = Some c -> balanced c).
Proof.
  split; [apply balanced_drawLabels |].
  split; [apply balanced_circleCairoText |].
  split; [apply balanced_drawWavelengthRing |].
  split; [apply balanced_drawAngleRing |].
  split; [apply balanced_drawRXgridText |].
  split; [apply balanced_drawGBgridText |].
  split; [apply balanced_drawRXgrid | apply balanced_drawGBgrid].
Qed.

Lemma chart_parts_restore_context_witness :
  balanced (cairo_block (set_source (colorGBgrid optionsS11) ;;
                         cairo_rotate PI ;;
                         skip ;; drawGridClosing true)).
Proof.
  apply (proj2 (proj2 (proj2 (proj2 (proj2 (proj2 (proj2
           (chart_parts_restore_context (fun _ _ => mkExtents 0 0 0 0 0 0)
                                        (fun _ => "0.00")))))))))
    with (fuel := 1%nat) (areas := [mkRegion 50 0.0 END]) (sparse := true)
         (o := optionsS11).
  reflexivity.
Defined.

(** ** One cached matrix for each options object *)

(** X17: Two charts composed one after the other, on the same context: the
    options object of the second holds the matrix of the second chart;
    the options object of the first still holds the matrix of the first
    chart if it is another object - and no longer if it is the same one,
    as with two NULL pointers, which share [defaultOptions]. *)
Theorem chart_matrix_per_options
        (cairo_text_extents : cairo_t -> string -> cairo_text_extents_t)
        (g_strdup_printf_2f : R -> string)
        (centerX1 centerY1 radius1 centerX2 centerY2 radius2 : R)
        (p q : options_ptr) (cr : cairo_t) (mem : memory) :
  let scale (radius : R) (o : options_ptr) :=
    if bDrawRing (flags (mem (orDefault o)))
    then radius / (OUTER_BOUNDARY_WITH_RING / SMITH_RADIUS) else radius in
  let M1 := matrix_scale (matrix_translate (ctm cr) centerX1 centerY1)
                         (scale radius1 p) (- scale radius1 p) in
  let M2 := matrix_scale (matrix_translate (ctm cr) centerX2 centerY2)
                         (scale radius2 q) (- scale radius2 q) in
  exists fuel0 : nat, forall fuel : nat, (fuel0 <= fuel)%nat ->
    exists (cr1 cr2 : cairo_t) (mem1 mem2 : memory),
      drawSmithChart cairo_text_extents g_strdup_printf_2f
                     fuel centerX1 centerY1 radius1 p cr mem = Some (cr1, mem1) /\
      drawSmithChart cairo_text_extents g_strdup_printf_2f
                     fuel centerX2 centerY2 radius2 q cr1 mem1 = Some (cr2, mem2) /\
      matrix (mem1 (orDefault p)) = M1 /\
      matrix (mem2 (orDefault q)) = M2 /\
      (orDefault p <> orDefault q -> matrix (mem2 (orDefault p)) = M1).
Proof.
  intros scale M1 M2.
  destruct (chartBody_returns cairo_text_extents g_strdup_printf_2f
              centerX1 centerY1 (scale radius1 p) (mem (orDefault p)))
    as [fuelA HA].
  set (o2 := if loc_eqb (orDefault q) (orDefault p)
             then with_matrix (mem (orDefault q)) M1
             else mem (orDefault q)).
  destruct (chartBody_returns cairo_text_extents g_strdup_printf_2f
              centerX2 centerY2 (scale radius2 q) o2) as [fuelB HB].
  exists (Nat.max fuelA fuelB). intros fuel Hfuel.
  destruct (HA fuel) as [body1 E1]; [lia |].
  destruct (HB fuel) as [body2 E2]; [lia |].
  assert (Erun1 : exists cr1 mem1,
             drawSmithChart cairo_text_extents g_strdup_printf_2f
                            fuel centerX1 centerY1 radius1 p cr mem
             = Some (cr1, mem1)).
  { unfold drawSmithChart. fold (scale radius1 p). rewrite E1.
    eexists. eexists. reflexivity. }
  destruct Erun1 as (cr1 & mem1 & Erun1).
  destruct (chart_matrix_cached cairo_text_extents g_strdup_printf_2f
              fuel centerX1 centerY1 radius1 p cr cr1 mem mem1 Erun1)
    as (Hm1 & Hctm1 & _).
  fold (scale radius1 p) in Hm1. fold M1 in Hm1.
  assert (Hmem1 : forall l : loc,
             mem1 l = if loc_eqb l (orDefault p)
                      then with_matrix (mem l) (matrix (mem1 (orDefault p)))
                      else mem l).
  { unfold drawSmithChart in Erun1. fold (scale radius1 p) in Erun1.
    rewrite E1 in Erun1. injection Erun1 as Hcr Hmem.
    intros l. rewrite <- Hmem. unfold cairo_get_matrix.
    assert (Epp : loc_eqb (orDefault p) (orDefault p) = true)
      by (apply loc_eqb_eq; reflexivity).
    rewrite Epp. cbn [matrix with_matrix]. reflexivity. }
  assert (Ho2 : mem1 (orDefault q) = o2).
  { rewrite Hmem1. unfold o2. rewrite Hm1. reflexivity. }
  assert (Hflags : bDrawRing (flags (mem1 (orDefault q)))
                   = bDrawRing (flags (mem (orDefault q)))).
  { rewrite Hmem1. destruct (loc_eqb (orDefault q) (orDefault p)); reflexivity. }
  assert (Erun2 : exists cr2 mem2,
             drawSmithChart cairo_text_extents g_strdup_printf_2f
                            fuel centerX2 centerY2 radius2 q cr1 mem1
             = Some (cr2, mem2)).
  { unfold drawSmithChart. rewrite Hflags. fold (scale radius2 q).
    rewrite Ho2, E2. eexists. eexists. reflexivity. }
  destruct Erun2 as (cr2 & mem2 & Erun2).
  destruct (chart_matrix_cached cairo_text_extents g_strdup_printf_2f
              fuel centerX2 centerY2 radius2 q cr1 cr2 mem1 mem2 Erun2)
    as (Hm2 & _ & _).
  rewrite Hflags, Hctm1 in Hm2. fold (scale radius2 q) in Hm2. fold M2 in Hm2.
  exists cr1, cr2, mem1, mem2.
  split; [exact Erun1 |]. split; [exact Erun2 |].
  split; [exact Hm1 |]. split; [exact Hm2 |].
  intros Hpq.
  unfold drawSmithChart in Erun2.
  destruct (chartBody cairo_text_extents g_strdup_printf_2f fuel
                      centerX2 centerY2 _ (mem1 (orDefault q))) as [body |];
    [| discriminate].
  injection Erun2 as Hcr Hmem. rewrite <- Hmem.
  rewrite cairo_get_matrix_elsewhere by exact Hpq. exact Hm1.
Qed.

Lemma chart_matrix_per_options_witness :
  exists fuel0 : nat, forall fuel : nat, (fuel0 <= fuel)%nat ->
    exists (cr1 cr2 : cairo_t) (mem1 mem2 : memory),
      drawSmithChart (fun _ _ => mkExtents 0 0 0 0 0 0) (fun _ => "0.00")
                     fuel 100 100 90 NULL fresh_context
                     (initial_memory (fun _ => optionsS11)) = Some (cr1, mem1) /\
      drawSmithChart (fun _ _ => mkExtents 0 0 0 0 0 0) (fun _ => "0.00")
                     fuel 300 100 90 (Some (addr_caller 0)) cr1 mem1
      = Some (cr2, mem2).
Proof.
  destruct (chart_matrix_per_options
              (fun _ _ => mkExtents 0 0 0 0 0 0) (fun _ => "0.00")
              100 100 90 300 100 90 NULL (Some (addr_caller 0)) fresh_context
              (initial_memory (fun _ => optionsS11))) as [fuel0 H].
  exists fuel0. intros fuel Hfuel.
  destruct (H fuel Hfuel) as (cr1 & cr2 & mem1 & mem2 & E1 & E2 & _).
  exists cr1, cr2, mem1, mem2. split; assumption.
Defined.

(** ** The cells the plotting routines read *)

(** X18: Handed at least one point (and no more than half of what a [gint]
    counts, so that the index sums of the loop are [int]s),
    [drawBezierCurveOnSmithChart] reads the cells 0 .. length-1 of the
    array and no other: what lies around the array does not change what
    it draws.  [drawLineArrayOnSmithChart] reads no other cell for any
    length. *)
Theorem plotting_reads_within_array (uvPoints uvPoints' : tUV_array) (length : Z)
        (pOptions : options_ptr) (cr : cairo_t) (mem : memory) :
  (forall i : Z, (0 <= i < length)%Z -> uvPoints' i = uvPoints i) ->
  drawLineArrayOnSmithChart uvPoints' length pOptions cr mem
  = drawLineArrayOnSmithChart uvPoints length pOptions cr mem /\
  ((1 <= length)%Z -> (2 * length <= G_MAXINT)%Z ->
   drawBezierCurveOnSmithChart uvPoints' length pOptions cr mem
   = drawBezierCurveOnSmithChart uvPoints length pOptions cr mem).
Proof.
  intros Hsame. split.
  - unfold drawLineArrayOnSmithChart, for_int.
    rewrite (for_loop_ext _ _
               (fun i => if (i =? 0)%Z
                         then cairo_move_to (U (uvPoints' 0%Z)) (V (uvPoints' 0%Z))
                         else cairo_line_to (U (uvPoints' i)) (V (uvPoints' i)))
               (fun i => if (i =? 0)%Z
                         then cairo_move_to (U (uvPoints 0%Z)) (V (uvPoints 0%Z))
                         else cairo_line_to (U (uvPoints i)) (V (uvPoints i))));
      [reflexivity |].
    intros j Hj.
    destruct (Z.eqb_spec j 0) as [E | _]; rewrite Hsame by lia; reflexivity.
  - intros Hlen _.
    unfold drawBezierCurveOnSmithChart, bezierPath, for_int.
    rewrite (Hsame 0%Z) by lia.
    rewrite (for_loop_ext _ _ (bezierSegment uvPoints' length)
                          (bezierSegment uvPoints length));
      [reflexivity |].
    intros j Hj. unfold bezierSegment.
    assert (Hrem : forall k : Z,
               (0 <= k)%Z -> (0 <= Z.rem k length < length)%Z).
    { intros k Hk. apply Z.rem_bound_pos; lia. }
    rewrite (Hsame j) by lia.
    rewrite !(Hsame (Z.rem _ length)) by (apply Hrem; lia).
    reflexivity.
Qed.

Lemma plotting_reads_within_array_witness :
  drawLineArrayOnSmithChart
    (array_of_list (mkUV 9 9) [mkUV 0 0; mkUV 1 0; mkUV 1 1]) 3
    NULL fresh_context (initial_memory (fun _ => optionsS11))
  = drawLineArrayOnSmithChart
      (array_of_list (mkUV 0 0) [mkUV 0 0; mkUV 1 0; mkUV 1 1]) 3
      NULL fresh_context (initial_memory (fun _ => optionsS11)).
Proof.
  assert (Hsame : forall i : Z,
             (0 <= i < 3)%Z ->
             array_of_list (mkUV 9 9) [mkUV 0 0; mkUV 1 0; mkUV 1 1] i
             = array_of_list (mkUV 0 0) [mkUV 0 0; mkUV 1 0; mkUV 1 1] i).
  { intros i Hi.
    assert (Hcases : i = 0%Z \/ i = 1%Z \/ i = 2%Z) by lia.
    destruct Hcases as [-> | [-> | ->]]; reflexivity. }
  exact (proj1 (plotting_reads_within_array
                  (array_of_list (mkUV 0 0) [mkUV 0 0; mkUV 1 0; mkUV 1 1])
                  (array_of_list (mkUV 9 9) [mkUV 0 0; mkUV 1 0; mkUV 1 1]) 3
                  NULL fresh_context (initial_memory (fun _ => optionsS11))
                  Hsame)).
Defined.

(** ** The joints of the fitted curve *)

Lemma atan2_direction (dU dV rho c x y : R) :
  0 < rho -> rho * rho = dU * dU + dV * dV ->
  0 < c -> x = c * dU -> y = c * dV ->
  rho * cos (atan2 y x) = dU /\ rho * sin (atan2 y x) = dV.
Proof.
  intros Hrho Hsq Hc -> ->.
  destruct (atan2_polar (c * dU) (c * dV) (c * rho)) as [Hcos Hsin].
  - apply Rmult_lt_0_compat; assumption.
  - replace (c * rho * (c * rho)) with (c * c * (rho * rho)) by ring.
    rewrite Hsq. ring.
  - split; apply (Rmult_eq_reg_l c); try lra;
      rewrite <- Rmult_assoc; assumption.
Qed.

Lemma segment_length (P Q : tUV) :
  P <> Q ->
  let lgt := sqrt ((U P - U Q) ^ 2 + (V P - V Q) ^ 2) in
  0 < lgt /\ lgt * lgt = (U Q - U P) * (U Q - U P) + (V Q - V P) * (V Q - V P).
Proof.
  intros Hne lgt.
  assert (Hd : 0 < (U P - U Q) ^ 2 + (V P - V Q) ^ 2).
  { destruct (Req_dec (U P - U Q) 0) as [EU | NU].
    - destruct (Req_dec (V P - V Q) 0) as [EV | NV].
      + exfalso. apply Hne. destruct P as [a b], Q as [c d].
        cbn [U V] in *. f_equal; lra.
      + rewrite EU. assert (0 < (V P - V Q) ^ 2) by (simpl; nra). simpl in *. lra.
    - assert (0 < (U P - U Q) ^ 2) by (simpl; nra).
      pose proof (pow2_ge_0 (V P - V Q)). lra. }
  split.
  - unfold lgt. apply sqrt_lt_R0. exact Hd.
  - unfold lgt. rewrite sqrt_sqrt by lra. ring.
Qed.

(** X19: The curve has no corner where two segments meet.  For three
    consecutive points P1, P2, P3 that are distinct and do not turn
    straight back, the trailing control point of the segment arriving at P2
    and the leading control point of the segment leaving P2 lie on one
    line through P2, on opposite sides of it, at a quarter of the length
    of their own segment: the tangent is continuous at P2.  (The points
    before P1 and after P3 do not enter.) *)
Theorem bezier_joint_is_smooth (P0 P1 P2 P3 P4 : tUV) :
  let lgt := sqrt ((U P1 - U P2) ^ 2 + (V P1 - V P2) ^ 2) in
  let lgt' := sqrt ((U P2 - U P3) ^ 2 + (V P2 - V P3) ^ 2) in
  let arriving := snd (bezierControlPoints {| A := P0; B := P1 |}
                                           {| A := P2; B := P3 |}) in
  let leaving := fst (bezierControlPoints {| A := P1; B := P2 |}
                                          {| A := P3; B := P4 |}) in
  P1 <> P2 -> P2 <> P3 ->
  (lgt' * (U P2 - U P1) + lgt * (U P3 - U P2) <> 0 \/
   lgt' * (V P2 - V P1) + lgt * (V P3 - V P2) <> 0) ->
  0 < lgt /\ 0 < lgt' /\
  lgt * (U leaving - U P2) = lgt' * (U P2 - U arriving) /\
  lgt * (V leaving - V P2) = lgt' * (V P2 - V arriving).
Proof.
  intros lgt lgt' arriving leaving H12 H23 Hturn.
  destruct (segment_length P1 P2 H12) as [Hl Hsq]. fold lgt in Hl, Hsq.
  destruct (segment_length P2 P3 H23) as [Hl' Hsq']. fold lgt' in Hl', Hsq'.
  set (wU := lgt' * (U P2 - U P1) + lgt * (U P3 - U P2)) in *.
  set (wV := lgt' * (V P2 - V P1) + lgt * (V P3 - V P2)) in *.
  set (rho := sqrt (wU * wU + wV * wV)).
  assert (Hw : 0 < wU * wU + wV * wV).
  { pose proof (Rle_0_sqr wU) as HU. pose proof (Rle_0_sqr wV) as HV.
    unfold Rsqr in *.
    destruct Hturn as [N | N].
    - assert (0 < wU * wU) by nra. lra.
    - assert (0 < wV * wV) by nra. lra. }
  assert (Hrho : 0 < rho) by (apply sqrt_lt_R0; exact Hw).
  assert (Hrsq : rho * rho = wU * wU + wV * wV)
    by (unfold rho; apply sqrt_sqrt; lra).
  (* the direction of the successor line, seen from the arriving segment *)
  destruct (atan2_direction (U P3 - U P2) (V P3 - V P2) lgt' 1
              (U P3 - U P2) (V P3 - V P2)) as [Hnc Hns];
    [exact Hl' | exact Hsq' | lra | ring | ring |].
  (* the direction of the predecessor line, seen from the leaving segment *)
  destruct (atan2_direction (U P2 - U P1) (V P2 - V P1) lgt 1
              (U P2 - U P1) (V P2 - V P1)) as [Hgc Hgs];
    [exact Hl | exact Hsq | lra | ring | ring |].
  set (aN := atan2 (V P3 - V P2) (U P3 - U P2)) in *.
  set (aG := atan2 (V P2 - V P1) (U P2 - U P1)) in *.
  (* both tangents point along w *)
  destruct (atan2_direction wU wV rho (/ lgt')
              (U P2 + lgt * cos aN - U P1) (V P2 + lgt * sin aN - V P1))
    as [Hac Has]; [exact Hrho | exact Hrsq | apply Rinv_0_lt_compat; exact Hl' | | |].
  { unfold wU. apply (Rmult_eq_reg_l lgt'); [| lra].
    rewrite <- Rmult_assoc, Rinv_r, Rmult_1_l by lra.
    replace (lgt' * (U P2 + lgt * cos aN - U P1))
      with (lgt' * (U P2 - U P1) + lgt * (lgt' * cos aN)) by ring.
    rewrite Hnc. reflexivity. }
  { unfold wV. apply (Rmult_eq_reg_l lgt'); [| lra].
    rewrite <- Rmult_assoc, Rinv_r, Rmult_1_l by lra.
    replace (lgt' * (V P2 + lgt * sin aN - V P1))
      with (lgt' * (V P2 - V P1) + lgt * (lgt' * sin aN)) by ring.
    rewrite Hns. reflexivity. }
  destruct (atan2_direction wU wV rho (/ lgt)
              (U P3 - (U P2 - lgt' * cos aG)) (V P3 - (V P2 - lgt' * sin aG)))
    as [Hlc Hls]; [exact Hrho | exact Hrsq | apply Rinv_0_lt_compat; exact Hl | | |].
  { unfold wU. apply (Rmult_eq_reg_l lgt); [| lra].
    rewrite <- Rmult_assoc, Rinv_r, Rmult_1_l by lra.
    replace (lgt * (U P3 - (U P2 - lgt' * cos aG)))
      with (lgt' * (lgt * cos aG) + lgt * (U P3 - U P2)) by ring.
    rewrite Hgc. reflexivity. }
  { unfold wV. apply (Rmult_eq_reg_l lgt); [| lra].
    rewrite <- Rmult_assoc, Rinv_r, Rmult_1_l by lra.
    replace (lgt * (V P3 - (V P2 - lgt' * sin aG)))
      with (lgt' * (lgt * sin aG) + lgt * (V P3 - V P2)) by ring.
    rewrite Hgs. reflexivity. }
  split; [exact Hl | split; [exact Hl' |]].
  unfold arriving, leaving, bezierControlPoints, angle; cbn [fst snd A B U V].
  fold lgt lgt' aN aG.
  set (a2 := atan2 (V P2 + lgt * sin aN - V P1) (U P2 + lgt * cos aN - U P1)) in *.
  set (a1 := atan2 (V P3 - (V P2 - lgt' * sin aG)) (U P3 - (U P2 - lgt' * cos aG))) in *.
  assert (Ec : cos a1 = cos a2).
  { apply (Rmult_eq_reg_l rho); [| lra]. rewrite Hac, Hlc. reflexivity. }
  assert (Es : sin a1 = sin a2).
  { apply (Rmult_eq_reg_l rho); [| lra]. rewrite Has, Hls. reflexivity. }
  rewrite Ec, Es. split; ring.
Qed.

Lemma bezier_joint_is_smooth_witness :
  sqrt ((0 - 1) ^ 2 + (0 - 0) ^ 2)
  * (U (fst (bezierControlPoints {| A := mkUV 0 0; B := mkUV 1 0 |}
                                 {| A := mkUV 1 1; B := mkUV 2 1 |})) - 1)
  = sqrt ((1 - 1) ^ 2 + (0 - 1) ^ 2)
    * (1 - U (snd (bezierControlPoints {| A := mkUV 0 0; B := mkUV 0 0 |}
                                       {| A := mkUV 1 0; B := mkUV 1 1 |}))).
Proof.
  apply (bezier_joint_is_smooth (mkUV 0 0) (mkUV 0 0) (mkUV 1 0) (mkUV 1 1)
                                (mkUV 2 1)); cbn [U V].
  - intros E. inversion E. lra.
  - intros E. inversion E. lra.
  - left. replace ((1 - 1) ^ 2 + (0 - 1) ^ 2) with 1 by (simpl; lra).
    replace ((0 - 1) ^ 2 + (0 - 0) ^ 2) with 1 by (simpl; lra).
    rewrite sqrt_1. lra.
Defined.

(** ** Text on an arc *)

Lemma string_append_assoc (a b c : string) :
  ((a ++ b) ++ c)%string = (a ++ (b ++ c))%string.
Proof. induction a as [| ch a IH]; cbn; [reflexivity | rewrite IH; reflexivity]. Qed.

Lemma string_append_empty (a : string) : (a ++ "")%string = a.
Proof. induction a as [| ch a IH]; cbn; [reflexivity | rewrite IH; reflexivity]. Qed.

Lemma shownText_app (a b : list cairo_op) :
  shownText (a ++ b) = (shownText a ++ shownText b)%string.
Proof.
  induction a as [| op a IH]; [reflexivity |].
  destruct op; cbn [shownText app]; rewrite ?IH; try reflexivity.
  rewrite string_append_assoc. reflexivity.
Qed.

Lemma shownText_emit (op : cairo_op) (cr : cairo_t) :
  shownText (sink (emit op cr))
  = (shownText (sink cr) ++ shownText [op])%string.
Proof. rewrite sink_emit. apply shownText_app. Qed.

Lemma sink_set_ctm (m : cairo_matrix_t) (cr : cairo_t) :
  sink (set_ctm m cr) = sink cr.
Proof. reflexivity. Qed.

Lemma shownText_circleChars
      (cairo_text_extents : cairo_t -> string -> cairo_text_extents_t)
      (radius : R) (s : string) (cr : cairo_t) :
  shownText (sink (circleChars cairo_text_extents radius s cr))
  = (shownText (sink cr) ++ s)%string.
Proof.
  revert cr. induction s as [| ch s IH]; intros cr.
  - cbn. rewrite string_append_empty. reflexivity.
  - cbn [circleChars]. unfold andthen at 1. rewrite IH.
    unfold with_text_extents, andthen, cairo_rotate, cairo_move_to,
      cairo_show_text.
    repeat first [rewrite shownText_emit | rewrite sink_set_ctm].
    cbn [shownText].
    rewrite ?string_append_empty, ?string_append_assoc. reflexivity.
Qed.

(** X20: A text set on an arc is the label, whatever the font: the characters
    are shown one at a time, each once, in the order of the string - and
    [circleCairoText] shows nothing else. *)
Theorem circleCairoText_spells_label
        (cairo_text_extents : cairo_t -> string -> cairo_text_extents_t)
        (sLabel : string) (radius angle centerX centerY : R) (cr : cairo_t) :
  shownText (sink (circleCairoText cairo_text_extents sLabel radius angle
                                   centerX centerY cr))
  = (shownText (sink cr) ++ sLabel)%string.
Proof.
  unfold circleCairoText, with_text_extents, cairo_block.
  unfold andthen. rewrite sink_cairo_restore, shownText_app.
  rewrite shownText_circleChars.
  unfold cairo_rotate, cairo_set_operator, cairo_fill, cairo_stroke_preserve,
    cairo_close_path, cairo_arc, cairo_rel_line_to, cairo_arc_negative,
    cairo_translate, cairo_set_line_width, cairo_new_path.
  repeat first [rewrite shownText_emit | rewrite sink_set_ctm].
  rewrite sink_cairo_save, shownText_app. cbn [shownText].
  rewrite ?string_append_empty. reflexivity.
Qed.

(** ** Impedances plotted on a composed chart *)

(** X21: A passive impedance plots inside the chart.  After [drawSmithChart],
    the cached matrix puts the transformed point of every impedance with
    R >= 0 where the caller's matrix puts a point no farther from the
    centre than the unit circle of the chart is drawn: the requested
    radius, over the outer boundary of the rings if they are drawn. *)
Theorem passive_impedance_inside_chart
        (cairo_text_extents : cairo_t -> string -> cairo_text_extents_t)
        (g_strdup_printf_2f : R -> string)
        (centerX centerY radius : R)
        (pOptions : options_ptr) (cr : cairo_t) (mem : memory) :
  exists fuel0 : nat, forall fuel : nat, (fuel0 <= fuel)%nat ->
    exists (cr' : cairo_t) (mem' : memory),
      drawSmithChart cairo_text_extents g_strdup_printf_2f
                     fuel centerX centerY radius pOptions cr mem
      = Some (cr', mem') /\
      forall rx : tRX,
        0 <= Rr rx ->
        exists x y : R,
          transform_point (matrix (mem' (orDefault pOptions))) (RXtoUV rx)
          = transform_point (ctm cr) {| U := x; V := y |} /\
          SQU (x - centerX) + SQU (y - centerY)
          <= SQU (radius / (if bDrawRing (flags (mem (orDefault pOptions)))
                            then OUTER_BOUNDARY_WITH_RING
                            else SMITH_RADIUS)).
Proof.
  destruct (chart_transform cairo_text_extents g_strdup_printf_2f
              centerX centerY radius pOptions cr mem) as [fuel0 H].
  exists fuel0. intros fuel Hfuel.
  destruct (H fuel Hfuel) as (cr' & mem' & Erun & _ & _ & Hmap).
  exists cr', mem'. split; [exact Erun |].
  intros rx HR.
  set (s := radius / (if bDrawRing (flags (mem (orDefault pOptions)))
                      then OUTER_BOUNDARY_WITH_RING else SMITH_RADIUS)) in *.
  exists (centerX + s * U (RXtoUV rx)), (centerY - s * V (RXtoUV rx)).
  split; [apply Hmap |].
  assert (HD : 0 < Zplus1_magSqu rx) by (apply Zplus1_magSqu_pos; lra).
  assert (Hmag : SQU (U (RXtoUV rx)) + SQU (V (RXtoUV rx)) <= 1).
  { rewrite RXtoUV_magSqu by lra.
    assert (0 <= 4 * Rr rx / Zplus1_magSqu rx).
    { apply Rmult_le_pos; [lra | left; apply Rinv_0_lt_compat; exact HD]. }
    lra. }
  unfold SQU in *.
  replace ((centerX + s * U (RXtoUV rx) - centerX)
           * (centerX + s * U (RXtoUV rx) - centerX)
           + (centerY - s * V (RXtoUV rx) - centerY)
             * (centerY - s * V (RXtoUV rx) - centerY))
    with (s * s * (U (RXtoUV rx) * U (RXtoUV rx) + V (RXtoUV rx) * V (RXtoUV rx)))
    by ring.
  pose proof (Rle_0_sqr s) as Hs. unfold Rsqr in Hs. nra.
Qed.

Lemma passive_impedance_inside_chart_witness :
  exists fuel0 : nat, forall fuel : nat, (fuel0 <= fuel)%nat ->
    exists (cr' : cairo_t) (mem' : memory),
      drawSmithChart (fun _ _ => mkExtents 0 0 0 0 0 0) (fun _ => "0.00")
                     fuel 500 500 490 NULL fresh_context
                     (initial_memory (fun _ => optionsS11))
      = Some (cr', mem') /\
      exists x y : R,
        transform_point (matrix (mem' addr_defaultOptions))
                        (RXtoUV {| Rr := 0.9; X := 1.1 |})
        = transform_point (ctm fresh_context) {| U := x; V := y |}.
Proof.
  destruct (passive_impedance_inside_chart
              (fun _ _ => mkExtents 0 0 0 0 0 0) (fun _ => "0.00")
              500 500 490 NULL fresh_context
              (initial_memory (fun _ => optionsS11))) as [fuel0 H].
  exists fuel0. intros fuel Hfuel.
  destruct (H fuel Hfuel) as (cr' & mem' & E & Hin).
  exists cr', mem'. split; [exact E |].
  destruct (Hin {| Rr := 0.9; X := 1.1 |}) as (x & y & Hxy & _).
  - cbn [Rr]. lra.
  - exists x, y. exact Hxy.
Defined.

(** ** The admittance grid *)

(** X22: The admittance grid is the impedance grid turned by half a turn, and
    rightly so.  The admittance Y = 1/Z of an impedance has the opposite
    reflection coefficient.  And whatever [drawGBgrid] draws is what
    [drawImmittanceGrid] draws for the same table, between a save and a
    restore, after the colour of the admittance grid and a rotation by PI:
    the grid is drawn under a matrix that puts its point (U, V) where the
    caller's matrix puts (-U, -V). *)
Theorem admittance_is_half_turn (rx : tRX) :
  SQU (Rr rx) + SQU (X rx) <> 0 ->
  Zplus1_magSqu rx <> 0 ->
  RXtoUV {| Rr := Rr rx / (SQU (Rr rx) + SQU (X rx));
            X := - X rx / (SQU (Rr rx) + SQU (X rx)) |}
  = {| U := - U (RXtoUV rx); V := - V (RXtoUV rx) |} /\
  forall (fuel : nat) (areas : list tRegion) (areas_is_sparseGrid : bool)
         (o : tSmithOptions) (c : cairo),
    drawGBgrid fuel areas areas_is_sparseGrid o = Some c ->
    exists grid : cairo,
      drawImmittanceGrid fuel areas areas_is_sparseGrid = Some grid /\
      forall cr : cairo_t,
      exists cr0 : cairo_t,
        c cr = cairo_restore (grid cr0) /\
        sink cr0 = sink cr ++ [ op_save;
                                op_set_source_rgba
                                  (red (colorGBgrid o)) (green (colorGBgrid o))
                                  (blue (colorGBgrid o)) (alpha (colorGBgrid o));
                                op_rotate PI ] /\
        saved cr0 = ctm cr :: saved cr /\
        forall uv : tUV,
          transform_point (ctm cr0) uv
          = transform_point (ctm cr) {| U := - U uv; V := - V uv |}.
Proof.
  intros Hm HD. split.
  - unfold RXtoUV, Zplus1_magSqu, SQU in *; cbn [U V Rr X].
    rewrite lit_1_0, lit_2_0 in *.
    set (r := Rr rx) in *. set (x := X rx) in *.
    set (m2 := r * r + x * x) in *.
    assert (HD' : r / m2 * (r / m2) + - x / m2 * (- x / m2) + r / m2 * 2 + 1
                  = (m2 + r * 2 + 1) / m2).
    { unfold m2. field. exact Hm. }
    assert (HN : r / m2 * (r / m2) + - x / m2 * (- x / m2) = 1 / m2).
    { unfold m2. field. exact Hm. }
    rewrite HD', HN. fold m2.
    f_equal; field; split; assumption.
  - intros fuel areas sparse o c Ec. unfold drawGBgrid in Ec.
    destruct (drawImmittanceGrid fuel areas sparse) as [grid |];
      [| discriminate].
    cbn [option_map] in Ec. injection Ec as Ec. subst c.
    exists grid. split; [reflexivity |].
    intros cr.
    exists ((set_source (colorGBgrid o) ;; cairo_rotate PI) (cairo_save cr)).
    split; [reflexivity |].
    split.
    { unfold andthen, set_source, cairo_set_source_rgba, cairo_rotate.
      rewrite !sink_emit. cbn [sink set_ctm]. rewrite sink_emit, sink_cairo_save.
      rewrite <- !app_assoc. reflexivity. }
    split; [reflexivity |].
    intros uv.
    unfold andthen, set_source, cairo_set_source_rgba, cairo_rotate, cairo_save,
      emit, set_ctm; cbn [ctm].
    unfold transform_point, matrix_rotate; cbn [xx yx xy yy x0 y0 U V].
    rewrite cos_PI, sin_PI. f_equal; ring.
Qed.

Lemma admittance_is_half_turn_witness :
  RXtoUV {| Rr := 1 / (SQU 1 + SQU 2); X := - 2 / (SQU 1 + SQU 2) |}
  = {| U := - U (RXtoUV {| Rr := 1; X := 2 |});
       V := - V (RXtoUV {| Rr := 1; X := 2 |}) |} /\
  exists grid : cairo,
    drawImmittanceGrid 1 [mkRegion 50 0.0 END] true = Some grid /\
    forall cr : cairo_t,
    exists cr0 : cairo_t,
      cairo_block (set_source (colorGBgrid optionsS11) ;;
                   cairo_rotate PI ;; skip ;; drawGridClosing true) cr
      = cairo_restore (grid cr0) /\
      forall uv : tUV,
        transform_point (ctm cr0) uv
        = transform_point (ctm cr) {| U := - U uv; V := - V uv |}.
Proof.
  assert (Hm : SQU (Rr {| Rr := 1; X := 2 |}) + SQU (X {| Rr := 1; X := 2 |}) <> 0)
    by (unfold SQU; simpl; lra).
  assert (HD : Zplus1_magSqu {| Rr := 1; X := 2 |} <> 0)
    by (unfold Zplus1_magSqu, SQU; simpl; lra).
  destruct (admittance_is_half_turn {| Rr := 1; X := 2 |} Hm HD) as [HY HG].
  split; [exact HY |].
  destruct (HG 1%nat [mkRegion 50 0.0 END] true optionsS11
               (cairo_block (set_source (colorGBgrid optionsS11) ;;
                             cairo_rotate PI ;; skip ;; drawGridClosing true))
               eq_refl) as (grid & Egrid & Hgrid).
  exists grid. split; [exact Egrid |].
  intros cr. destruct (Hgrid cr) as (cr0 & Ec & _ & _ & Ht).
  exists cr0. split; [exact Ec | exact Ht].
Defined.
